(** * Procedural asset generators of the doom_fps game: a shallow embedding

    The three scripts under [games/doom_fps] synthesise audio clips
    ([gen_audio.py]), billboard sprites ([gen_sprites.py]) and tiling
    textures ([gen_textures.py]).  This development embeds them as Rocq
    functions and proves properties of their output buffers.

    Modelling conventions.
    - Python floats are exact rationals ([Q]); [int()] truncates toward zero.
    - Python's global [random] module is a state-passing interface
      ([Random]); [math.sin] and [math.pi] are an uninterpreted interface
      ([MathLib]).
    - The Pillow drawing primitives that the scripts call are an interface
      ([Pillow]) that exposes which pixels a primitive covers.
    - Exceptions ([IndexError], [ValueError]) are results of type [result]. *)

From Stdlib Require Import ZArith QArith Qabs Lia Lqa Bool.
From stdpp Require Import base list.

Open Scope Z_scope.

(** ** Results, exceptions and the generator monad *)

Inductive exn : Type :=
| IndexError   (* list index out of range *)
| ValueError   (* max() of an empty sequence, randint on an empty range *)
| StructError  (* struct.pack: value does not fit the format *)
| OutOfFuel.   (* the model's loop bound was reached; not a Python error *)

Inductive result (A : Type) : Type :=
| Ok (a : A)
| Raise (e : exn).
Arguments Ok {A} a.
Arguments Raise {A} e.

(** The pseudo-random generator behind Python's [random] module.  The module
    keeps one global state; [random.seed(k)] replaces it by a state that
    depends on [k] alone, every draw reads and advances it. *)
Class Random : Type := {
  rng : Type;
  seed : Z -> rng;
  randint : Z -> Z -> rng -> Z * rng;
  uniform : Q -> Q -> rng -> Q * rng;
  gauss : Q -> Q -> rng -> Q * rng;
  randint_range : forall a b g, a <= b -> a <= fst (randint a b g) <= b;
  uniform_range : forall a b g,
    (a <= b)%Q -> (a <= fst (uniform a b g))%Q /\ (fst (uniform a b g) <= b)%Q
}.

(** [math.sin] and [math.pi]. *)
Class MathLib : Type := {
  sin : Q -> Q;
  pi : Q
}.

Section Monad.
Context {R : Random}.

(** A generator reads the global random state and either raises or returns
    a value together with the state it leaves behind. *)
Definition M (A : Type) : Type := rng -> result (A * rng).

Definition ret {A} (a : A) : M A := fun g => Ok (a, g).

Definition bind {A B} (m : M A) (k : A -> M B) : M B :=
  fun g => match m g with
           | Ok (a, g') => k a g'
           | Raise e => Raise e
           end.

Definition lift {A} (r : result A) : M A :=
  fun g => match r with Ok a => Ok (a, g) | Raise e => Raise e end.

Definition random_seed (k : Z) : M unit := fun _ => Ok (tt, seed k).
(** [random.randint(a, b)] raises [ValueError] on an empty range. *)
Definition random_randint (a b : Z) : M Z :=
  fun g => if a <=? b then Ok (randint a b g) else Raise ValueError.
Definition random_uniform (a b : Q) : M Q := fun g => Ok (uniform a b g).
Definition random_gauss (mu sigma : Q) : M Q := fun g => Ok (gauss mu sigma g).

End Monad.

Declare Scope gen_scope.
Delimit Scope gen_scope with gen.
Notation "'let*' x ':=' m 'in' k" := (bind m (fun x => k))
  (at level 10, x pattern, m at level 100, k at level 200, only parsing)
  : gen_scope.
Open Scope gen_scope.

(** ** Python built-ins *)

(** [int(q)]: truncation toward zero. *)
Definition int (q : Q) : Z := Z.quot (Qnum q) (Zpos (Qden q)).

(** [min(a, b)] returns [b] when [b < a] and [a] otherwise; [max(a, b)]
    returns [b] when [b > a] and [a] otherwise. *)
Definition fmin (a b : Q) : Q :=
  match (b ?= a)%Q with Lt => b | _ => a end.
Definition fmax (a b : Q) : Q :=
  match (b ?= a)%Q with Gt => b | _ => a end.

(** [range(a, b)]. *)
Fixpoint range_from (a : Z) (n : nat) : list Z :=
  match n with
  | O => []
  | S n' => a :: range_from (a + 1) n'
  end.
Definition range (a b : Z) : list Z := range_from a (Z.to_nat (b - a)).

(** Index normalisation of a Python list: [l[i]] with [-len <= i < 0]
    counts from the end, anything outside [-len, len) raises. *)
Definition norm_index {A} (l : list A) (i : Z) : option nat :=
  let n := Z.of_nat (length l) in
  if (0 <=? i) && (i <? n) then Some (Z.to_nat i)
  else if (- n <=? i) && (i <? 0) then Some (Z.to_nat (n + i))
  else None.

Definition getitem {A} (l : list A) (i : Z) : result A :=
  match norm_index l i with
  | Some k => match l !! k with Some x => Ok x | None => Raise IndexError end
  | None => Raise IndexError
  end.

Definition setitem {A} (l : list A) (i : Z) (v : A) : result (list A) :=
  match norm_index l i with
  | Some k => Ok (<[k := v]> l)
  | None => Raise IndexError
  end.

Section Loops.
Context {R : Random}.

(** [for i in l: s = body(i, s)]. *)
Fixpoint for_ {A S} (l : list A) (body : A -> S -> M S) (s : S) : M S :=
  match l with
  | [] => ret s
  | i :: l' => let* s' := body i s in for_ l' body s'
  end.

End Loops.

(** ** gen_audio.py *)

Definition SAMPLE_RATE : Z := 22050.

Definition Qltb (a b : Q) : bool :=
  match (a ?= b)%Q with Lt => true | _ => false end.

(** [struct.pack('<h', v)]: the two bytes of a 16-bit two's complement
    integer, low byte first. *)
Definition pack_h (v : Z) : result (list Z) :=
  if (-32768 <=? v) && (v <=? 32767)
  then Ok [v mod 256; (v / 256) mod 256]
  else Raise StructError.

Definition clamp_sample (s : Q) : Q := fmax (-1.0) (fmin 1.0 s).

Definition quantize (s : Q) : Z := int (clamp_sample s * 32767).

(** The frames [write_wav] hands to the WAV writer, in order. *)
Fixpoint write_wav (samples : list Q) : result (list Z) :=
  match samples with
  | [] => Ok []
  | s :: rest =>
      let clamped := clamp_sample s in
      match pack_h (int (clamped * 32767)) with
      | Ok frame =>
          match write_wav rest with
          | Ok out => Ok (frame ++ out)
          | Raise e => Raise e
          end
      | Raise e => Raise e
      end
  end.

(** [samples[i] += v]. *)
Definition add_at (samples : list Q) (i : Z) (v : Q) : result (list Q) :=
  match getitem samples i with
  | Ok s => setitem samples i (s + v)%Q
  | Raise e => Raise e
  end.

(** [samples[:k]]. *)
Definition slice_to {A} (l : list A) (k : Z) : list A :=
  if 0 <=? k then take (Z.to_nat k) l
  else take (Z.to_nat (Z.of_nat (length l) + k)) l.

(** [max(abs(s) for s in samples)]. *)
Definition peak_abs (samples : list Q) : result Q :=
  match samples with
  | [] => Raise ValueError
  | s :: rest => Ok (fold_left (fun m x => fmax m (Qabs x)) rest (Qabs s))
  end.

(** The "Normalize" block shared by both clips, [target] being 0.7 or 0.6. *)
Definition normalize (target : Q) (samples : list Q) : result (list Q) :=
  match peak_abs samples with
  | Ok peak =>
      if Qltb 0 peak
      then Ok (map (fun s => (s / peak * target)%Q) samples)
      else Ok samples
  | Raise e => Raise e
  end.

Section Audio.
Context {R : Random} {L : MathLib}.

(** Layer 1 of the sizzle: brown noise. *)
Definition brown_noise (n_samples : Z) (samples : list Q) : M (list Q) :=
  let* (_, samples) :=
    for_ (range 0 n_samples)
      (fun i '(brown, samples) =>
         let* d := random_gauss 0 0.02 in
         let brown := (brown + d)%Q in
         let brown := (brown * 0.998)%Q in
         let* samples := lift (add_at samples i (brown * 0.4)%Q) in
         ret (brown, samples))
      (0%Q, samples) in
  ret samples.

(** One bubble pop: a sine burst under a half-sine envelope. *)
Definition pop_burst (n_samples pop_start pop_len : Z) (pop_freq pop_vol : Q)
    (samples : list Q) : M (list Q) :=
  for_ (range 0 pop_len)
    (fun j samples =>
       let idx := pop_start + j in
       if idx <? n_samples then
         let env := sin (pi * inject_Z j / inject_Z pop_len)%Q in
         lift (add_at samples idx
                 (sin (2 * pi * pop_freq * inject_Z j / inject_Z SAMPLE_RATE)
                  * env * pop_vol)%Q)
       else ret samples)
    samples.

(** Layer 2 of the sizzle: the [while t < duration] loop.  [fuel] bounds the
    number of iterations of the model. *)
Fixpoint bubble_pops (fuel : nat) (n_samples : Z) (duration t : Q)
    (samples : list Q) : M (list Q) :=
  match fuel with
  | O => fun _ => Raise OutOfFuel
  | S fuel' =>
      if Qltb t duration then
        let* u := random_uniform 0.08 0.3 in
        let t := (t + u)%Q in
        let pop_start := int (t * inject_Z SAMPLE_RATE) in
        let* u := random_uniform 0.01 0.04 in
        let pop_len := int (u * inject_Z SAMPLE_RATE) in
        let* pop_freq := random_uniform 300 800 in
        let* pop_vol := random_uniform 0.05 0.15 in
        let* samples :=
          pop_burst n_samples pop_start pop_len pop_freq pop_vol samples in
        bubble_pops fuel' n_samples duration t samples
      else ret samples
  end.

(** Layer 3 of the sizzle: high-frequency fizz. *)
Definition fizz_layer (n_samples : Z) (samples : list Q) : M (list Q) :=
  for_ (range 0 n_samples)
    (fun i samples =>
       let* fizz := random_gauss 0 0.03 in
       let fizz :=
         (fizz * (sin (2 * pi * 4000 * inject_Z i / inject_Z SAMPLE_RATE)
                  * 0.5))%Q in
       lift (add_at samples i fizz))
    samples.

(** The crossfade loop over the first [fade_len] samples. *)
Definition crossfade (n_samples fade_len : Z) (samples : list Q)
    : M (list Q) :=
  for_ (range 0 fade_len)
    (fun i samples =>
       let t_fade := (inject_Z i / inject_Z fade_len)%Q in
       let* a := lift (getitem samples i) in
       let* b := lift (getitem samples (n_samples - fade_len + i)) in
       lift (setitem samples i (a * t_fade + b * (1 - t_fade))%Q))
    samples.

(** Iterations allowed to the bubble loop: every pass advances [t] by at
    least 0.08, so 3.0 seconds are covered in 38 passes. *)
Definition pops_fuel : nat := 39.

(** The three layers of [gen_nukage_sizzle], from the seeding on. *)
Definition nukage_layers (duration : Q) (n_samples : Z) : M (list Q) :=
  let samples := replicate (Z.to_nat n_samples) 0%Q in
  let* _ := random_seed 1234 in
  let* samples := brown_noise n_samples samples in
  let* samples := bubble_pops pops_fuel n_samples duration 0 samples in
  fizz_layer n_samples samples.

(** [gen_nukage_sizzle] up to and including the trim of the crossfade
    tail. *)
Definition nukage_faded : M (list Q) :=
  let duration := 3.0%Q in
  let n_samples := int (inject_Z SAMPLE_RATE * duration) in
  let* samples := nukage_layers duration n_samples in
  let fade_len := int (0.05 * inject_Z SAMPLE_RATE) in
  let* samples := crossfade n_samples fade_len samples in
  let samples := slice_to samples (n_samples - fade_len) in
  ret samples.

(** The buffer [gen_nukage_sizzle] passes to [write_wav]. *)
Definition nukage_sizzle_samples : M (list Q) :=
  let* samples := nukage_faded in
  lift (normalize 0.7 samples).

Definition gen_nukage_sizzle : M (list Z) :=
  let* samples := nukage_sizzle_samples in
  lift (write_wav samples).

(** The deterministic part of one hum sample. *)
Definition hum_wave (i : Z) : Q :=
  let t := (inject_Z i / inject_Z SAMPLE_RATE)%Q in
  let s := (sin (2 * pi * 60 * t) * 0.5)%Q in
  let s := (s + sin (2 * pi * 120 * t) * 0.25)%Q in
  let s := (s + sin (2 * pi * 180 * t) * 0.12)%Q in
  let warble := (1.0 + 0.08 * sin (2 * pi * 0.5 * t))%Q in
  (s * warble)%Q.

Definition hum_layer (n_samples : Z) (samples : list Q) : M (list Q) :=
  for_ (range 0 n_samples)
    (fun i samples =>
       let s := hum_wave i in
       let* d := random_gauss 0 0.005 in
       let s := (s + d)%Q in
       lift (setitem samples i s))
    samples.

(** [gen_computer_hum] up to the normalisation.  The function draws from
    the random state it is entered with: it never calls [random.seed]. *)
Definition hum_raw : M (list Q) :=
  let duration := 2.0%Q in
  let n_samples := int (inject_Z SAMPLE_RATE * duration) in
  let samples := replicate (Z.to_nat n_samples) 0%Q in
  hum_layer n_samples samples.

(** The buffer [gen_computer_hum] passes to [write_wav]. *)
Definition computer_hum_samples : M (list Q) :=
  let* samples := hum_raw in
  lift (normalize 0.6 samples).

Definition gen_computer_hum : M (list Z) :=
  let* samples := computer_hum_samples in
  lift (write_wav samples).

End Audio.

(** ** Images and the Pillow drawing interface *)

(** A Pillow image: its size and the colour of every pixel.  The pixel
    type is [rgba] for mode ['RGBA'] and [rgb] for mode ['RGB']. *)
Record image (P : Type) : Type := Image {
  width : Z;
  height : Z;
  px : Z -> Z -> P
}.
Arguments Image {P} width height px.
Arguments width {P} i.
Arguments height {P} i.
Arguments px {P} i x y.

Definition rgba : Type := (Z * Z * Z * Z)%type.
Definition rgb : Type := (Z * Z * Z)%type.
Definition box : Type := (Z * Z * Z * Z)%type.

Definition alpha (p : rgba) : Z := let '(_, _, _, a) := p in a.

(** Channel ranges of 8-bit pixels. *)
Definition channel_ok (c : Z) : Prop := 0 <= c <= 255.

Definition rgba_ok (p : rgba) : Prop :=
  let '(r, g, b, a) := p in
  channel_ok r /\ channel_ok g /\ channel_ok b /\ channel_ok a.

Definition rgb_ok (p : rgb) : Prop :=
  let '(r, g, b) := p in channel_ok r /\ channel_ok g /\ channel_ok b.

(** [Image.new(mode, (w, h), color)]. *)
Definition Image_new {P} (w h : Z) (color : P) : image P :=
  Image w h (fun _ _ => color).

Definition in_canvas {P} (img : image P) (x y : Z) : bool :=
  (0 <=? x) && (x <? width img) && (0 <=? y) && (y <? height img).

(** [img.getpixel((x, y))] and [pixels[x, y]].  Every access in the
    generators is made from loops over [range(W)] and [range(H)] and stays
    inside the canvas. *)
Definition getpixel {P} (img : image P) (x y : Z) : P := px img x y.

(** [img.putpixel((x, y), c)] and [pixels[x, y] = c]. *)
Definition putpixel {P} (img : image P) (x y : Z) (c : P) : image P :=
  Image (width img) (height img)
    (fun x' y' => if (x' =? x) && (y' =? y) then c else px img x' y').

(** Painting the pixels selected by [mask] with [c]; drawing is clipped to
    the canvas. *)
Definition paint {P} (mask : Z -> Z -> bool) (c : P) (img : image P)
    : image P :=
  Image (width img) (height img)
    (fun x y => if in_canvas img x y && mask x y then c else px img x y).

(** The pixels of [draw.rectangle([x0, y0, x1, y1], fill=...)]: both
    corners are included. *)
Definition in_box (b : box) (x y : Z) : bool :=
  let '(x0, y0, x1, y1) := b in
  (x0 <=? x) && (x <=? x1) && (y0 <=? y) && (y <=? y1).

Definition rectangle {P} (b : box) (fill : P) (img : image P) : image P :=
  paint (in_box b) fill img.

(** What is written to the PNG file: the pixels in row-major order. *)
Definition image_data {P} (img : image P) : list P :=
  flat_map (fun y => map (fun x => px img x y) (range 0 (width img)))
    (range 0 (height img)).

(** The rasterisers of Pillow that the generators use beside filled
    rectangles.  Each gives the set of pixels a primitive covers. *)
Class Pillow : Type := {
  (* draw.ellipse(box, fill=...): the filled interior *)
  ellipse_fill : box -> Z -> Z -> bool;
  (* draw.ellipse(box, fill=..., outline=...): the outline *)
  ellipse_outline : box -> Z -> Z -> bool;
  (* draw.line([p, q], width=w) *)
  line_cover : Z * Z -> Z * Z -> Z -> Z -> Z -> bool;
  (* draw.polygon(pts, fill=...) and draw.polygon(pts, outline=...) *)
  polygon_fill : list (Z * Z) -> Z -> Z -> bool;
  polygon_outline : list (Z * Z) -> Z -> Z -> bool;
  (* draw.rectangle(box, outline=..., width=w) *)
  rectangle_outline : box -> Z -> Z -> Z -> bool;
  (* img.filter(ImageFilter.SMOOTH) and img.filter(ImageFilter.SMOOTH_MORE) *)
  smooth : image rgb -> image rgb;
  smooth_more : image rgb -> image rgb;
  (* an ellipse stays inside its bounding box *)
  ellipse_fill_inside : forall b x y, ellipse_fill b x y = true ->
    in_box b x y = true;
  ellipse_outline_inside : forall b x y, ellipse_outline b x y = true ->
    in_box b x y = true;
  (* the middle pixel of a bounding box with an odd number of rows and
     columns belongs to the interior *)
  ellipse_fill_centre : forall x0 y0 x1 y1,
    x0 <= x1 -> y0 <= y1 ->
    Z.even (x1 - x0) = true -> Z.even (y1 - y0) = true ->
    ellipse_fill (x0, y0, x1, y1) ((x0 + x1) / 2) ((y0 + y1) / 2) = true;
  (* a line of width 1 stays inside the box spanned by its end points *)
  line_inside : forall x0 y0 x1 y1 x y,
    line_cover (x0, y0) (x1, y1) 1 x y = true ->
    Z.min x0 x1 <= x <= Z.max x0 x1 /\ Z.min y0 y1 <= y <= Z.max y0 y1;
  (* the filters return 8-bit images *)
  smooth_ok : forall img,
    (forall x y, rgb_ok (px img x y)) ->
    forall x y, rgb_ok (px (smooth img) x y);
  smooth_more_ok : forall img,
    (forall x y, rgb_ok (px img x y)) ->
    forall x y, rgb_ok (px (smooth_more img) x y)
}.

Section Drawing.
Context {D : Pillow}.

Definition ellipse {P} (b : box) (fill : P) (img : image P) : image P :=
  paint (ellipse_fill b) fill img.

Definition ellipse_outlined {P} (b : box) (fill outline : P)
    (img : image P) : image P :=
  paint (ellipse_outline b) outline (paint (ellipse_fill b) fill img).

Definition line {P} (p q : Z * Z) (fill : P) (w : Z) (img : image P)
    : image P :=
  paint (line_cover p q w) fill img.

Definition polygon {P} (pts : list (Z * Z)) (fill : P) (img : image P)
    : image P :=
  paint (polygon_fill pts) fill img.

Definition polygon_outlined {P} (pts : list (Z * Z)) (outline : P)
    (img : image P) : image P :=
  paint (polygon_outline pts) outline img.

Definition rectangle_outlined {P} (b : box) (outline : P) (w : Z)
    (img : image P) : image P :=
  paint (rectangle_outline b w) outline img.

End Drawing.

Section PixelLoops.
Context {R : Random}.

(** [for a in range(a0, a1): for b in range(b0, b1): s = body(a, b, s)]. *)
Definition for2 {St} (a0 a1 b0 b1 : Z) (body : Z -> Z -> St -> M St)
    (s : St) : M St :=
  for_ (range a0 a1) (fun a s => for_ (range b0 b1) (body a) s) s.

End PixelLoops.

(** The clamp of a colour channel, [max(0, min(255, c))]. *)
Definition clamp255 (c : Z) : Z := Z.max 0 (Z.min 255 c).

(** [range(a, b, step)] for a positive step. *)
Definition range_step (a b step : Z) : list Z :=
  map (fun k => a + step * k) (range 0 ((b - a + step - 1) / step)).

(** ** gen_sprites.py *)

Section Sprites.
Context {R : Random} {D : Pillow}.

(** The body of the noise loops that close [gen_barrel] ([k] = 8) and
    [gen_tech_column] ([k] = 5). *)
Definition sprite_noise_pixel (k : Z) (y x : Z) (img : image rgba)
    : M (image rgba) :=
  let '(r, g, b, a) := getpixel img x y in
  if a >? 0 then
    let* v := random_randint (- k) k in
    ret (putpixel img x y
           (Z.max 0 (Z.min 255 (r + v)),
            Z.max 0 (Z.min 255 (g + v)),
            Z.max 0 (Z.min 255 (b + v)),
            a))
  else ret img.

(** The curve shading of the barrel in column [x]. *)
Definition barrel_shade (body_left body_right x : Z) : Z :=
  let center_dist :=
    (Qabs (inject_Z x - inject_Z (body_left + body_right) / 2)
     / (inject_Z (body_right - body_left) / 2))%Q in
  int (20 * (1 - center_dist * center_dist)).

Definition barrel_shade_pixel (body_left body_right : Z) (x y : Z)
    (img : image rgba) : M (image rgba) :=
  let shade := barrel_shade body_left body_right x in
  let '(r, g, b, a) := getpixel img x y in
  if a >? 0 then
    ret (putpixel img x y
           (Z.min 255 (r + shade),
            Z.min 255 (g + shade),
            Z.min 255 (b + shade / 2),
            a))
  else ret img.

(** [gen_barrel] up to the noise pass. *)
Definition barrel_drawn : M (image rgba) :=
  let W := 32 in
  let H := 48 in
  let img := Image_new W H (0, 0, 0, 0) in
  let body_top := 6 in
  let body_bot := 44 in
  let body_left := 4 in
  let body_right := 27 in
  let img :=
    rectangle (body_left, body_top, body_right, body_bot)
      (90, 75, 55, 255) img in
  let* img :=
    for2 body_left (body_right + 1) body_top (body_bot + 1)
      (barrel_shade_pixel body_left body_right) img in
  let img :=
    fold_left
      (fun img band_y =>
         rectangle (body_left, band_y, body_right, band_y + 1)
           (70, 65, 55, 255) img)
      [body_top + 2; body_top + 10; body_bot - 10; body_bot - 2] img in
  let mid_y := (body_top + body_bot) / 2 in
  let mid_x := (body_left + body_right) / 2 in
  let img :=
    rectangle (mid_x - 6, mid_y - 5, mid_x + 6, mid_y + 5)
      (40, 140, 30, 255) img in
  let img :=
    rectangle (mid_x - 4, mid_y - 3, mid_x + 4, mid_y + 3)
      (60, 180, 40, 255) img in
  let img :=
    ellipse (mid_x - 3, mid_y - 3, mid_x + 3, mid_y + 3)
      (30, 120, 20, 255) img in
  let img :=
    ellipse (mid_x - 1, mid_y - 1, mid_x + 1, mid_y + 1)
      (80, 200, 50, 255) img in
  let img :=
    ellipse_outlined (body_left + 1, body_top - 3, body_right - 1, body_top + 3)
      (100, 85, 65, 255) (70, 60, 45, 255) img in
  ret img.

(** The image [gen_barrel] saves. *)
Definition barrel_image : M (image rgba) :=
  let* img := barrel_drawn in
  let* _ := random_seed 111 in
  for2 0 48 0 32 (sprite_noise_pixel 8) img.

Definition gen_barrel : M (list rgba) :=
  let* img := barrel_image in
  ret (image_data img).

(** The text rows of the terminal screen. *)
Definition panel_text (img : image rgba) : M (image rgba) :=
  let text_color := (50, 200, 150, 255) in
  let* _ := random_seed 222 in
  for_ (range 0 5)
    (fun row img =>
       let y := 10 + row * 5 in
       let* line_len := random_randint 8 28 in
       let* segs := random_randint 2 5 in
       for_ (range 0 segs)
         (fun seg img =>
            let* r1 := random_randint 0 20 in
            let x_start := 9 + r1 in
            let* r2 := random_randint 3 10 in
            let x_end := Z.min 39 (x_start + r2) in
            ret (rectangle (x_start, y, x_end, y + 2) text_color img))
         img)
    img.

(** The image [gen_computer_panel] saves. *)
Definition computer_panel_image : M (image rgba) :=
  let W := 48 in
  let H := 48 in
  let img := Image_new W H (0, 0, 0, 0) in
  let img := rectangle (2, 2, 45, 45) (50, 50, 55, 255) img in
  let img := rectangle (3, 3, 44, 44) (60, 60, 65, 255) img in
  let img := rectangle (6, 6, 41, 38) (15, 40, 50, 255) img in
  let img := rectangle (6, 6, 41, 7) (30, 60, 70, 255) img in
  let img := rectangle (6, 6, 7, 38) (25, 55, 65, 255) img in
  let img :=
    fold_left
      (fun img y => line (8, y) (39, y) (20, 55, 65, 255) 1 img)
      (range_step 8 37 2) img in
  let* img := panel_text img in
  let img := rectangle (9, 33, 12, 35) (100, 255, 200, 255) img in
  let img := rectangle (8, 40, 14, 43) (40, 40, 45, 255) img in
  let img := ellipse (38, 40, 42, 44) (200, 50, 30, 255) img in
  let img := ellipse (33, 40, 37, 44) (30, 200, 60, 255) img in
  ret img.

Definition gen_computer_panel : M (list rgba) :=
  let* img := computer_panel_image in
  ret (image_data img).

(** The cylinder shading of the column at column [x]. *)
Definition column_shade (col_left col_right x : Z) : Z :=
  let center := (inject_Z (col_left + col_right) / 2)%Q in
  let dist :=
    (Qabs (inject_Z x - center) / (inject_Z (col_right - col_left) / 2))%Q in
  int (25 * (1 - dist * dist)).

Definition column_shade_pixel (col_left col_right : Z) (y x : Z)
    (img : image rgba) : M (image rgba) :=
  let '(r, g, b, a) := getpixel img x y in
  if a >? 0 then
    let shade := column_shade col_left col_right x in
    ret (putpixel img x y
           (Z.min 255 (r + shade),
            Z.min 255 (g + shade),
            Z.min 255 (b + shade),
            a))
  else ret img.

Definition column_stripe_pixel (i x : Z) (img : image rgba)
    : M (image rgba) :=
  let y := 32 + i in
  if (x + i) mod 4 <? 2
  then ret (putpixel img x y (180, 150, 30, 255))
  else ret (putpixel img x y (40, 40, 45, 255)).

(** [gen_tech_column] up to the noise pass. *)
Definition tech_column_drawn : M (image rgba) :=
  let W := 24 in
  let H := 64 in
  let img := Image_new W H (0, 0, 0, 0) in
  let col_left := 4 in
  let col_right := 19 in
  let img := rectangle (col_left, 2, col_right, 61) (100, 100, 105, 255) img in
  let* img :=
    for2 2 62 col_left (col_right + 1)
      (column_shade_pixel col_left col_right) img in
  let img :=
    fold_left
      (fun img band_y =>
         let img :=
           rectangle (col_left, band_y, col_right, band_y + 2)
             (75, 75, 80, 255) img in
         line (col_left, band_y + 3) (col_right, band_y + 3)
           (120, 120, 125, 255) 1 img)
      [4; 15; 30; 45; 59] img in
  let img :=
    rectangle (col_left - 2, 0, col_right + 2, 4) (80, 80, 85, 255) img in
  let img :=
    rectangle (col_left - 2, 60, col_right + 2, 63) (80, 80, 85, 255) img in
  for2 0 4 (col_left + 1) col_right column_stripe_pixel img.

(** The image [gen_tech_column] saves. *)
Definition tech_column_image : M (image rgba) :=
  let* img := tech_column_drawn in
  let* _ := random_seed 333 in
  for2 0 64 0 24 (sprite_noise_pixel 5) img.

Definition gen_tech_column : M (list rgba) :=
  let* img := tech_column_image in
  ret (image_data img).

End Sprites.

(** ** gen_textures.py *)

Definition SIZE : Z := 128.

Definition rgb_eqb (p q : rgb) : bool :=
  let '(r, g, b) := p in
  let '(r', g', b') := q in
  (r =? r') && (g =? g') && (b =? b').

Section Textures.
Context {R : Random} {D : Pillow}.

(** The noise body shared by [gen_gray_concrete], [gen_dark_teal_metal],
    [gen_blue_tech_panel], [gen_tech_floor] and [gen_ceiling_panel]: one
    draw from the running generator, added to the three channels. *)
Definition plain_noise_pixel (k : Z) (y x : Z) (img : image rgb)
    : M (image rgb) :=
  let '(r, g, b) := getpixel img x y in
  let* v := random_randint (- k) k in
  ret (putpixel img x y
         (Z.max 0 (Z.min 255 (r + v)),
          Z.max 0 (Z.min 255 (g + v)),
          Z.max 0 (Z.min 255 (b + v)))).

(** The noise body of [gen_brown_stone_floor] ([k] = 20, [damp] = 0.6) and
    [gen_tan_walkway] ([k] = 10, [damp] = 0.5): the blue channel gets a
    damped offset. *)
Definition damped_noise_pixel (k : Z) (damp : Q) (y x : Z) (img : image rgb)
    : M (image rgb) :=
  let* v := random_randint (- k) k in
  let '(r, g, b) := getpixel img x y in
  ret (putpixel img x y
         (Z.max 0 (Z.min 255 (r + v)),
          Z.max 0 (Z.min 255 (g + v)),
          Z.max 0 (Z.min 255 (b + int (inject_Z v * damp))))).

(** The noise body of [gen_green_stone]: a second draw for the green
    channel. *)
Definition green_noise_pixel (y x : Z) (img : image rgb) : M (image rgb) :=
  let* v := random_randint (-25) 25 in
  let '(r, g, b) := getpixel img x y in
  let* w := random_randint (-5) 5 in
  ret (putpixel img x y
         (Z.max 0 (Z.min 255 (r + v)),
          Z.max 0 (Z.min 255 (g + v + w)),
          Z.max 0 (Z.min 255 (b + v)))).

(** The noise body of [gen_brown_brick]: the generator is re-seeded from
    the brick cell for [bv] and from the pixel index for [pv]. *)
Definition brick_noise_pixel (brick_h brick_w : Z) (mortar : rgb) (y x : Z)
    (img : image rgb) : M (image rgb) :=
  let '(r, g, b) := getpixel img x y in
  if negb (rgb_eqb (r, g, b) mortar) then
    let* _ := random_seed ((y / brick_h) * 10 + (x / brick_w) + 101) in
    let* bv := random_randint (-20) 20 in
    let* _ := random_seed (y * SIZE + x + 42) in
    let* pv := random_randint (-8) 8 in
    ret (putpixel img x y
           (Z.max 0 (Z.min 255 (r + bv + pv)),
            Z.max 0 (Z.min 255 (g + bv / 2 + pv)),
            Z.max 0 (Z.min 255 (b + bv / 3 + pv))))
  else ret img.

(** The noise body of [gen_gray_tile_floor]: re-seeded from the tile for
    [tv] and from the pixel index for [v]. *)
Definition tile_noise_pixel (tile_size : Z) (groove : rgb) (y x : Z)
    (img : image rgb) : M (image rgb) :=
  let '(r, g, b) := getpixel img x y in
  if Z.abs (r - fst (fst groove)) >? 5 then
    let* _ := random_seed ((y / tile_size) * 4 + (x / tile_size) + 404) in
    let* tv := random_randint (-8) 8 in
    let* _ := random_seed (y * SIZE + x + 405) in
    let* v := random_randint (-10) 10 in
    ret (putpixel img x y
           (Z.max 0 (Z.min 255 (r + v + tv)),
            Z.max 0 (Z.min 255 (g + v + tv)),
            Z.max 0 (Z.min 255 (b + v + tv))))
  else ret img.

(** The grid lines drawn by several textures: a vertical and a horizontal
    line at every multiple of [stride]. *)
Definition grid_lines (stride : Z) (color : rgb) (w : Z) (img : image rgb)
    : image rgb :=
  fold_left
    (fun img i =>
       let pos := i * stride in
       let img := line (pos, 0) (pos, SIZE) color w img in
       line (0, pos) (SIZE, pos) color w img)
    (range 0 (SIZE / stride + 1)) img.

(** [gen_brown_brick] up to the noise pass. *)
Definition brown_brick_drawn : image rgb :=
  let img := Image_new SIZE SIZE (120, 70, 40) in
  let brick_h := 16 in
  let brick_w := 32 in
  let mortar := (60, 40, 25) in
  fold_left
    (fun img row =>
       let y := row * brick_h in
       let img := rectangle (0, y, SIZE, y + 1) mortar img in
       let offset := if row mod 2 =? 1 then brick_w / 2 else 0 in
       fold_left
         (fun img col =>
            let x := col * brick_w + offset in
            rectangle (x, y, x + 1, y + brick_h) mortar img)
         (range (-1) (SIZE / brick_w + 2)) img)
    (range 0 (SIZE / brick_h + 1)) img.

Definition brown_brick_image : M (image rgb) :=
  let brick_h := 16 in
  let brick_w := 32 in
  let mortar := (60, 40, 25) in
  for2 0 SIZE 0 SIZE (brick_noise_pixel brick_h brick_w mortar)
    brown_brick_drawn.

Definition brown_stone_floor_image : M (image rgb) :=
  let img := Image_new SIZE SIZE (100, 65, 35) in
  let* _ := random_seed 202 in
  let* img := for2 0 SIZE 0 SIZE (damped_noise_pixel 20 0.6) img in
  let img := grid_lines 32 (70, 45, 25) 1 img in
  ret (smooth img).

(** One random-walk crack of [gen_gray_concrete]. *)
Definition crack_walk (steps : Z) (dx_lo dx_hi : Z) (start : Z * Z)
    (crack_color : rgb) (img : image rgb) : M (image rgb) :=
  let* st :=
    for_ (range 0 steps)
      (fun _ '(img, cx, cy) =>
         let* dx := random_randint dx_lo dx_hi in
         let nx := cx + dx in
         let* dy := random_randint 1 3 in
         let ny := cy + dy in
         let img :=
           line (cx mod SIZE, cy mod SIZE) (nx mod SIZE, ny mod SIZE)
             crack_color 1 img in
         ret (img, nx, ny))
      (img, fst start, snd start) in
  ret (fst (fst st)).

Definition gray_concrete_image : M (image rgb) :=
  let img := Image_new SIZE SIZE (110, 110, 105) in
  let* _ := random_seed 303 in
  let* img := for2 0 SIZE 0 SIZE (plain_noise_pixel 15) img in
  let crack_color := (75, 75, 72) in
  let* _ := random_seed 304 in
  let* img := crack_walk 60 (-1) 2 (20, 0) crack_color img in
  let* img := crack_walk 40 (-2) 1 (90, 30) crack_color img in
  ret (smooth_more img).

(** [gen_gray_tile_floor] up to the noise pass. *)
Definition gray_tile_floor_drawn : image rgb :=
  let img := Image_new SIZE SIZE (95, 100, 100) in
  let tile_size := 32 in
  let groove := (65, 68, 70) in
  grid_lines tile_size groove 2 img.

Definition gray_tile_floor_image : M (image rgb) :=
  let tile_size := 32 in
  let groove := (65, 68, 70) in
  for2 0 SIZE 0 SIZE (tile_noise_pixel tile_size groove)
    gray_tile_floor_drawn.

Definition dark_teal_metal_image : M (image rgb) :=
  let img := Image_new SIZE SIZE (35, 75, 65) in
  let img :=
    fold_left
      (fun img y =>
         let img := line (0, y) (SIZE, y) (25, 55, 48) 2 img in
         line (0, y + 1) (SIZE, y + 1) (50, 95, 82) 1 img)
      [0; 32; 64; 96] img in
  let img :=
    fold_left
      (fun img ry =>
         fold_left
           (fun img rx =>
              let img :=
                ellipse (rx - 2, ry - 2, rx + 2, ry + 2) (28, 60, 52) img in
              ellipse (rx - 1, ry - 1, rx + 1, ry + 1) (45, 90, 78) img)
           [16; 48; 80; 112] img)
      [16; 48; 80; 112] img in
  let* _ := random_seed 505 in
  for2 0 SIZE 0 SIZE (plain_noise_pixel 6) img.

Definition tan_walkway_image : M (image rgb) :=
  let img := Image_new SIZE SIZE (140, 115, 70) in
  let spacing := 16 in
  let img :=
    fold_left
      (fun img row =>
         fold_left
           (fun img col =>
              let cx :=
                (col * spacing
                 + (if negb (row mod 2 =? 0) then spacing / 2 else 0))
                mod SIZE in
              let cy := (row * spacing) mod SIZE in
              let pts :=
                [(cx, cy - 3); (cx + 3, cy); (cx, cy + 3); (cx - 3, cy)] in
              let img := polygon pts (155, 128, 80) img in
              polygon_outlined pts (120, 98, 60) img)
           (range 0 (SIZE / spacing + 1)) img)
      (range 0 (SIZE / spacing + 1)) img in
  let* _ := random_seed 606 in
  for2 0 SIZE 0 SIZE (damped_noise_pixel 10 0.5) img.

Definition blue_tech_panel_image : M (image rgb) :=
  let img := Image_new SIZE SIZE (55, 60, 95) in
  let img :=
    rectangle_outlined (0, 0, SIZE - 1, SIZE - 1) (40, 45, 75) 3 img in
  let img :=
    rectangle_outlined (3, 3, SIZE - 4, SIZE - 4) (70, 78, 120) 1 img in
  let img :=
    fold_left
      (fun img y =>
         let img := line (8, y) (SIZE - 8, y) (45, 50, 80) 1 img in
         fold_left
           (fun img x =>
              if x <? SIZE - 8
              then rectangle (x - 2, y - 2, x + 2, y + 2) (70, 80, 130) img
              else img)
           [24; 64; 104] img)
      [24; 48; 72; 96] img in
  let img :=
    fold_left
      (fun img x => line (x, 8) (x, SIZE - 8) (45, 50, 80) 1 img)
      [32; 96] img in
  let* _ := random_seed 707 in
  for2 0 SIZE 0 SIZE (plain_noise_pixel 5) img.

Definition tech_floor_image : M (image rgb) :=
  let img := Image_new SIZE SIZE (50, 48, 55) in
  let cell := 16 in
  let gap := 2 in
  let img :=
    fold_left
      (fun img row =>
         fold_left
           (fun img col =>
              let x0 := col * cell + gap in
              let y0 := row * cell + gap in
              let x1 := (col + 1) * cell - gap in
              let y1 := (row + 1) * cell - gap in
              let img := rectangle (x0, y0, x1, y1) (60, 58, 65) img in
              rectangle (x0 + 1, y0 + 1, x1 - 1, y1 - 1) (55, 53, 60) img)
           (range 0 (SIZE / cell)) img)
      (range 0 (SIZE / cell)) img in
  let img :=
    fold_left
      (fun img row =>
         fold_left
           (fun img col =>
              let cx := col * cell + cell / 2 in
              let cy := row * cell + cell / 2 in
              rectangle (cx - 3, cy - 3, cx + 3, cy + 3) (30, 28, 35) img)
           (range 0 (SIZE / cell)) img)
      (range 0 (SIZE / cell)) img in
  let* _ := random_seed 808 in
  for2 0 SIZE 0 SIZE (plain_noise_pixel 4) img.

Definition green_stone_image : M (image rgb) :=
  let img := Image_new SIZE SIZE (55, 80, 45) in
  let* _ := random_seed 909 in
  let* img := for2 0 SIZE 0 SIZE green_noise_pixel img in
  let img := grid_lines 32 (40, 60, 33) 1 img in
  ret (smooth img).

Definition ceiling_panel_image : M (image rgb) :=
  let img := Image_new SIZE SIZE (65, 62, 58) in
  let tile := 64 in
  let img := grid_lines tile (45, 42, 38) 2 img in
  let img :=
    fold_left
      (fun img row =>
         fold_left
           (fun img col =>
              let x0 := col * tile in
              let y0 := row * tile in
              rectangle_outlined (x0 + 4, y0 + 4, x0 + tile - 4, y0 + tile - 4)
                (72, 69, 65) 1 img)
           (range 0 (SIZE / tile)) img)
      (range 0 (SIZE / tile)) img in
  let* _ := random_seed 1010 in
  for2 0 SIZE 0 SIZE (plain_noise_pixel 8) img.

Definition gen_brown_brick : M (list rgb) :=
  let* img := brown_brick_image in ret (image_data img).
Definition gen_brown_stone_floor : M (list rgb) :=
  let* img := brown_stone_floor_image in ret (image_data img).
Definition gen_gray_concrete : M (list rgb) :=
  let* img := gray_concrete_image in ret (image_data img).
Definition gen_gray_tile_floor : M (list rgb) :=
  let* img := gray_tile_floor_image in ret (image_data img).
Definition gen_dark_teal_metal : M (list rgb) :=
  let* img := dark_teal_metal_image in ret (image_data img).
Definition gen_tan_walkway : M (list rgb) :=
  let* img := tan_walkway_image in ret (image_data img).
Definition gen_blue_tech_panel : M (list rgb) :=
  let* img := blue_tech_panel_image in ret (image_data img).
Definition gen_tech_floor : M (list rgb) :=
  let* img := tech_floor_image in ret (image_data img).
Definition gen_green_stone : M (list rgb) :=
  let* img := green_stone_image in ret (image_data img).
Definition gen_ceiling_panel : M (list rgb) :=
  let* img := ceiling_panel_image in ret (image_data img).

End Textures.

(** ** Reference functions used to state the properties *)

(** The value a crossfaded sample takes: [a] is the sample at index [i],
    [b] its partner in the fade window at the end of the buffer. *)
Definition crossfade_value (fade_len i : Z) (a b : Q) : Q :=
  let t_fade := (inject_Z i / inject_Z fade_len)%Q in
  (a * t_fade + b * (1 - t_fade))%Q.

(** One pass of the brown-noise loop on the running value: the draw is
    added, then the sum is damped. *)
Definition brown_step (value d : Q) : Q := ((value + d) * 0.998)%Q.

(** The recurrence as the specification words it: the previous value is
    damped, then the draw is added. *)
Definition spec_brown_step (value d : Q) : Q := (value * 0.998 + d)%Q.

(** The running value after [k] passes, for a recurrence [step] fed by the
    draws [draw 0], [draw 1], ... *)
Fixpoint brown_walk (step : Q -> Q -> Q) (draw : nat -> Q) (k : nat) : Q :=
  match k with
  | O => 0%Q
  | S k' => step (brown_walk step draw k') (draw k')
  end.

Section Draws.
Context {R : Random}.

(** The random state after [k] consecutive [random.gauss(mu, sigma)] calls,
    and the value of the next call. *)
Fixpoint gauss_state (mu sigma : Q) (k : nat) (g : rng) : rng :=
  match k with
  | O => g
  | S k' => snd (gauss mu sigma (gauss_state mu sigma k' g))
  end.

Definition gauss_draw (mu sigma : Q) (g : rng) (k : nat) : Q :=
  fst (gauss mu sigma (gauss_state mu sigma k g)).

(** The samples the hum loop stores, in order, as a list built front to
    back: sample [i] is [hum_wave i] plus the next draw. *)
Fixpoint hum_stream {L : MathLib} (i : Z) (n : nat) (g : rng) : list Q * rng :=
  match n with
  | O => ([], g)
  | S n' =>
      let '(d, g1) := gauss 0 0.005 g in
      let '(rest, g2) := hum_stream (i + 1) n' g1 in
      ((hum_wave i + d)%Q :: rest, g2)
  end.

(** Running a generator twice in one process: the second run starts in the
    random state the first run left. *)
Definition run_twice {A} (m : M A) : M (A * A) :=
  let* first := m in
  let* second := m in
  ret (first, second).

(** "[p] is the maximum absolute sample value over the buffer [l]", said
    without the code's [max(abs(s) for s in samples)]: no sample of [l]
    exceeds [p] in absolute value, and one sample attains it. *)
Definition max_abs_is (l : list Q) (p : Q) : Prop :=
  (forall x, In x l -> (Qabs x <= p)%Q) /\
  (exists x, In x l /\ (Qabs x == p)%Q).

(** "[out] is [pre] normalised to [target]": when the maximum absolute
    value of [pre] is not zero, every sample is scaled by target / peak and
    the maximum absolute value of [out] is the target; when it is zero the
    buffer is left as it is. *)
Definition normalized_to (target : Q) (pre out : list Q) : Prop :=
  exists peak,
    max_abs_is pre peak /\
    (~ (peak == 0)%Q ->
       out = map (fun s => (s / peak * target)%Q) pre /\
       max_abs_is out target) /\
    ((peak == 0)%Q -> out = pre).

(** "The brown-noise layer follows the recurrence [step]": entered with the
    buffer [init] in state [g], the loop returns a buffer whose sample [k]
    is the initial sample plus 0.4 times the running value after pass
    [k]. *)
Definition brown_layer_follows (step : Q -> Q -> Q) (n : nat)
    (init : list Q) (g : rng) (out : list Q) : Prop :=
  length out = n /\
  forall k, (k < n)%nat ->
    exists s, init !! k = Some s /\
      out !! k =
        Some (s + brown_walk step (gauss_draw 0 0.02 g) (S k) * 0.4)%Q.

End Draws.

(** "Pass [i] of a loop owns the pixels [K i] and updates each of them by
    [V]": the pass does not raise, keeps the size of the image, changes an
    owned pixel from [p] to some [p'] with [V x y p p'], and leaves every
    other pixel as it is. *)
Definition step_owned {R : Random} {P} (K : Z -> Z -> Z -> Prop)
    (V : Z -> Z -> P -> P -> Prop) (body : Z -> image P -> M (image P))
    (i : Z) : Prop :=
  forall img g,
    exists img' g',
      body i img g = Ok (img', g') /\
      width img' = width img /\ height img' = height img /\
      (forall x y, K i x y -> V x y (px img x y) (px img' x y)) /\
      (forall x y, ~ K i x y -> px img' x y = px img x y).

(** What the sprite noise pass may do to a pixel: nothing when it is
    transparent, otherwise one offset [v] within [-k, k] on the three colour
    channels, clamped, with alpha kept. *)
Definition noised (k : Z) (p p' : rgba) : Prop :=
  let '(r, g, b, a) := p in
  (a <= 0 /\ p' = p) \/
  (0 < a /\ exists v, - k <= v <= k /\
     p' = (Z.max 0 (Z.min 255 (r + v)), Z.max 0 (Z.min 255 (g + v)),
           Z.max 0 (Z.min 255 (b + v)), a)).

(** The colour band of the inner glow of the barrel: an opaque pixel whose
    colour channels are within the noise bound 8 of (80, 200, 50). *)
Definition in_glow_band (p : rgba) : Prop :=
  let '(r, g, b, a) := p in
  80 - 8 <= r <= 80 + 8 /\ 200 - 8 <= g <= 200 + 8 /\
  50 - 8 <= b <= 50 + 8 /\ a = 255.

(** What a shading pass may do to a pixel: nothing when it is transparent,
    otherwise a brightening by [s] (halved on blue when [halve] is set),
    capped at 255, with alpha kept. *)
Definition shaded (s : Z) (halve : bool) (p p' : rgba) : Prop :=
  let '(r, g, b, a) := p in
  (a <= 0 /\ p' = p) \/
  (0 < a /\
     p' = (Z.min 255 (r + s), Z.min 255 (g + s),
           Z.min 255 (b + (if halve then s / 2 else s)), a)).

(** The output of a run, without the random state it leaves. *)
Definition output {A S} (r : result (A * S)) : result A :=
  match r with
  | Ok (a, _) => Ok a
  | Raise e => Raise e
  end.

(** A generator is deterministic when its output does not depend on the
    random state it is entered with: two runs in one process, or in two
    processes, write the same buffer. *)
Definition deterministic {R : Random} {A} (m : M A) : Prop :=
  forall g1 g2, output (m g1) = output (m g2).

(** A generator is blind to the random state when even the state it leaves
    does not depend on the state it is entered with. *)
Definition state_blind {R : Random} {A} (m : M A) : Prop :=
  forall g1 g2, m g1 = m g2.

(** A computation that neither raises nor touches the random state. *)
Definition pure_ {R : Random} {A} (m : M A) : Prop :=
  exists a, forall g, m g = Ok (a, g).

(** The alpha channel of the terminal sprite: opaque exactly on the monitor
    casing, the rectangle from (2, 2) to (45, 45). *)
Definition panel_alpha (img : image rgba) : Prop :=
  forall x y,
    (2 <= x <= 45 /\ 2 <= y <= 45 -> alpha (px img x y) = 255) /\
    (~ (2 <= x <= 45 /\ 2 <= y <= 45) -> alpha (px img x y) = 0).

(** The invariant of the terminal sprite while it is drawn: size 48 by 48,
    opaque exactly on the casing, 8-bit channels. *)
Definition panel_inv (img : image rgba) : Prop :=
  width img = 48 /\ height img = 48 /\ panel_alpha img /\
  forall x y, rgba_ok (px img x y).

(** An RGBA image of the given size with 8-bit channels. *)
Definition sized_ok (w h : Z) (img : image rgba) : Prop :=
  width img = w /\ height img = h /\ forall x y, rgba_ok (px img x y).

(** *** Noise as a function of the pixel *)

Section Jitter.
Context {R : Random}.

(** The coarse and the fine offset of [gen_brown_brick] at pixel [(x, y)]:
    the first draw after seeding with the brick cell, and with the pixel
    index. *)
Definition brick_coarse (x y : Z) : Z :=
  fst (randint (-20) 20 (seed ((y / 16) * 10 + (x / 32) + 101))).

Definition brick_fine (x y : Z) : Z :=
  fst (randint (-8) 8 (seed (y * SIZE + x + 42))).

Definition brick_jitter (x y : Z) (p : rgb) : rgb :=
  let '(r, g, b) := p in
  if negb (rgb_eqb (r, g, b) (60, 40, 25)) then
    let bv := brick_coarse x y in
    let pv := brick_fine x y in
    (Z.max 0 (Z.min 255 (r + bv + pv)),
     Z.max 0 (Z.min 255 (g + bv / 2 + pv)),
     Z.max 0 (Z.min 255 (b + bv / 3 + pv)))
  else p.

(** The same for [gen_gray_tile_floor]. *)
Definition tile_coarse (x y : Z) : Z :=
  fst (randint (-8) 8 (seed ((y / 32) * 4 + (x / 32) + 404))).

Definition tile_fine (x y : Z) : Z :=
  fst (randint (-10) 10 (seed (y * SIZE + x + 405))).

Definition tile_jitter (x y : Z) (p : rgb) : rgb :=
  let '(r, g, b) := p in
  if Z.abs (r - 65) >? 5 then
    let tv := tile_coarse x y in
    let v := tile_fine x y in
    (Z.max 0 (Z.min 255 (r + v + tv)),
     Z.max 0 (Z.min 255 (g + v + tv)),
     Z.max 0 (Z.min 255 (b + v + tv)))
  else p.


End Jitter.

(** The offsets the single-pass textures add for a draw [v] (and a second
    draw [w] in [gen_green_stone]). *)
Definition plain_jitter (v : Z) (p : rgb) : rgb :=
  let '(r, g, b) := p in
  (Z.max 0 (Z.min 255 (r + v)), Z.max 0 (Z.min 255 (g + v)),
   Z.max 0 (Z.min 255 (b + v))).

Definition damped_jitter (damp : Q) (v : Z) (p : rgb) : rgb :=
  let '(r, g, b) := p in
  (Z.max 0 (Z.min 255 (r + v)), Z.max 0 (Z.min 255 (g + v)),
   Z.max 0 (Z.min 255 (b + int (inject_Z v * damp)))).

Definition green_jitter (v w : Z) (p : rgb) : rgb :=
  let '(r, g, b) := p in
  (Z.max 0 (Z.min 255 (r + v)), Z.max 0 (Z.min 255 (g + v + w)),
   Z.max 0 (Z.min 255 (b + v))).

(** ** A concrete rasteriser to run the model on

    Simple masks stand in for Pillow's rasterisers wherever a property is
    evaluated on a concrete input. *)

(** A filled ellipse: the pixels whose centre lies in or on the ellipse
    inscribed in the box spanned by the centres of the corner pixels, whose
    diameters are [x1 - x0] and [y1 - y0].  Coordinates are doubled and
    taken from the middle of the box, so that they stay integers. *)
Definition raster_ellipse_fill (b : box) (x y : Z) : bool :=
  let '(x0, y0, x1, y1) := b in
  let w := x1 - x0 in
  let h := y1 - y0 in
  in_box b x y &&
  ((2 * x - x0 - x1) * (2 * x - x0 - x1) * (h * h)
   + (2 * y - y0 - y1) * (2 * y - y0 - y1) * (w * w) <=? w * w * (h * h)).

Definition raster_ellipse_outline (b : box) (x y : Z) : bool :=
  raster_ellipse_fill b x y &&
  negb (raster_ellipse_fill b (x - 1) y && raster_ellipse_fill b (x + 1) y &&
        raster_ellipse_fill b x (y - 1) && raster_ellipse_fill b x (y + 1)).

Definition raster_line (p q : Z * Z) (w x y : Z) : bool :=
  let '(x0, y0) := p in
  let '(x1, y1) := q in
  in_box (Z.min x0 x1 - (w - 1), Z.min y0 y1 - (w - 1),
          Z.max x0 x1, Z.max y0 y1) x y &&
  (Z.abs ((x - x0) * (y1 - y0) - (y - y0) * (x1 - x0))
   <=? w * Z.max (Z.abs (x1 - x0)) (Z.abs (y1 - y0))).

Definition raster_polygon_fill (pts : list (Z * Z)) (x y : Z) : bool :=
  match pts with
  | [] => false
  | (px0, py0) :: rest =>
      let xs := map fst rest in
      let ys := map snd rest in
      in_box (fold_left Z.min xs px0, fold_left Z.min ys py0,
              fold_left Z.max xs px0, fold_left Z.max ys py0) x y
  end.

Definition raster_rectangle_outline (b : box) (w x y : Z) : bool :=
  let '(x0, y0, x1, y1) := b in
  in_box b x y && negb (in_box (x0 + w, y0 + w, x1 - w, y1 - w) x y).

(** An RGB image with 8-bit channels. *)
Definition all_rgb_ok (img : image rgb) : Prop :=
  forall x y, rgb_ok (px img x y).

(** ** The scripts

    What each file runs under [if __name__ == "__main__"]: its generators,
    one after the other, in one process. *)

Section Scripts.
Context {R : Random} {L : MathLib} {D : Pillow}.

Definition main_audio : M (list Z * list Z) :=
  let* sizzle := gen_nukage_sizzle in
  let* hum := gen_computer_hum in
  ret (sizzle, hum).

Definition main_sprites : M (list rgba * list rgba * list rgba) :=
  let* barrel := gen_barrel in
  let* panel := gen_computer_panel in
  let* column := gen_tech_column in
  ret (barrel, panel, column).

Definition main_textures : M (list (list rgb)) :=
  let* t1 := gen_brown_brick in
  let* t2 := gen_brown_stone_floor in
  let* t3 := gen_gray_concrete in
  let* t4 := gen_gray_tile_floor in
  let* t5 := gen_dark_teal_metal in
  let* t6 := gen_tan_walkway in
  let* t7 := gen_blue_tech_panel in
  let* t8 := gen_tech_floor in
  let* t9 := gen_green_stone in
  let* t10 := gen_ceiling_panel in
  ret [t1; t2; t3; t4; t5; t6; t7; t8; t9; t10].

End Scripts.

(** What a reader of the WAV file gets back from the frames: each pair of
    bytes, low byte first, as a 16-bit two's complement integer
    ([struct.unpack('<h', ...)]). *)
Definition unpack_h (lo hi : Z) : Z :=
  let u := lo + 256 * hi in
  if u <? 32768 then u else u - 65536.

Fixpoint read_frames (bytes : list Z) : list Z :=
  match bytes with
  | lo :: hi :: rest => unpack_h lo hi :: read_frames rest
  | _ => []
  end.

(** A generator returns, whatever random state it is entered with. *)
Definition total {R : Random} {A} (m : M A) : Prop :=
  forall g, exists a g', m g = Ok (a, g').

(** Two runs in a row return, and write the same buffer. *)
Definition repeatable {R : Random} {A} (m : M A) : Prop :=
  forall g, exists a g', run_twice m g = Ok ((a, a), g').

(** The alpha channel of a sprite under construction: opaque on the pixels
    of [inside], transparent on those of [outside], and nowhere partly
    transparent. *)
Definition alpha_map (inside outside : Z -> Z -> Prop) (img : image rgba)
    : Prop :=
  forall x y,
    (inside x y -> alpha (px img x y) = 255) /\
    (outside x y -> alpha (px img x y) = 0) /\
    (alpha (px img x y) = 0 \/ alpha (px img x y) = 255).

(** The silhouette of the barrel: the body, and the box around the body
    and the lid. *)
Definition barrel_body (x y : Z) : Prop := 4 <= x <= 27 /\ 6 <= y <= 44.
Definition barrel_hull (x y : Z) : Prop := 4 <= x <= 27 /\ 3 <= y <= 44.

(** The silhouette of the column: the shaft and the two caps. *)
Definition column_shape (x y : Z) : Prop :=
  (4 <= x <= 19 /\ 2 <= y <= 61) \/
  (2 <= x <= 21 /\ (0 <= y <= 4 \/ 60 <= y <= 63)).

(** The colours of the hazard stripe of the column. *)
Definition stripe_colour (x y : Z) : rgba :=
  if (x + (y - 32)) mod 4 <? 2 then (180, 150, 30, 255) else (40, 40, 45, 255).

(** The area the text rows of the terminal may cover. *)
Definition text_area (x y : Z) : Prop := 9 <= x <= 39 /\ 10 <= y <= 32.

(** ** A concrete generator to run the model on

    A linear congruential generator stands in for Python's Mersenne Twister
    wherever a property is evaluated on a concrete input; the properties
    themselves are proved for every [Random]. *)

Definition lcg_next (g : Z) : Z := (g * 1103515245 + 12345) mod 2147483648.

Definition lcg_randint (a b g : Z) : Z * Z :=
  let g' := lcg_next g in (a + (g' / 65536) mod (b - a + 1), g').

Definition lcg_uniform (a b : Q) (g : Z) : Q * Z :=
  let g' := lcg_next g in
  ((a + (b - a) * (inject_Z ((g' / 65536) mod 1000) / 1000))%Q, g').

Definition lcg_gauss (mu sigma : Q) (g : Z) : Q * Z :=
  let g' := lcg_next g in
  ((mu + (inject_Z ((g' / 65536) mod 2001 - 1000) / 500) * sigma)%Q, g').

(** The cubic Taylor polynomial of the sine, clipped to [-1, 1], stands in
    for [math.sin], and 355/113 for [math.pi]. *)
Definition taylor_sin (x : Q) : Q :=
  fmax (-1) (fmin 1 (x - x * x * x / 6))%Q.

(** [n] steps of the concrete generator at once: the pair [(A, C)] such
    that [n] applications of [lcg_next] map [g] to [(A * g + C) mod 2^31]. *)
Fixpoint lcg_jump (n : positive) : Z * Z :=
  match n with
  | xH => (1103515245, 12345)
  | xO n' =>
      let '(A, C) := lcg_jump n' in
      ((A * A) mod 2147483648, (A * C + C) mod 2147483648)
  | xI n' =>
      let '(A, C) := lcg_jump n' in
      let A2 := (A * A) mod 2147483648 in
      let C2 := (A * C + C) mod 2147483648 in
      ((1103515245 * A2) mod 2147483648,
       (1103515245 * C2 + 12345) mod 2147483648)
  end.

(** * Properties *)

(** ** Lists with Python indices *)

Lemma norm_index_nonneg {A} (l : list A) (i : Z) :
  0 <= i < Z.of_nat (length l) -> norm_index l i = Some (Z.to_nat i).
Proof.
  intros Hi. unfold norm_index.
  destruct (Z.leb_spec 0 i); [|lia].
  destruct (Z.ltb_spec i (Z.of_nat (length l))); [|lia].
  reflexivity.
Qed.

Lemma getitem_ok {A} (l : list A) (i : Z) (x : A) :
  0 <= i -> l !! Z.to_nat i = Some x -> getitem l i = Ok x.
Proof.
  intros Hi Hx. unfold getitem.
  rewrite norm_index_nonneg.
  - rewrite Hx. reflexivity.
  - apply lookup_lt_Some in Hx. lia.
Qed.

Lemma setitem_ok {A} (l : list A) (i : Z) (v : A) :
  0 <= i < Z.of_nat (length l) -> setitem l i v = Ok (<[Z.to_nat i := v]> l).
Proof.
  intros Hi. unfold setitem. rewrite norm_index_nonneg by assumption.
  reflexivity.
Qed.

Lemma add_at_ok (l : list Q) (i : Z) (x v : Q) :
  0 <= i -> l !! Z.to_nat i = Some x ->
  add_at l i v = Ok (<[Z.to_nat i := (x + v)%Q]> l).
Proof.
  intros Hi Hx. unfold add_at. rewrite (getitem_ok l i x) by assumption.
  apply setitem_ok. apply lookup_lt_Some in Hx. lia.
Qed.

(** ** Draws *)

Lemma random_randint_ok {R : Random} (a b : Z) (g : rng) :
  a <= b -> random_randint a b g = Ok (randint a b g).
Proof.
  intros H. unfold random_randint.
  destruct (Z.leb_spec a b); [reflexivity|lia].
Qed.

Lemma random_randint_empty {R : Random} (a b : Z) (g : rng) :
  b < a -> random_randint a b g = Raise ValueError.
Proof.
  intros H. unfold random_randint.
  destruct (Z.leb_spec a b); [lia|reflexivity].
Qed.

(** ** Loops *)

Section LoopRules.
Context {R : Random}.

(** Total-correctness rule for [for i in range(a, b)]: an invariant indexed
    by the loop counter that every pass re-establishes holds at exit, and
    the loop does not raise. *)
Lemma for_range_from_inv {St} (I : Z -> St -> rng -> Prop)
    (body : Z -> St -> M St) (n : nat) :
  forall (a : Z) (s : St) (g : rng),
    I a s g ->
    (forall i s g, a <= i < a + Z.of_nat n -> I i s g ->
       exists s' g', body i s g = Ok (s', g') /\ I (i + 1) s' g') ->
    exists s' g',
      for_ (range_from a n) body s g = Ok (s', g') /\ I (a + Z.of_nat n) s' g'.
Proof.
  induction n as [|n IH]; intros a s g H0 Hstep.
  - exists s, g. split; [reflexivity|]. now rewrite Z.add_0_r.
  - destruct (Hstep a s g) as (s1 & g1 & Hb & H1); [lia|assumption|].
    destruct (IH (a + 1) s1 g1 H1) as (s2 & g2 & Hl & H2).
    { intros i s' g' Hi. apply Hstep. lia. }
    exists s2, g2. split.
    + simpl. unfold bind. rewrite Hb. exact Hl.
    + replace (a + Z.of_nat (S n)) with (a + 1 + Z.of_nat n) by lia. exact H2.
Qed.

Lemma for_range_inv {St} (I : Z -> St -> rng -> Prop)
    (body : Z -> St -> M St) (a b : Z) (s : St) (g : rng) :
  a <= b ->
  I a s g ->
  (forall i s g, a <= i < b -> I i s g ->
     exists s' g', body i s g = Ok (s', g') /\ I (i + 1) s' g') ->
  exists s' g', for_ (range a b) body s g = Ok (s', g') /\ I b s' g'.
Proof.
  intros Hab H0 Hstep. unfold range.
  destruct (for_range_from_inv I body (Z.to_nat (b - a)) a s g H0)
    as (s' & g' & Hl & Hb).
  { intros i s1 g1 Hi. apply Hstep. lia. }
  exists s', g'. split; [exact Hl|].
  replace (a + Z.of_nat (Z.to_nat (b - a))) with b in Hb by lia. exact Hb.
Qed.

(** An empty or reversed range runs no pass. *)
Lemma for_range_empty {St} (body : Z -> St -> M St) (a b : Z) (s : St) (g : rng) :
  b <= a -> for_ (range a b) body s g = Ok (s, g).
Proof.
  intros Hab. unfold range. replace (Z.to_nat (b - a)) with O by lia.
  reflexivity.
Qed.

End LoopRules.

(** ** Crossfade and trim *)

Section AudioProps.
Context {R : Random} {L : MathLib}.

Lemma crossfade_correct (n fade : Z) (inp : list Q) (g : rng) :
  0 <= fade -> 2 * fade <= n -> Z.of_nat (length inp) = n ->
  exists out,
    crossfade n fade inp g = Ok (out, g) /\
    length out = length inp /\
    (forall i, 0 <= i < fade ->
       exists a b,
         inp !! Z.to_nat i = Some a /\
         inp !! Z.to_nat (n - fade + i) = Some b /\
         out !! Z.to_nat i = Some (crossfade_value fade i a b)) /\
    (forall k, (Z.to_nat fade <= k)%nat -> out !! k = inp !! k).
Proof.
  intros Hf Hn Hlen.
  pose (I := fun (i : Z) (s : list Q) (g' : rng) =>
    g' = g /\ length s = length inp /\
    (forall j, 0 <= j < i ->
       exists a b,
         inp !! Z.to_nat j = Some a /\
         inp !! Z.to_nat (n - fade + j) = Some b /\
         s !! Z.to_nat j = Some (crossfade_value fade j a b)) /\
    (forall k, (Z.to_nat i <= k)%nat -> s !! k = inp !! k)).
  destruct (for_range_inv I
    (fun i samples =>
       let t_fade := (inject_Z i / inject_Z fade)%Q in
       let* a := lift (getitem samples i) in
       let* b := lift (getitem samples (n - fade + i)) in
       lift (setitem samples i (a * t_fade + b * (1 - t_fade))%Q))
    0 fade inp g) as (out & g' & Hrun & Hg & Hl & Hlo & Hhi).
  - lia.
  - repeat split; auto. intros j Hj. lia.
  - intros i s g1 Hi (-> & Hl & Hlo & Hhi).
    destruct (lookup_lt_is_Some_2 inp (Z.to_nat i)) as [a Ha]; [lia|].
    destruct (lookup_lt_is_Some_2 inp (Z.to_nat (n - fade + i))) as [b Hb];
      [lia|].
    exists (<[Z.to_nat i := crossfade_value fade i a b]> s), g.
    split.
    + unfold bind, lift.
      rewrite (getitem_ok s i a); [|lia|rewrite Hhi by lia; exact Ha].
      rewrite (getitem_ok s (n - fade + i) b);
        [|lia|rewrite Hhi by lia; exact Hb].
      rewrite setitem_ok by lia. reflexivity.
    + split; [reflexivity|]. split; [now rewrite length_insert|]. split.
      * intros j Hj. destruct (Z.eq_dec j i) as [->|Hne].
        -- exists a, b. repeat split; auto.
           apply list_lookup_insert_eq. lia.
        -- destruct (Hlo j) as (a' & b' & Ha' & Hb' & Hs); [lia|].
           exists a', b'. repeat split; auto.
           rewrite list_lookup_insert_ne by lia. exact Hs.
      * intros k Hk. rewrite list_lookup_insert_ne by lia. apply Hhi. lia.
  - exists out. subst g'. repeat split; auto.
Qed.

End AudioProps.

(** ** The layers of the sizzle *)

Lemma int_nonneg (q : Q) : (0 <= q)%Q -> 0 <= int q.
Proof.
  intros Hq. unfold int. apply Z.quot_pos; [|lia].
  unfold Qle in Hq. simpl in Hq. lia.
Qed.

Lemma Qltb_true (a b : Q) : Qltb a b = true <-> (a < b)%Q.
Proof.
  unfold Qltb. rewrite Qlt_alt. destruct (a ?= b)%Q; split; congruence.
Qed.

Lemma Qltb_false (a b : Q) : Qltb a b = false <-> (b <= a)%Q.
Proof.
  unfold Qltb. rewrite Qle_alt, <- (Qcompare_antisym a b).
  destruct (a ?= b)%Q; simpl; split; intros H; try congruence;
    exfalso; apply H; reflexivity.
Qed.

Section LayerProps.
Context {R : Random} {L : MathLib}.

Lemma brown_noise_correct (n : nat) (init : list Q) (g : rng) :
  length init = n ->
  exists out,
    brown_noise (Z.of_nat n) init g = Ok (out, gauss_state 0 0.02 n g) /\
    brown_layer_follows brown_step n init g out.
Proof.
  intros Hlen.
  pose (I := fun (i : Z) (st : Q * list Q) (g' : rng) =>
    g' = gauss_state 0 0.02 (Z.to_nat i) g /\
    fst st = brown_walk brown_step (gauss_draw 0 0.02 g) (Z.to_nat i) /\
    length (snd st) = n /\
    (forall k, (k < Z.to_nat i)%nat ->
       exists s, init !! k = Some s /\
         snd st !! k =
           Some (s + brown_walk brown_step (gauss_draw 0 0.02 g) (S k) * 0.4)%Q)
    /\ (forall k, (Z.to_nat i <= k)%nat -> snd st !! k = init !! k)).
  unfold brown_noise, bind at 1.
  match goal with
  | |- context [for_ _ ?body _ _] =>
      destruct (for_range_inv I body 0 (Z.of_nat n) (0%Q, init) g)
        as ([brown out] & g' & Hrun & Hg & _ & Hl & Hlo & _)
  end.
  - lia.
  - repeat split; auto. intros k Hk. simpl in Hk. lia.
  - intros i [brown s] g1 Hi (-> & Hb & Hl & Hlo & Hhi). simpl in *.
    destruct (lookup_lt_is_Some_2 init (Z.to_nat i)) as [x Hx]; [lia|].
    destruct (gauss 0 0.02 (gauss_state 0 0.02 (Z.to_nat i) g))
      as [d g2] eqn:Hd.
    exists (((brown + d) * 0.998)%Q,
            <[Z.to_nat i := (x + (brown + d) * 0.998 * 0.4)%Q]> s), g2.
    assert (Hsucc : Z.to_nat (i + 1) = S (Z.to_nat i)) by lia.
    assert (Hwalk : ((brown + d) * 0.998)%Q =
              brown_walk brown_step (gauss_draw 0 0.02 g) (S (Z.to_nat i))).
    { cbn [brown_walk]. rewrite <- Hb. unfold brown_step, gauss_draw.
      rewrite Hd. reflexivity. }
    split.
    + unfold bind, random_gauss, lift. rewrite Hd.
      rewrite (add_at_ok s i x); [reflexivity|lia|].
      rewrite Hhi by lia. exact Hx.
    + unfold I. cbn [fst snd]. rewrite Hsucc. cbn [gauss_state].
      rewrite Hd. cbn [snd].
      split; [reflexivity|]. split; [exact Hwalk|].
      split; [now rewrite length_insert|]. split.
      * intros k Hk. destruct (Nat.eq_dec k (Z.to_nat i)) as [->|Hne].
        -- exists x. split; [exact Hx|].
           rewrite list_lookup_insert_eq by lia. rewrite Hwalk. reflexivity.
        -- rewrite list_lookup_insert_ne by lia. apply Hlo. lia.
      * intros k Hk. rewrite list_lookup_insert_ne by lia. apply Hhi. lia.
  - rewrite Hrun. simpl in *. exists out. split.
    + unfold ret. rewrite Hg, Nat2Z.id. reflexivity.
    + split; [exact Hl|]. intros k Hk. apply Hlo. lia.
Qed.

End LayerProps.

(** ** The concrete generator is a [Random] *)

Lemma lcg_randint_range (a b g : Z) :
  a <= b -> a <= fst (lcg_randint a b g) <= b.
Proof.
  intros Hab. unfold lcg_randint. cbn [fst].
  pose proof (Z.mod_pos_bound (lcg_next g / 65536) (b - a + 1)). lia.
Qed.

Lemma lcg_uniform_range (a b : Q) (g : Z) :
  (a <= b)%Q ->
  (a <= fst (lcg_uniform a b g))%Q /\ (fst (lcg_uniform a b g) <= b)%Q.
Proof.
  intros Hab. unfold lcg_uniform. cbn [fst].
  set (m := (lcg_next g / 65536) mod 1000).
  assert (Hm : 0 <= m < 1000) by (apply Z.mod_pos_bound; lia).
  assert (H0 : (0 <= inject_Z m / 1000)%Q).
  { apply Qle_shift_div_l; [reflexivity|]. rewrite Qmult_0_l.
    change 0%Q with (inject_Z 0). rewrite <- Zle_Qle. lia. }
  assert (H1 : (inject_Z m / 1000 <= 1)%Q).
  { apply Qle_shift_div_r; [reflexivity|]. rewrite Qmult_1_l.
    change 1000%Q with (inject_Z 1000). rewrite <- Zle_Qle. lia. }
  split; nra.
Qed.

Definition lcg_random : Random := {|
  rng := Z;
  seed := fun k => k;
  randint := lcg_randint;
  uniform := lcg_uniform;
  gauss := lcg_gauss;
  randint_range := lcg_randint_range;
  uniform_range := lcg_uniform_range
|}.

Definition taylor_math : MathLib := {|
  sin := taylor_sin;
  pi := (355 # 113)%Q
|}.

(** ** Totality of the sizzle layers *)

Section SizzleTotal.
Context {R : Random} {L : MathLib}.

(** A loop that only adds to samples at valid indices keeps the length of
    the buffer and does not raise. *)
Lemma pop_burst_total (n pop_start pop_len : Z) (freq vol : Q)
    (samples : list Q) (g : rng) :
  0 <= pop_start -> Z.of_nat (length samples) = n ->
  exists out,
    pop_burst n pop_start pop_len freq vol samples g = Ok (out, g) /\
    Z.of_nat (length out) = n.
Proof.
  intros Hs Hlen. unfold pop_burst.
  destruct (Z.le_gt_cases 0 pop_len) as [Hp|Hp].
  2:{ exists samples. split; [|exact Hlen]. apply for_range_empty. lia. }
  match goal with
  | |- context [for_ _ ?body _ _] =>
      destruct (for_range_inv
        (fun (_ : Z) (s : list Q) (g' : rng) =>
           g' = g /\ Z.of_nat (length s) = n)
        body 0 pop_len samples g) as (out & g' & Hrun & -> & Hl)
  end.
  - exact Hp.
  - split; [reflexivity|exact Hlen].
  - intros j s g1 Hj (-> & Hl).
    destruct (Z.ltb_spec (pop_start + j) n) as [Hlt|Hge].
    + destruct (lookup_lt_is_Some_2 s (Z.to_nat (pop_start + j)))
        as [x Hx]; [lia|].
      eexists _, g. split.
      * unfold lift. rewrite (add_at_ok s _ x); [reflexivity|lia|exact Hx].
      * split; [reflexivity|]. rewrite length_insert. exact Hl.
    + exists s, g. split; [reflexivity|]. split; [reflexivity|exact Hl].
  - exists out. split; assumption.
Qed.

Lemma inject_Z_succ (k : nat) :
  (inject_Z (Z.of_nat (S k)) == inject_Z (Z.of_nat k) + 1)%Q.
Proof.
  rewrite Nat2Z.inj_succ. unfold Z.succ. rewrite inject_Z_plus. reflexivity.
Qed.

(** The [while t < duration] loop ends: each pass advances [t] by at least
    0.08, so [fuel] passes cover a remaining time of [0.08 * fuel]. *)
Lemma bubble_pops_total (n : Z) (duration : Q) (fuel : nat) :
  forall (t : Q) (samples : list Q) (g : rng),
    (0 <= t)%Q ->
    (duration - t <= 0.08 * inject_Z (Z.of_nat fuel))%Q ->
    Z.of_nat (length samples) = n ->
    exists out g',
      bubble_pops (S fuel) n duration t samples g = Ok (out, g') /\
      Z.of_nat (length out) = n.
Proof.
  induction fuel as [|fuel IH]; intros t samples g Ht Hfuel Hlen.
  - cbn [bubble_pops]. destruct (Qltb t duration) eqn:Hlt.
    + apply Qltb_true in Hlt.
      change (inject_Z (Z.of_nat 0)) with 0%Q in Hfuel. lra.
    + exists samples, g. split; [reflexivity|exact Hlen].
  - remember (S fuel) as f eqn:Hf. cbn [bubble_pops].
    destruct (Qltb t duration) eqn:Hlt.
    2:{ exists samples, g. split; [reflexivity|exact Hlen]. }
    unfold bind at 1, random_uniform at 1.
    destruct (uniform 0.08 0.3 g) as [u g1] eqn:Hu.
    pose proof (uniform_range 0.08 0.3 g) as Hur. rewrite Hu in Hur.
    cbn [fst] in Hur. destruct Hur as [Hu1 _]; [lra|].
    unfold bind at 1, random_uniform at 1.
    destruct (uniform 0.01 0.04 g1) as [u2 g2].
    unfold bind at 1, random_uniform at 1.
    destruct (uniform 300 800 g2) as [freq g3].
    unfold bind at 1, random_uniform at 1.
    destruct (uniform 0.05 0.15 g3) as [vol g4].
    unfold bind at 1.
    destruct (pop_burst_total n (int ((t + u) * inject_Z SAMPLE_RATE))
                (int (u2 * inject_Z SAMPLE_RATE)) freq vol samples g4)
      as (s1 & Hrun & Hl1).
    { apply int_nonneg. apply Qmult_le_0_compat; [lra|].
      unfold SAMPLE_RATE. unfold Qle. simpl. lia. }
    { exact Hlen. }
    rewrite Hrun. subst f. apply IH.
    + lra.
    + rewrite inject_Z_succ in Hfuel. lra.
    + exact Hl1.
Qed.

Lemma fizz_layer_total (n : Z) (samples : list Q) (g : rng) :
  Z.of_nat (length samples) = n ->
  exists out g',
    fizz_layer n samples g = Ok (out, g') /\ Z.of_nat (length out) = n.
Proof.
  intros Hlen. unfold fizz_layer.
  match goal with
  | |- context [for_ _ ?body _ _] =>
      destruct (for_range_inv
        (fun (_ : Z) (s : list Q) (_ : rng) => Z.of_nat (length s) = n)
        body 0 n samples g) as (out & g' & Hrun & Hl)
  end.
  - lia.
  - exact Hlen.
  - intros i s g1 Hi Hl. unfold bind, random_gauss.
    destruct (gauss 0 0.03 g1) as [d g2].
    destruct (lookup_lt_is_Some_2 s (Z.to_nat i)) as [x Hx]; [lia|].
    eexists _, g2. split.
    + unfold lift. rewrite (add_at_ok s i x); [reflexivity|lia|exact Hx].
    + rewrite length_insert. exact Hl.
  - exists out, g'. split; assumption.
Qed.

Lemma nukage_layers_total (g : rng) :
  exists out g',
    nukage_layers 3.0 66150 g = Ok (out, g') /\
    Z.of_nat (length out) = 66150.
Proof.
  unfold nukage_layers, bind at 1, random_seed.
  set (n := Z.to_nat 66150).
  destruct (brown_noise_correct n (replicate n 0%Q) (seed 1234))
    as (s1 & Hb & Hl1 & _); [apply length_replicate|].
  replace (Z.of_nat n) with 66150 in Hb by (subst n; lia).
  unfold bind at 1. rewrite Hb.
  destruct (bubble_pops_total 66150 3.0 38 0 s1
              (gauss_state 0 0.02 n (seed 1234)))
    as (s2 & g2 & Hp & Hl2).
  { apply Qle_refl. }
  { vm_compute. discriminate. }
  { rewrite Hl1. subst n. lia. }
  unfold bind at 1, pops_fuel. rewrite Hp.
  destruct (fizz_layer_total 66150 s2 g2 Hl2) as (s3 & g3 & Hf & Hl3).
  exists s3, g3. split; [exact Hf|exact Hl3].
Qed.

End SizzleTotal.

(** ** Clamping, quantisation and normalisation *)

Lemma fmax_cases (a b : Q) :
  (fmax a b = a /\ (b <= a)%Q) \/ (fmax a b = b /\ (a < b)%Q).
Proof.
  unfold fmax. destruct (Qcompare_spec b a) as [H|H|H].
  - left. split; [reflexivity|]. rewrite H. apply Qle_refl.
  - left. split; [reflexivity|]. apply Qlt_le_weak, H.
  - right. split; [reflexivity|exact H].
Qed.

Lemma fmin_cases (a b : Q) :
  (fmin a b = a /\ (a <= b)%Q) \/ (fmin a b = b /\ (b < a)%Q).
Proof.
  unfold fmin. destruct (Qcompare_spec b a) as [H|H|H].
  - left. split; [reflexivity|]. rewrite H. apply Qle_refl.
  - right. split; [reflexivity|exact H].
  - left. split; [reflexivity|]. apply Qlt_le_weak, H.
Qed.

Lemma clamp_sample_range (s : Q) :
  (-1 <= clamp_sample s)%Q /\ (clamp_sample s <= 1)%Q.
Proof.
  unfold clamp_sample.
  destruct (fmax_cases (-1.0) (fmin 1.0 s)) as [[-> H]|[-> H]];
    destruct (fmin_cases 1.0 s) as [[E H']|[E H']];
    rewrite ?E in *; split; lra.
Qed.

(** Inside the open interval the clamp returns its argument unchanged. *)
Lemma clamp_sample_id (s : Q) :
  (-1 < s)%Q -> (s < 1)%Q -> clamp_sample s = s.
Proof.
  intros Hlo Hhi. unfold clamp_sample.
  destruct (fmin_cases 1.0 s) as [[E H]|[E H]]; [lra|]. rewrite E.
  destruct (fmax_cases (-1.0) s) as [[E' H']|[E' H']]; [lra|exact E'].
Qed.

Lemma int_bounds (q : Q) (a b : Z) :
  (inject_Z a <= q)%Q -> (q <= inject_Z b)%Q -> a <= int q <= b.
Proof.
  destruct q as [n d]. unfold Qle, int. simpl. intros Ha Hb.
  pose proof (Z.quot_rem' n (Z.pos d)) as Hqr.
  destruct (Z.le_gt_cases 0 n) as [Hn|Hn].
  - pose proof (Z.rem_bound_pos_pos n (Z.pos d) ltac:(lia) Hn). nia.
  - pose proof (Z.rem_bound_pos_neg n (Z.pos d) ltac:(lia) ltac:(lia)). nia.
Qed.

Lemma quantize_range (s : Q) : -32767 <= quantize s <= 32767.
Proof.
  unfold quantize. destruct (clamp_sample_range s) as [Hlo Hhi].
  apply int_bounds.
  - change (inject_Z (-32767)) with (-32767)%Q. lra.
  - change (inject_Z 32767) with 32767%Q. lra.
Qed.

Lemma pack_h_ok (v : Z) :
  -32768 <= v <= 32767 -> pack_h v = Ok [v mod 256; (v / 256) mod 256].
Proof.
  intros Hv. unfold pack_h.
  destruct (Z.leb_spec (-32768) v); [|lia].
  destruct (Z.leb_spec v 32767); [|lia]. reflexivity.
Qed.

(** [write_wav] never raises: every frame fits the 16-bit format. *)
Lemma write_wav_ok (samples : list Q) :
  write_wav samples =
  Ok (flat_map (fun s => [quantize s mod 256; (quantize s / 256) mod 256])
        samples).
Proof.
  induction samples as [|s rest IH]; [reflexivity|].
  cbn [write_wav flat_map]. fold (quantize s).
  rewrite pack_h_ok by (pose proof (quantize_range s); lia).
  rewrite IH. reflexivity.
Qed.

(** The running maximum of [max()] over the absolute values. *)
Lemma fold_fmax_spec (rest : list Q) :
  forall m : Q,
    let p := fold_left (fun m x => fmax m (Qabs x)) rest m in
    (m <= p)%Q /\
    (forall x, In x rest -> (Qabs x <= p)%Q) /\
    (p = m \/ exists x, In x rest /\ p = Qabs x).
Proof.
  induction rest as [|y rest IH]; intros m; cbn [fold_left].
  - split; [apply Qle_refl|]. split; [intros x []|left; reflexivity].
  - destruct (IH (fmax m (Qabs y))) as (H1 & H2 & H3).
    destruct (fmax_cases m (Qabs y)) as [[E Hle]|[E Hlt]]; rewrite E in *.
    + split; [exact H1|]. split.
      * intros x [<-|Hx]; [lra|apply H2, Hx].
      * destruct H3 as [H3|(x & Hx & H3)]; [left; exact H3|].
        right. exists x. split; [right; exact Hx|exact H3].
    + split; [lra|]. split.
      * intros x [<-|Hx]; [exact H1|apply H2, Hx].
      * right. destruct H3 as [H3|(x & Hx & H3)].
        -- exists y. split; [left; reflexivity|exact H3].
        -- exists x. split; [right; exact Hx|exact H3].
Qed.

Lemma peak_abs_spec (samples : list Q) (peak : Q) :
  peak_abs samples = Ok peak ->
  (forall x, In x samples -> (Qabs x <= peak)%Q) /\
  (exists x, In x samples /\ peak = Qabs x).
Proof.
  destruct samples as [|s rest]; [discriminate|].
  cbn [peak_abs]. intros [= <-].
  destruct (fold_fmax_spec rest (Qabs s)) as (H1 & H2 & H3). split.
  - intros x [<-|Hx]; [exact H1|apply H2, Hx].
  - destruct H3 as [H3|(x & Hx & H3)].
    + exists s. split; [left; reflexivity|exact H3].
    + exists x. split; [right; exact Hx|exact H3].
Qed.

Lemma peak_abs_total (samples : list Q) :
  samples <> [] -> exists peak, peak_abs samples = Ok peak.
Proof.
  destruct samples as [|s rest]; [congruence|]. intros _.
  eexists. reflexivity.
Qed.

Lemma Qabs_scaled (s peak target : Q) :
  (0 < peak)%Q -> (0 <= target)%Q ->
  (Qabs (s / peak * target) == Qabs s / peak * target)%Q.
Proof.
  intros Hp Ht. unfold Qdiv.
  rewrite !Qabs_Qmult, Qabs_Qinv.
  rewrite (Qabs_pos peak) by lra. rewrite (Qabs_pos target) by lra.
  reflexivity.
Qed.

(** After the scaling every sample is within the target, and the sample
    that carried the peak sits exactly on it. *)
Lemma normalize_scaled (target : Q) (samples : list Q) (peak : Q) :
  (0 <= target)%Q ->
  peak_abs samples = Ok peak -> (0 < peak)%Q ->
  let out := map (fun s => (s / peak * target)%Q) samples in
  normalize target samples = Ok out /\
  (forall y, In y out -> (Qabs y <= target)%Q) /\
  exists p, peak_abs out = Ok p /\ (p == target)%Q.
Proof.
  intros Ht Hpeak Hpos out.
  destruct (peak_abs_spec samples peak Hpeak) as (Hall & x & Hx & Hxp).
  assert (Hbound : forall y, In y out -> (Qabs y <= target)%Q).
  { intros y Hy. apply in_map_iff in Hy. destruct Hy as (s & <- & Hs).
    rewrite Qabs_scaled by assumption.
    assert (Qabs s / peak <= 1)%Q.
    { apply Qle_shift_div_r; [exact Hpos|]. rewrite Qmult_1_l.
      apply Hall, Hs. }
    assert (0 <= Qabs s / peak)%Q.
    { apply Qle_shift_div_l; [exact Hpos|]. rewrite Qmult_0_l.
      apply Qabs_nonneg. }
    nra. }
  split.
  { unfold normalize. rewrite Hpeak.
    apply Qltb_true in Hpos. rewrite Hpos. reflexivity. }
  split; [exact Hbound|].
  destruct (peak_abs_total out) as [p Hp].
  { subst out. destruct samples; [destruct Hx|discriminate]. }
  exists p. split; [exact Hp|].
  destruct (peak_abs_spec out p Hp) as (Hall' & y & Hy & Hyp).
  apply Qle_antisym.
  - rewrite Hyp. apply Hbound, Hy.
  - assert (Hin : In (x / peak * target)%Q out).
    { apply in_map_iff. exists x. split; [reflexivity|exact Hx]. }
    apply Hall' in Hin. rewrite Qabs_scaled in Hin by assumption.
    rewrite <- Hxp in Hin.
    assert (peak / peak == 1)%Q by (field; lra).
    rewrite H in Hin. lra.
Qed.

(** With a peak that is not positive the buffer is returned as it is, and
    all its samples are zero. *)
Lemma normalize_skipped (target : Q) (samples : list Q) (peak : Q) :
  peak_abs samples = Ok peak -> ~ (0 < peak)%Q ->
  normalize target samples = Ok samples /\
  forall y, In y samples -> (y == 0)%Q.
Proof.
  intros Hpeak Hnp. split.
  - unfold normalize. rewrite Hpeak.
    destruct (Qltb 0 peak) eqn:E; [|reflexivity].
    apply Qltb_true in E. contradiction.
  - intros y Hy. destruct (peak_abs_spec samples peak Hpeak) as (Hall & _).
    specialize (Hall y Hy). pose proof (Qabs_nonneg y).
    assert (Qabs y == 0)%Q by lra.
    revert H0. apply Qabs_case; intros; lra.
Qed.

(** ** The hum loop *)

Section HumProps.
Context {R : Random} {L : MathLib}.

Lemma setitem_middle {A} (pre rest : list A) (x v : A) (i : Z) :
  Z.of_nat (length pre) = i ->
  setitem (pre ++ x :: rest) i v = Ok (pre ++ v :: rest).
Proof.
  intros Hi. rewrite setitem_ok.
  - rewrite insert_app_r_alt by lia.
    replace (Z.to_nat i - length pre)%nat with O by lia. reflexivity.
  - rewrite length_app. cbn [length]. lia.
Qed.

Lemma hum_loop_stream (m : nat) :
  forall (i : Z) (pre rest : list Q) (g : rng),
    Z.of_nat (length pre) = i -> length rest = m ->
    for_ (range_from i m)
      (fun i samples =>
         let s := hum_wave i in
         let* d := random_gauss 0 0.005 in
         let s := (s + d)%Q in
         lift (setitem samples i s))
      (pre ++ rest) g
    = Ok (pre ++ fst (hum_stream i m g), snd (hum_stream i m g)).
Proof.
  induction m as [|m IH]; intros i pre rest g Hpre Hrest.
  - destruct rest; [|discriminate]. reflexivity.
  - destruct rest as [|x rest]; [discriminate|].
    cbn [range_from for_ hum_stream]. unfold bind at 1.
    unfold bind at 1, random_gauss at 1.
    destruct (gauss 0 0.005 g) as [d g1].
    unfold lift. rewrite (setitem_middle pre rest x _ i Hpre).
    destruct (hum_stream (i + 1) m g1) as [tl g2] eqn:Hs.
    replace (pre ++ (hum_wave i + d)%Q :: rest)
      with ((pre ++ [(hum_wave i + d)%Q]) ++ rest)
      by (rewrite <- app_assoc; reflexivity).
    rewrite IH.
    + rewrite Hs. cbn [fst snd]. rewrite <- app_assoc. reflexivity.
    + rewrite length_app. cbn [length]. lia.
    + injection Hrest as Hrest. exact Hrest.
Qed.

(** The loop of [gen_computer_hum] stores the stream of samples. *)
Lemma hum_raw_stream (g : rng) :
  hum_raw g = Ok (hum_stream 0 (Z.to_nat 44100) g).
Proof.
  unfold hum_raw, hum_layer, range.
  change (int (inject_Z SAMPLE_RATE * 2.0)) with 44100.
  rewrite Z.sub_0_r.
  pose proof (hum_loop_stream (Z.to_nat 44100) 0 []
                (replicate (Z.to_nat 44100) 0%Q) g eq_refl
                (length_replicate _ _)) as H.
  cbn [app] in H. rewrite H.
  destruct (hum_stream 0 (Z.to_nat 44100) g). reflexivity.
Qed.

Lemma hum_stream_length (n : nat) :
  forall (i : Z) (g : rng), length (fst (hum_stream i n g)) = n.
Proof.
  induction n as [|n IH]; intros i g; [reflexivity|].
  cbn [hum_stream]. destruct (gauss 0 0.005 g) as [d g1].
  specialize (IH (i + 1) g1).
  destruct (hum_stream (i + 1) n g1) as [tl g2]. cbn [fst length] in *.
  now rewrite IH.
Qed.

End HumProps.

(** ** gen_nukage_sizzle and gen_computer_hum, end to end *)

Section AudioClaims.
Context {R : Random} {L : MathLib}.

Lemma nukage_faded_correct (g : rng) :
  exists layered g1 out,
    nukage_layers 3.0 66150 g = Ok (layered, g1) /\
    Z.of_nat (length layered) = 66150 /\
    nukage_faded g = Ok (out, g1) /\
    Z.of_nat (length out) = 65048 /\
    (forall i, 0 <= i < 1102 ->
       exists a b,
         layered !! Z.to_nat i = Some a /\
         layered !! Z.to_nat (66150 - 1102 + i) = Some b /\
         out !! Z.to_nat i = Some (crossfade_value 1102 i a b)) /\
    (forall i, 1102 <= i < 65048 ->
       out !! Z.to_nat i = layered !! Z.to_nat i).
Proof.
  destruct (nukage_layers_total g) as (layered & g1 & Hlay & Hlen).
  destruct (crossfade_correct 66150 1102 layered g1)
    as (faded & Hcf & Hl & Hlo & Hhi); [lia|lia|exact Hlen|].
  exists layered, g1, (take (Z.to_nat 65048) faded).
  split; [exact Hlay|]. split; [exact Hlen|]. split.
  { unfold nukage_faded.
    change (int (inject_Z SAMPLE_RATE * 3.0)) with 66150.
    change (int (0.05 * inject_Z SAMPLE_RATE)) with 1102.
    unfold bind at 1. rewrite Hlay. unfold bind at 1. rewrite Hcf.
    reflexivity. }
  split.
  { rewrite length_take. lia. }
  split.
  - intros i Hi. destruct (Hlo i Hi) as (a & b & Ha & Hb & Ho).
    exists a, b. repeat split; auto.
    rewrite lookup_take_lt by lia. exact Ho.
  - intros i Hi. rewrite lookup_take_lt by lia. apply Hhi. lia.
Qed.

(** What the code's [max(abs(s) for s in samples)] returns is the maximum
    absolute value of the buffer. *)
Lemma peak_abs_max_abs_is (samples : list Q) (peak : Q) :
  peak_abs samples = Ok peak -> max_abs_is samples peak.
Proof.
  intros H. destruct (peak_abs_spec samples peak H) as (Hall & x & Hx & ->).
  split; [exact Hall|]. exists x. split; [exact Hx|reflexivity].
Qed.

Lemma normalize_normalized_to (target : Q) (pre : list Q) :
  (0 <= target)%Q -> pre <> [] ->
  exists out, normalize target pre = Ok out /\ normalized_to target pre out /\
    forall y, In y out -> (Qabs y <= target)%Q.
Proof.
  intros Ht Hne. destruct (peak_abs_total pre Hne) as [peak Hpeak].
  pose proof (peak_abs_max_abs_is pre peak Hpeak) as Hmax.
  destruct (Qlt_le_dec 0 peak) as [Hpos|Hnp].
  - destruct (normalize_scaled target pre peak Ht Hpeak Hpos)
      as (Hn & Hb & p & Hp & Hpt).
    eexists. split; [exact Hn|]. split; [|exact Hb].
    exists peak. split; [exact Hmax|]. split.
    + intros _. split; [reflexivity|].
      destruct (peak_abs_max_abs_is _ p Hp) as (_ & y & Hy & Hyp).
      split; [exact Hb|]. exists y. split; [exact Hy|].
      rewrite Hyp. exact Hpt.
    + intros Hc. lra.
  - assert (Hnp' : ~ (0 < peak)%Q) by (intros Hc; lra).
    destruct (normalize_skipped target pre peak Hpeak Hnp') as (Hn & Hz).
    exists pre. split; [exact Hn|]. split.
    + exists peak. split; [exact Hmax|]. split; [|reflexivity].
      intros Hc. exfalso. apply Hc.
      destruct Hmax as (_ & x & _ & Hx). pose proof (Qabs_nonneg x). lra.
    + intros y Hy. rewrite (Qabs_wd _ _ (Hz y Hy)). exact Ht.
Qed.

Lemma nonempty_of_length {A} (l : list A) (n : Z) :
  Z.of_nat (length l) = n -> 0 < n -> l <> [].
Proof. intros Hl Hn ->. cbn in Hl. lia. Qed.

Lemma nukage_sizzle_samples_correct (g : rng) :
  exists pre g1 out,
    nukage_faded g = Ok (pre, g1) /\
    nukage_sizzle_samples g = Ok (out, g1) /\
    normalized_to 0.7 pre out /\
    forall y, In y out -> (Qabs y <= 0.7)%Q.
Proof.
  destruct (nukage_faded_correct g)
    as (layered & g1 & pre & _ & _ & Hf & Hlen & _).
  destruct (normalize_normalized_to 0.7 pre) as (out & Hn & Hnt & Hb).
  { lra. }
  { apply (nonempty_of_length pre 65048 Hlen). lia. }
  exists pre, g1, out. split; [exact Hf|]. split; [|split; assumption].
  unfold nukage_sizzle_samples, bind. rewrite Hf. unfold lift.
  rewrite Hn. reflexivity.
Qed.

Lemma computer_hum_samples_correct (g : rng) :
  exists pre g1 out,
    hum_raw g = Ok (pre, g1) /\
    computer_hum_samples g = Ok (out, g1) /\
    normalized_to 0.6 pre out /\
    forall y, In y out -> (Qabs y <= 0.6)%Q.
Proof.
  pose proof (hum_raw_stream g) as Hraw.
  pose proof (hum_stream_length (Z.to_nat 44100) 0 g) as Hlen.
  destruct (hum_stream 0 (Z.to_nat 44100) g) as [pre g1]. cbn [fst] in Hlen.
  destruct (normalize_normalized_to 0.6 pre) as (out & Hn & Hnt & Hb).
  { lra. }
  { apply (nonempty_of_length pre 44100); lia. }
  exists pre, g1, out. split; [exact Hraw|]. split; [|split; assumption].
  unfold computer_hum_samples, bind. rewrite Hraw. unfold lift.
  rewrite Hn. reflexivity.
Qed.

End AudioClaims.

(** ** Loops over the pixels of an image *)

Section PixelLoopRules.
Context {R : Random} {P : Type}.

(** A loop whose passes own disjoint sets of pixels updates every owned
    pixel exactly once and leaves the rest of the image alone. *)
Lemma for_owned (K : Z -> Z -> Z -> Prop) (V : Z -> Z -> P -> P -> Prop)
    (body : Z -> image P -> M (image P)) (a0 a1 : Z) (img : image P)
    (g : rng) :
  (forall i, a0 <= i < a1 -> step_owned K V body i) ->
  (forall i j x y, K i x y -> K j x y -> i = j) ->
  exists img' g',
    for_ (range a0 a1) body img g = Ok (img', g') /\
    width img' = width img /\ height img' = height img /\
    (forall i x y, a0 <= i < a1 -> K i x y ->
       V x y (px img x y) (px img' x y)) /\
    (forall x y, (forall i, a0 <= i < a1 -> ~ K i x y) ->
       px img' x y = px img x y).
Proof.
  intros Hstep Hdisj.
  destruct (Z.le_gt_cases a0 a1) as [Hle|Hgt].
  2:{ exists img, g. rewrite for_range_empty by lia.
      repeat split; auto. intros i x y Hi. lia. }
  pose (I := fun (i : Z) (cur : image P) (_ : rng) =>
    width cur = width img /\ height cur = height img /\
    (forall j x y, a0 <= j < i -> K j x y ->
       V x y (px img x y) (px cur x y)) /\
    (forall x y, (forall j, a0 <= j < i -> ~ K j x y) ->
       px cur x y = px img x y)).
  destruct (for_range_inv I body a0 a1 img g Hle)
    as (img' & g' & Hrun & Hw & Hh & Hown & Hrest).
  - repeat split; auto. intros j x y Hj. lia.
  - intros i cur g1 Hi (Hw & Hh & Hown & Hrest).
    destruct (Hstep i Hi cur g1) as (cur' & g2 & Hb & Hw' & Hh' & Hk & Hnk).
    exists cur', g2. split; [exact Hb|].
    split; [congruence|]. split; [congruence|]. split.
    + intros j x y Hj HK. destruct (Z.eq_dec j i) as [->|Hne].
      * rewrite <- (Hrest x y); [apply Hk, HK|].
        intros j' Hj' HK'. specialize (Hdisj _ _ _ _ HK HK'). lia.
      * rewrite Hnk; [apply (Hown j); [lia|exact HK]|].
        intros HK'. apply Hne. exact (Hdisj _ _ _ _ HK HK').
    + intros x y Hno. rewrite Hnk by (apply Hno; lia).
      apply Hrest. intros j Hj. apply Hno. lia.
  - exists img', g'. repeat split; auto.
Qed.

(** Two nested loops whose pass [(a, b)] owns the single pixel [at_ a b]. *)
Lemma for2_owned (at_ : Z -> Z -> Z * Z) (U : Z -> Z -> P -> P -> Prop)
    (body : Z -> Z -> image P -> M (image P)) (a0 a1 b0 b1 : Z)
    (img : image P) (g : rng) :
  (forall a b a' b', at_ a b = at_ a' b' -> a = a' /\ b = b') ->
  (forall a, a0 <= a < a1 -> forall b, b0 <= b < b1 ->
     step_owned (fun b x y => at_ a b = (x, y)) U (body a) b) ->
  exists img' g',
    for2 a0 a1 b0 b1 body img g = Ok (img', g') /\
    width img' = width img /\ height img' = height img /\
    (forall a b, a0 <= a < a1 -> b0 <= b < b1 ->
       U (fst (at_ a b)) (snd (at_ a b))
         (px img (fst (at_ a b)) (snd (at_ a b)))
         (px img' (fst (at_ a b)) (snd (at_ a b)))) /\
    (forall x y,
       (forall a b, a0 <= a < a1 -> b0 <= b < b1 -> at_ a b <> (x, y)) ->
       px img' x y = px img x y).
Proof.
  intros Hinj Hstep. unfold for2.
  destruct (for_owned
    (fun a x y => exists b, b0 <= b < b1 /\ at_ a b = (x, y)) U
    (fun a s => for_ (range b0 b1) (body a) s) a0 a1 img g)
    as (img' & g' & Hrun & Hw & Hh & Hown & Hrest).
  - intros a Ha cur g1.
    destruct (for_owned (fun b x y => at_ a b = (x, y)) U (body a)
                b0 b1 cur g1) as (cur' & g2 & Hr & Hw & Hh & Ho & Hn).
    + intros b Hb. apply Hstep; assumption.
    + intros i j x y Hi Hj. rewrite <- Hj in Hi. apply Hinj in Hi. tauto.
    + exists cur', g2. repeat split; auto.
      * intros x y (b & Hb & Hat). apply (Ho b); assumption.
      * intros x y Hno. apply Hn. intros b Hb Hat. apply Hno.
        exists b. split; assumption.
  - intros i j x y (b & _ & Hi) (b' & _ & Hj).
    rewrite <- Hj in Hi. apply Hinj in Hi. tauto.
  - exists img', g'. repeat split; auto.
    + intros a b Ha Hb. apply (Hown a); [exact Ha|].
      exists b. split; [exact Hb|]. destruct (at_ a b); reflexivity.
    + intros x y Hno. apply Hrest. intros a Ha (b & Hb & Hat).
      exact (Hno a b Ha Hb Hat).
Qed.

(** A loop whose passes keep an invariant of the image keeps it. *)
Lemma for2_inv (I : image P -> Prop)
    (body : Z -> Z -> image P -> M (image P)) (a0 a1 b0 b1 : Z)
    (img : image P) (g : rng) :
  I img ->
  (forall a b cur g1, a0 <= a < a1 -> b0 <= b < b1 -> I cur ->
     exists cur' g2, body a b cur g1 = Ok (cur', g2) /\ I cur') ->
  exists img' g', for2 a0 a1 b0 b1 body img g = Ok (img', g') /\ I img'.
Proof.
  intros H0 Hstep. unfold for2.
  assert (Hrow : forall a cur g1, a0 <= a < a1 -> I cur ->
            exists cur' g2,
              for_ (range b0 b1) (body a) cur g1 = Ok (cur', g2) /\ I cur').
  { intros a cur g1 Ha Hc.
    destruct (Z.le_gt_cases b0 b1) as [Hle|Hgt].
    2:{ exists cur, g1. rewrite for_range_empty by lia. auto. }
    apply (for_range_inv (fun _ c _ => I c)); [exact Hle|exact Hc|].
    intros b c g2 Hb Hi. apply Hstep; assumption. }
  destruct (Z.le_gt_cases a0 a1) as [Hle|Hgt].
  2:{ exists img, g. rewrite for_range_empty by lia. auto. }
  apply (for_range_inv (fun _ c _ => I c)); [exact Hle|exact H0|].
  intros a c g2 Ha Hi. apply Hrow; assumption.
Qed.

End PixelLoopRules.

(** ** Pixel access *)

Lemma px_putpixel_eq {P} (img : image P) (x y : Z) (c : P) :
  px (putpixel img x y c) x y = c.
Proof. cbn. now rewrite !Z.eqb_refl. Qed.

Lemma px_putpixel_ne {P} (img : image P) (x y x' y' : Z) (c : P) :
  (x, y) <> (x', y') -> px (putpixel img x y c) x' y' = px img x' y'.
Proof.
  intros Hne. cbn.
  destruct (Z.eqb_spec x' x) as [->|]; [|reflexivity].
  destruct (Z.eqb_spec y' y) as [->|]; [|reflexivity].
  congruence.
Qed.

Lemma px_paint_out {P} (mask : Z -> Z -> bool) (c : P) (img : image P)
    (x y : Z) :
  mask x y = false -> px (paint mask c img) x y = px img x y.
Proof. intros H. cbn. rewrite H, andb_false_r. reflexivity. Qed.

Lemma px_paint_in {P} (mask : Z -> Z -> bool) (c : P) (img : image P)
    (x y : Z) :
  in_canvas img x y = true -> mask x y = true ->
  px (paint mask c img) x y = c.
Proof. intros H1 H2. cbn. rewrite H1, H2. reflexivity. Qed.

Lemma px_paint_cases {P} (mask : Z -> Z -> bool) (c : P) (img : image P)
    (x y : Z) :
  px (paint mask c img) x y = c \/
  px (paint mask c img) x y = px img x y.
Proof. cbn. destruct (in_canvas img x y && mask x y); auto. Qed.

Lemma not_in_box (b : box) (x y : Z) (m : box -> Z -> Z -> bool) :
  (forall x y, m b x y = true -> in_box b x y = true) ->
  in_box b x y = false -> m b x y = false.
Proof.
  intros Hin Hout. destruct (m b x y) eqn:E; [|reflexivity].
  apply Hin in E. congruence.
Qed.

(** ** Computations that leave the random state alone *)

Section Pure.
Context {R : Random}.

Lemma pure_ret {A} (a : A) : pure_ (ret a).
Proof. exists a. reflexivity. Qed.

Lemma pure_bind {A B} (m : M A) (k : A -> M B) :
  pure_ m -> (forall a, pure_ (k a)) -> pure_ (bind m k).
Proof.
  intros [a Ha] Hk. destruct (Hk a) as [b Hb]. exists b. intros g.
  unfold bind. rewrite Ha. apply Hb.
Qed.

Lemma pure_for {A St} (body : A -> St -> M St) (l : list A) :
  (forall i s, pure_ (body i s)) -> forall s, pure_ (for_ l body s).
Proof.
  intros Hb. induction l as [|i l IH]; intros s; cbn [for_].
  - apply pure_ret.
  - apply pure_bind; [apply Hb|exact IH].
Qed.

Lemma pure_for2 {St} (body : Z -> Z -> St -> M St) (a0 a1 b0 b1 : Z) :
  (forall a b s, pure_ (body a b s)) ->
  forall s, pure_ (for2 a0 a1 b0 b1 body s).
Proof.
  intros Hb s. unfold for2. apply pure_for. intros a s'.
  apply pure_for. intros b s''. apply Hb.
Qed.

(** Determinism of the usual shapes of generator. *)
Lemma blind_seed {A} (k : Z) (f : unit -> M A) :
  state_blind (bind (random_seed k) f).
Proof. intros g1 g2. reflexivity. Qed.

Lemma blind_bind {A B} (m : M A) (f : A -> M B) :
  state_blind m -> state_blind (bind m f).
Proof. intros H g1 g2. unfold bind. now rewrite (H g1 g2). Qed.

Lemma blind_pure_seed {A B} (m : M A) (k : Z) (f : A -> unit -> M B) :
  pure_ m -> state_blind (bind m (fun a => bind (random_seed k) (f a))).
Proof.
  intros [a Ha] g1 g2. unfold bind. rewrite !Ha. reflexivity.
Qed.

Lemma blind_deterministic {A} (m : M A) :
  state_blind m -> deterministic m.
Proof. intros H g1 g2. now rewrite (H g1 g2). Qed.

End Pure.

(** ** The passes of the sprite generators *)

Lemma in_canvas_paint {P} (mask : Z -> Z -> bool) (c : P) (img : image P)
    (x y : Z) :
  in_canvas (paint mask c img) x y = in_canvas img x y.
Proof. reflexivity. Qed.

Lemma in_canvas_size {P} (img : image P) (w h x y : Z) :
  width img = w -> height img = h ->
  0 <= x < w -> 0 <= y < h -> in_canvas img x y = true.
Proof.
  intros <- <- Hx Hy. unfold in_canvas.
  destruct (Z.leb_spec 0 x); [|lia].
  destruct (Z.ltb_spec x (width img)); [|lia].
  destruct (Z.leb_spec 0 y); [|lia].
  destruct (Z.ltb_spec y (height img)); [|lia]. reflexivity.
Qed.

Section SpritePasses.
Context {R : Random}.

Lemma sprite_noise_step (k y x : Z) :
  0 <= k ->
  step_owned (fun x x' y' => (x, y) = (x', y')) (fun _ _ => noised k)
    (sprite_noise_pixel k y) x.
Proof.
  intros Hk img g. unfold sprite_noise_pixel, getpixel.
  destruct (px img x y) as [[[r gr] b] a] eqn:Hp.
  destruct (Z.gtb_spec a 0) as [Ha|Ha].
  - unfold bind. rewrite random_randint_ok by lia.
    pose proof (randint_range (- k) k g ltac:(lia)) as Hv.
    destruct (randint (- k) k g) as [v g']. cbn [fst] in Hv.
    eexists _, g'. split; [reflexivity|].
    split; [reflexivity|]. split; [reflexivity|]. split.
    + intros x' y' [= <- <-]. rewrite px_putpixel_eq, Hp. right.
      split; [lia|]. exists v. split; [exact Hv|reflexivity].
    + intros x' y' Hne. apply px_putpixel_ne. exact Hne.
  - exists img, g. split; [reflexivity|].
    split; [reflexivity|]. split; [reflexivity|]. split.
    + intros x' y' [= <- <-]. rewrite Hp. left. split; [lia|reflexivity].
    + reflexivity.
Qed.

Lemma barrel_shade_step (l r x y : Z) :
  step_owned (fun y x' y' => (x, y) = (x', y'))
    (fun x _ => shaded (barrel_shade l r x) true)
    (barrel_shade_pixel l r x) y.
Proof.
  intros img g. unfold barrel_shade_pixel, getpixel.
  destruct (px img x y) as [[[cr cg] cb] a] eqn:Hp.
  destruct (Z.gtb_spec a 0) as [Ha|Ha].
  - eexists _, g. split; [reflexivity|].
    split; [reflexivity|]. split; [reflexivity|]. split.
    + intros x' y' [= <- <-]. rewrite px_putpixel_eq, Hp. right.
      split; [lia|reflexivity].
    + intros x' y' Hne. apply px_putpixel_ne. exact Hne.
  - exists img, g. split; [reflexivity|].
    split; [reflexivity|]. split; [reflexivity|]. split.
    + intros x' y' [= <- <-]. rewrite Hp. left. split; [lia|reflexivity].
    + reflexivity.
Qed.

Lemma column_shade_step (l r y x : Z) :
  step_owned (fun x x' y' => (x, y) = (x', y'))
    (fun x _ => shaded (column_shade l r x) false)
    (column_shade_pixel l r y) x.
Proof.
  intros img g. unfold column_shade_pixel, getpixel.
  destruct (px img x y) as [[[cr cg] cb] a] eqn:Hp.
  destruct (Z.gtb_spec a 0) as [Ha|Ha].
  - eexists _, g. split; [reflexivity|].
    split; [reflexivity|]. split; [reflexivity|]. split.
    + intros x' y' [= <- <-]. rewrite px_putpixel_eq, Hp. right.
      split; [lia|reflexivity].
    + intros x' y' Hne. apply px_putpixel_ne. exact Hne.
  - exists img, g. split; [reflexivity|].
    split; [reflexivity|]. split; [reflexivity|]. split.
    + intros x' y' [= <- <-]. rewrite Hp. left. split; [lia|reflexivity].
    + reflexivity.
Qed.

Lemma noised_transparent (k : Z) (p p' : rgba) :
  noised k p p' -> alpha p = 0 -> p' = p.
Proof.
  destruct p as [[[r g] b] a]. cbn. intros [[_ H]|[H _]] Ha; [exact H|lia].
Qed.

Lemma shaded_transparent (s : Z) (h : bool) (p p' : rgba) :
  shaded s h p p' -> alpha p = 0 -> p' = p.
Proof.
  destruct p as [[[r g] b] a]. cbn. intros [[_ H]|[H _]] Ha; [exact H|lia].
Qed.

Lemma noised_alpha (k : Z) (p p' : rgba) :
  noised k p p' -> alpha p' = alpha p.
Proof.
  destruct p as [[[r g] b] a]. cbn.
  intros [[_ ->]|[_ (v & _ & ->)]]; reflexivity.
Qed.

Lemma shaded_alpha (s : Z) (h : bool) (p p' : rgba) :
  shaded s h p p' -> alpha p' = alpha p.
Proof.
  destruct p as [[[r g] b] a]. cbn. intros [[_ ->]|[_ ->]]; reflexivity.
Qed.

(** The noise pass over a [w] by [h] canvas: every pixel of the canvas is
    [noised] once, nothing else changes. *)
Lemma sprite_noise_pass (k w h : Z) (img : image rgba) (g : rng) :
  0 <= k ->
  exists img' g',
    for2 0 h 0 w (sprite_noise_pixel k) img g = Ok (img', g') /\
    width img' = width img /\ height img' = height img /\
    (forall x y, 0 <= x < w -> 0 <= y < h ->
       noised k (px img x y) (px img' x y)) /\
    (forall x y, ~ (0 <= x < w /\ 0 <= y < h) ->
       px img' x y = px img x y).
Proof.
  intros Hk.
  destruct (for2_owned (fun y x => (x, y)) (fun _ _ => noised k)
              (sprite_noise_pixel k) 0 h 0 w img g)
    as (img' & g' & Hrun & Hw & Hh & Hown & Hrest).
  - intros a b a' b' [= -> ->]. auto.
  - intros y Hy x Hx. apply sprite_noise_step, Hk.
  - exists img', g'. repeat split; auto.
    + intros x y Hx Hy. apply (Hown y x Hy Hx).
    + intros x y Hout. apply Hrest. intros a b Ha Hb [= <- <-].
      apply Hout. lia.
Qed.

(** A pass that is [noised] or [shaded] on its pixels never changes a
    transparent pixel. *)
Lemma sprite_noise_pass_transparent (k w h : Z) (img : image rgba)
    (g : rng) :
  0 <= k ->
  exists img' g',
    for2 0 h 0 w (sprite_noise_pixel k) img g = Ok (img', g') /\
    (forall x y, alpha (px img' x y) = alpha (px img x y)) /\
    (forall x y, alpha (px img x y) = 0 -> px img' x y = px img x y).
Proof.
  intros Hk.
  destruct (sprite_noise_pass k w h img g Hk)
    as (img' & g' & Hrun & _ & _ & Hown & Hrest).
  exists img', g'. split; [exact Hrun|].
  assert (Hc : forall x y,
            (0 <= x < w /\ 0 <= y < h) \/ ~ (0 <= x < w /\ 0 <= y < h))
    by (intros; lia).
  split; intros x y; destruct (Hc x y) as [[Hx Hy]|Hout].
  - apply (noised_alpha k), Hown; assumption.
  - now rewrite Hrest.
  - intros Ha. apply (noised_transparent k); [apply Hown|]; assumption.
  - intros _. now apply Hrest.
Qed.

End SpritePasses.

(** ** Checking a property on every index of a range *)

Lemma range_from_In (n : nat) :
  forall a x, In x (range_from a n) <-> a <= x < a + Z.of_nat n.
Proof.
  induction n as [|n IH]; intros a x; cbn [range_from In].
  - lia.
  - rewrite IH. lia.
Qed.

Lemma range_In (a b x : Z) : In x (range a b) <-> a <= x < b.
Proof. unfold range. rewrite range_from_In. lia. Qed.

Lemma forallb_range (f : Z -> bool) (a b : Z) :
  forallb f (range a b) = true -> forall x, a <= x < b -> f x = true.
Proof.
  intros H x Hx. rewrite forallb_forall in H. apply H, range_In, Hx.
Qed.

Lemma barrel_shade_range (x : Z) :
  4 <= x <= 27 -> 0 <= barrel_shade 4 27 x <= 20.
Proof.
  intros Hx.
  pose proof (forallb_range
    (fun x => (0 <=? barrel_shade 4 27 x) && (barrel_shade 4 27 x <=? 20))
    4 28 eq_refl x ltac:(lia)) as H.
  cbv beta in H. apply andb_true_iff in H. lia.
Qed.

Lemma column_shade_range (x : Z) :
  4 <= x <= 19 -> 0 <= column_shade 4 19 x <= 25.
Proof.
  intros Hx.
  pose proof (forallb_range
    (fun x => (0 <=? column_shade 4 19 x) && (column_shade 4 19 x <=? 25))
    4 20 eq_refl x ltac:(lia)) as H.
  cbv beta in H. apply andb_true_iff in H. lia.
Qed.

(** ** Channel ranges *)

Lemma noised_ok (k : Z) (p p' : rgba) :
  noised k p p' -> rgba_ok p -> rgba_ok p'.
Proof.
  destruct p as [[[r g] b] a]. unfold noised, rgba_ok, channel_ok.
  intros [[_ ->]|[_ (v & _ & ->)]] H; [exact H|]. lia.
Qed.

Lemma shaded_ok (s : Z) (h : bool) (p p' : rgba) :
  shaded s h p p' -> 0 <= s -> rgba_ok p -> rgba_ok p'.
Proof.
  destruct p as [[[r g] b] a]. unfold shaded, rgba_ok, channel_ok.
  intros [[_ ->]|[_ ->]] Hs H; [exact H|].
  assert (0 <= s / 2) by (apply Z.div_pos; lia).
  destruct h; lia.
Qed.

Lemma paint_ok {P} (Q : P -> Prop) (mask : Z -> Z -> bool) (c : P)
    (img : image P) :
  Q c -> (forall x y, Q (px img x y)) ->
  forall x y, Q (px (paint mask c img) x y).
Proof.
  intros Hc Hi x y. destruct (px_paint_cases mask c img x y) as [->| ->];
    auto.
Qed.

Lemma fold_left_ok {P A} (Q : P -> Prop) (f : image P -> A -> image P)
    (l : list A) :
  (forall img a, (forall x y, Q (px img x y)) ->
     forall x y, Q (px (f img a) x y)) ->
  forall img, (forall x y, Q (px img x y)) ->
  forall x y, Q (px (fold_left f l img) x y).
Proof.
  intros Hf. induction l as [|a l IH]; intros img Hi; cbn [fold_left].
  - exact Hi.
  - apply IH, Hf, Hi.
Qed.

Lemma image_data_Forall {P} (Q : P -> Prop) (img : image P) :
  (forall x y, Q (px img x y)) -> Forall Q (image_data img).
Proof.
  intros H. unfold image_data. apply Forall_forall. intros p Hp.
  apply list_elem_of_In, in_flat_map in Hp. destruct Hp as (y & _ & Hp).
  apply in_map_iff in Hp. destruct Hp as (x & <- & _). apply H.
Qed.

(** ** gen_barrel *)

Ltac colour_ok :=
  cbv beta iota delta [rgba_ok rgb_ok channel_ok px Image_new]; lia.

Ltac outside_paint :=
  rewrite px_paint_out by
    first [ reflexivity
          | apply not_in_box;
            [ first [apply ellipse_fill_inside | apply ellipse_outline_inside]
            | reflexivity ] ].

Section Barrel.
Context {R : Random} {D : Pillow}.

Lemma barrel_shade_pass (img : image rgba) (g : rng) :
  exists img',
    for2 4 28 6 45 (barrel_shade_pixel 4 27) img g = Ok (img', g) /\
    width img' = width img /\ height img' = height img /\
    (forall x y, 4 <= x < 28 -> 6 <= y < 45 ->
       shaded (barrel_shade 4 27 x) true (px img x y) (px img' x y)) /\
    (forall x y, ~ (4 <= x < 28 /\ 6 <= y < 45) ->
       px img' x y = px img x y).
Proof.
  destruct (for2_owned (fun x y => (x, y))
              (fun x _ => shaded (barrel_shade 4 27 x) true)
              (barrel_shade_pixel 4 27) 4 28 6 45 img g)
    as (img' & g' & Hrun & Hw & Hh & Hown & Hrest).
  - intros a b a' b' [= -> ->]. auto.
  - intros x Hx y Hy. apply barrel_shade_step.
  - destruct (pure_for2 (barrel_shade_pixel 4 27) 4 28 6 45) with (s := img)
      as [a Ha].
    { intros x y s. unfold barrel_shade_pixel.
      destruct (getpixel s x y) as [[[cr cg] cb] ca].
      destruct (ca >? 0); apply pure_ret. }
    rewrite Ha in Hrun. injection Hrun as <- <-.
    exists a. split; [apply Ha|].
    split; [exact Hw|]. split; [exact Hh|]. split.
    + intros x y Hx Hy. apply (Hown x y Hx Hy).
    + intros x y Hout. apply Hrest. intros a' b' Ha' Hb' [= <- <-].
      apply Hout. lia.
Qed.

(** The barrel before the noise pass: its size, the colour in the middle of
    the glow, the four corners and the channel ranges. *)
Lemma barrel_drawn_facts (g : rng) :
  exists drawn,
    barrel_drawn g = Ok (drawn, g) /\
    width drawn = 32 /\ height drawn = 48 /\
    px drawn 15 25 = (80, 200, 50, 255) /\
    (px drawn 0 0 = (0, 0, 0, 0) /\ px drawn 31 0 = (0, 0, 0, 0) /\
     px drawn 0 47 = (0, 0, 0, 0) /\ px drawn 31 47 = (0, 0, 0, 0)) /\
    (forall x y, rgba_ok (px drawn x y)).
Proof.
  unfold barrel_drawn. cbv zeta.
  match goal with
  | |- context [for2 _ _ _ _ _ ?img0] =>
      destruct (barrel_shade_pass img0 g) as (img1 & Hrun & Hw & Hh & Hown & Hrest)
  end.
  eexists. split.
  { unfold bind at 1. change (27 + 1) with 28. change (44 + 1) with 45.
    rewrite Hrun. reflexivity. }
  cbn [fold_left]. unfold ellipse_outlined, ellipse, rectangle.
  split; [exact Hw|]. split; [exact Hh|]. split.
  { do 2 outside_paint.
    rewrite px_paint_in; [reflexivity| |].
    - rewrite !in_canvas_paint.
      apply (in_canvas_size img1 32 48); [exact Hw|exact Hh|lia|lia].
    - exact (ellipse_fill_centre 14 24 16 26 ltac:(lia) ltac:(lia)
               eq_refl eq_refl). }
  split.
  { repeat split; repeat outside_paint;
      (rewrite Hrest by lia); reflexivity. }
  assert (H0 : forall x y, rgba_ok (px img1 x y)).
  { intros x y.
    assert (Hc : (4 <= x < 28 /\ 6 <= y < 45) \/
                 ~ (4 <= x < 28 /\ 6 <= y < 45)) by lia.
    assert (Hbase : forall x y,
              rgba_ok (px (rectangle (4, 6, 27, 44) (90, 75, 55, 255)
                             (Image_new 32 48 (0, 0, 0, 0))) x y)).
    { apply paint_ok; [colour_ok|]. intros; colour_ok. }
    destruct Hc as [[Hx Hy]|Hout].
    - eapply shaded_ok; [apply (Hown x y Hx Hy)| |apply Hbase].
      apply barrel_shade_range. lia.
    - rewrite (Hrest x y Hout). apply Hbase. }
  repeat (apply paint_ok; [colour_ok|]). exact H0.
Qed.

(** The saved barrel: every pixel of the canvas is the drawn pixel,
    [noised] once with bound 8. *)
Lemma barrel_image_facts (g : rng) :
  exists drawn final g',
    barrel_drawn g = Ok (drawn, g) /\
    barrel_image g = Ok (final, g') /\
    width final = 32 /\ height final = 48 /\
    (forall x y, 0 <= x < 32 -> 0 <= y < 48 ->
       noised 8 (px drawn x y) (px final x y)) /\
    (forall x y, alpha (px final x y) = alpha (px drawn x y)) /\
    (forall x y, alpha (px drawn x y) = 0 -> px final x y = px drawn x y) /\
    (forall x y, rgba_ok (px final x y)).
Proof.
  destruct (barrel_drawn_facts g) as (drawn & Hd & Hw & Hh & _ & _ & Hok).
  destruct (sprite_noise_pass 8 32 48 drawn (seed 111))
    as (final & g' & Hrun & Hw' & Hh' & Hown & Hrest); [lia|].
  exists drawn, final, g'. split; [exact Hd|]. split.
  { unfold barrel_image, bind. rewrite Hd. cbn. exact Hrun. }
  split; [congruence|]. split; [congruence|]. split; [exact Hown|].
  assert (Hc : forall x y,
            (0 <= x < 32 /\ 0 <= y < 48) \/ ~ (0 <= x < 32 /\ 0 <= y < 48))
    by (intros; lia).
  split; [|split]; intros x y; destruct (Hc x y) as [[Hx Hy]|Hout].
  - apply (noised_alpha 8), Hown; assumption.
  - now rewrite Hrest.
  - intros Ha. apply (noised_transparent 8); [apply Hown|]; assumption.
  - intros _. now apply Hrest.
  - eapply noised_ok; [apply Hown; assumption|apply Hok].
  - rewrite Hrest by assumption. apply Hok.
Qed.

End Barrel.

(** ** gen_computer_panel *)

Lemma in_box_true (x0 y0 x1 y1 x y : Z) :
  in_box (x0, y0, x1, y1) x y = true <-> x0 <= x <= x1 /\ y0 <= y <= y1.
Proof.
  unfold in_box. rewrite !andb_true_iff, !Z.leb_le. lia.
Qed.

Lemma in_canvas_true {P} (img : image P) (x y : Z) :
  in_canvas img x y = true <->
  0 <= x < width img /\ 0 <= y < height img.
Proof.
  unfold in_canvas. rewrite !andb_true_iff, !Z.leb_le, !Z.ltb_lt. lia.
Qed.

Lemma fold_left_inv {St A} (I : St -> Prop) (f : St -> A -> St)
    (l : list A) :
  (forall s a, In a l -> I s -> I (f s a)) ->
  forall s, I s -> I (fold_left f l s).
Proof.
  induction l as [|a l IH]; intros Hf s Hs; cbn [fold_left]; [exact Hs|].
  apply IH.
  - intros s' a' Ha'. apply Hf. right. exact Ha'.
  - apply Hf; [left; reflexivity|exact Hs].
Qed.

Lemma range_step_In (a b step x : Z) :
  0 < step -> In x (range_step a b step) -> a <= x < b.
Proof.
  intros Hs Hx. unfold range_step in Hx. apply in_map_iff in Hx.
  destruct Hx as (k & <- & Hk). apply range_In in Hk.
  assert (step * k <= step * ((b - a + step - 1) / step - 1)) by nia.
  pose proof (Z.mul_div_le (b - a + step - 1) step Hs). nia.
Qed.

Section Panel.
Context {R : Random} {D : Pillow}.

Lemma panel_paint (mask : Z -> Z -> bool) (c : rgba) (img : image rgba) :
  panel_inv img -> alpha c = 255 -> rgba_ok c ->
  (forall x y, mask x y = true -> 2 <= x <= 45 /\ 2 <= y <= 45) ->
  panel_inv (paint mask c img).
Proof.
  intros (Hw & Hh & Ha & Hok) Hc Hcok Hm.
  split; [exact Hw|]. split; [exact Hh|]. split.
  - intros x y. destruct (Ha x y) as [Hin Hout]. cbn [px paint].
    destruct (in_canvas img x y && mask x y) eqn:E.
    + apply andb_true_iff in E. destruct E as [_ E]. apply Hm in E.
      split; [intros _; exact Hc|tauto].
    + split; assumption.
  - apply paint_ok; assumption.
Qed.

Lemma panel_base :
  panel_inv (rectangle (2, 2, 45, 45) (50, 50, 55, 255)
               (Image_new 48 48 (0, 0, 0, 0))).
Proof.
  split; [reflexivity|]. split; [reflexivity|]. split.
  - intros x y. unfold rectangle. cbn [px paint Image_new].
    destruct (in_canvas _ x y && in_box (2, 2, 45, 45) x y) eqn:E.
    + apply andb_true_iff in E. destruct E as [_ E].
      apply in_box_true in E. split; [reflexivity|tauto].
    + split; [|reflexivity]. intros Hin. exfalso.
      apply andb_false_iff in E. destruct E as [E|E].
      * assert (in_canvas (Image_new 48 48 (0, 0, 0, 0)) x y = true)
          by (apply in_canvas_true; cbn; lia). congruence.
      * assert (in_box (2, 2, 45, 45) x y = true)
          by (apply in_box_true; lia). congruence.
  - apply paint_ok; [colour_ok|]. intros; colour_ok.
Qed.

Lemma panel_rectangle (x0 y0 x1 y1 : Z) (c : rgba) (img : image rgba) :
  panel_inv img -> alpha c = 255 -> rgba_ok c ->
  2 <= x0 -> x1 <= 45 -> 2 <= y0 -> y1 <= 45 ->
  panel_inv (rectangle (x0, y0, x1, y1) c img).
Proof.
  intros Hi Hc Hok Hx0 Hx1 Hy0 Hy1. apply panel_paint; auto.
  intros x y Hm. apply in_box_true in Hm. lia.
Qed.

Lemma panel_ellipse (x0 y0 x1 y1 : Z) (c : rgba) (img : image rgba) :
  panel_inv img -> alpha c = 255 -> rgba_ok c ->
  2 <= x0 -> x1 <= 45 -> 2 <= y0 -> y1 <= 45 ->
  panel_inv (ellipse (x0, y0, x1, y1) c img).
Proof.
  intros Hi Hc Hok Hx0 Hx1 Hy0 Hy1. apply panel_paint; auto.
  intros x y Hm. apply ellipse_fill_inside, in_box_true in Hm. lia.
Qed.

Lemma panel_line (x0 y0 x1 y1 : Z) (c : rgba) (img : image rgba) :
  panel_inv img -> alpha c = 255 -> rgba_ok c ->
  2 <= x0 <= 45 -> 2 <= x1 <= 45 -> 2 <= y0 <= 45 -> 2 <= y1 <= 45 ->
  panel_inv (line (x0, y0) (x1, y1) c 1 img).
Proof.
  intros Hi Hc Hok Hx0 Hx1 Hy0 Hy1. apply panel_paint; auto.
  intros x y Hm. apply line_inside in Hm. lia.
Qed.

(** The text rows keep the invariant: every segment lies on the screen. *)
Lemma panel_text_inv (img : image rgba) (g : rng) :
  panel_inv img ->
  exists img' g', panel_text img g = Ok (img', g') /\ panel_inv img'.
Proof.
  intros Hi. unfold panel_text, bind at 1, random_seed.
  apply (for_range_inv (fun _ s _ => panel_inv s)); [lia|exact Hi|].
  intros row s g1 Hrow Hs.
  unfold bind at 1. rewrite random_randint_ok by lia.
  destruct (randint 8 28 g1) as [line_len g2].
  unfold bind at 1. rewrite random_randint_ok by lia.
  pose proof (randint_range 2 5 g2 ltac:(lia)) as Hsegs.
  destruct (randint 2 5 g2) as [segs g3]. cbn [fst] in Hsegs.
  apply (for_range_inv (fun _ s _ => panel_inv s)); [lia|exact Hs|].
  intros seg s' g4 Hseg Hs'.
  unfold bind at 1. rewrite random_randint_ok by lia.
  pose proof (randint_range 0 20 g4 ltac:(lia)) as H1.
  destruct (randint 0 20 g4) as [r1 g5]. cbn [fst] in H1.
  unfold bind at 1. rewrite random_randint_ok by lia.
  pose proof (randint_range 3 10 g5 ltac:(lia)) as H2.
  destruct (randint 3 10 g5) as [r2 g6]. cbn [fst] in H2.
  eexists _, g6. split; [reflexivity|].
  apply panel_rectangle; [exact Hs'|reflexivity|colour_ok|lia|lia|lia|lia].
Qed.

Lemma computer_panel_image_facts (g : rng) :
  exists img g', computer_panel_image g = Ok (img, g') /\ panel_inv img.
Proof.
  unfold computer_panel_image. cbv zeta.
  match goal with
  | |- context [panel_text ?img0] =>
      destruct (panel_text_inv img0 g) as (img1 & g1 & Hrun & Hinv)
  end.
  { apply fold_left_inv.
    - intros s y Hy Hs. apply range_step_In in Hy; [|lia].
      apply panel_line; [exact Hs|reflexivity|colour_ok|lia|lia|lia|lia].
    - do 4 (apply panel_rectangle;
              [|reflexivity|colour_ok|lia|lia|lia|lia]).
      apply panel_base. }
  eexists _, g1. split.
  { unfold bind at 1. rewrite Hrun. reflexivity. }
  repeat (first [ apply panel_ellipse | apply panel_rectangle ];
            [|reflexivity|colour_ok|lia|lia|lia|lia]).
  exact Hinv.
Qed.

End Panel.

(** ** gen_tech_column *)

Lemma putpixel_ok {P} (Q : P -> Prop) (img : image P) (x y : Z) (c : P) :
  Q c -> (forall x y, Q (px img x y)) ->
  forall x' y', Q (px (putpixel img x y c) x' y').
Proof.
  intros Hc Hi x' y'. cbn [px putpixel].
  destruct ((x' =? x) && (y' =? y)); auto.
Qed.

Section Column.
Context {R : Random} {D : Pillow}.

Lemma pure_barrel_drawn : pure_ barrel_drawn.
Proof.
  unfold barrel_drawn. cbv zeta. apply pure_bind; [|intros; apply pure_ret].
  apply pure_for2. intros x y s. unfold barrel_shade_pixel.
  destruct (getpixel s x y) as [[[cr cg] cb] ca].
  destruct (ca >? 0); apply pure_ret.
Qed.

Lemma pure_tech_column_drawn : pure_ tech_column_drawn.
Proof.
  unfold tech_column_drawn. cbv zeta. apply pure_bind.
  - apply pure_for2. intros y x s. unfold column_shade_pixel.
    destruct (getpixel s x y) as [[[cr cg] cb] ca].
    destruct (ca >? 0); apply pure_ret.
  - intros img. apply pure_for2. intros i x s. unfold column_stripe_pixel.
    destruct ((x + i) mod 4 <? 2); apply pure_ret.
Qed.

Lemma sized_ok_paint (w h : Z) (mask : Z -> Z -> bool) (c : rgba)
    (img : image rgba) :
  rgba_ok c -> sized_ok w h img -> sized_ok w h (paint mask c img).
Proof.
  intros Hc (Hw & Hh & Hok). split; [exact Hw|]. split; [exact Hh|].
  apply paint_ok; assumption.
Qed.

Lemma sized_ok_putpixel (w h x y : Z) (c : rgba) (img : image rgba) :
  rgba_ok c -> sized_ok w h img -> sized_ok w h (putpixel img x y c).
Proof.
  intros Hc (Hw & Hh & Hok). split; [exact Hw|]. split; [exact Hh|].
  apply putpixel_ok; assumption.
Qed.

Lemma tech_column_drawn_facts (g : rng) :
  exists drawn, tech_column_drawn g = Ok (drawn, g) /\ sized_ok 24 64 drawn.
Proof.
  destruct pure_tech_column_drawn as [drawn Hpure].
  exists drawn. split; [apply Hpure|].
  specialize (Hpure g). revert Hpure.
  unfold tech_column_drawn. cbv zeta.
  match goal with
  | |- context [for2 2 62 _ _ _ ?img0] =>
      destruct (for2_inv (sized_ok 24 64)
                  (column_shade_pixel 4 19) 2 62 4 (19 + 1) img0 g)
        as (img1 & g1 & Hrun & H1)
  end.
  { apply sized_ok_paint; [colour_ok|].
    split; [reflexivity|]. split; [reflexivity|]. intros; colour_ok. }
  { intros y x cur g1 Hy Hx Hc. unfold column_shade_pixel, getpixel.
    destruct Hc as (Hw & Hh & Hok). pose proof (Hok x y) as Hp.
    destruct (px cur x y) as [[[cr cg] cb] ca].
    destruct (ca >? 0).
    - eexists _, g1. split; [reflexivity|].
      apply sized_ok_putpixel; [|repeat split; assumption].
      pose proof (column_shade_range x ltac:(lia)).
      unfold rgba_ok, channel_ok in *. lia.
    - exists cur, g1. split; [reflexivity|]. repeat split; assumption. }
  unfold bind at 1. rewrite Hrun.
  match goal with
  | |- context [for2 0 4 _ _ _ ?img2] =>
      destruct (for2_inv (sized_ok 24 64)
                  column_stripe_pixel 0 4 (4 + 1) 19 img2 g1)
        as (img3 & g3 & Hrun3 & H3)
  end.
  { unfold rectangle, line. cbn [fold_left].
    repeat (apply sized_ok_paint; [colour_ok|]). exact H1. }
  { intros i x cur g2 Hi Hx Hc. unfold column_stripe_pixel.
    destruct ((x + i) mod 4 <? 2); eexists _, g2;
      (split; [reflexivity|]); apply sized_ok_putpixel;
      [colour_ok|exact Hc|colour_ok|exact Hc]. }
  rewrite Hrun3. intros [= <- _]. exact H3.
Qed.

Lemma tech_column_image_facts (g : rng) :
  exists drawn final g',
    tech_column_drawn g = Ok (drawn, g) /\
    tech_column_image g = Ok (final, g') /\
    (forall x y, alpha (px final x y) = alpha (px drawn x y)) /\
    (forall x y, alpha (px drawn x y) = 0 -> px final x y = px drawn x y) /\
    (forall x y, rgba_ok (px final x y)).
Proof.
  destruct (tech_column_drawn_facts g) as (drawn & Hd & Hw & Hh & Hok).
  destruct (sprite_noise_pass 5 24 64 drawn (seed 333))
    as (final & g' & Hrun & _ & _ & Hown & Hrest); [lia|].
  exists drawn, final, g'. split; [exact Hd|]. split.
  { unfold tech_column_image, bind. rewrite Hd. cbn. exact Hrun. }
  assert (Hc : forall x y,
            (0 <= x < 24 /\ 0 <= y < 64) \/ ~ (0 <= x < 24 /\ 0 <= y < 64))
    by (intros; lia).
  split; [|split]; intros x y; destruct (Hc x y) as [[Hx Hy]|Hout].
  - apply (noised_alpha 5), Hown; assumption.
  - now rewrite Hrest.
  - intros Ha. apply (noised_transparent 5); [apply Hown|]; assumption.
  - intros _. now apply Hrest.
  - eapply noised_ok; [apply Hown; assumption|apply Hok].
  - rewrite Hrest by assumption. apply Hok.
Qed.

End Column.

(** ** The noise of the textures *)

Section TextureNoise.
Context {R : Random}.

(** What the single-pass bodies do: one draw (two in [gen_green_stone])
    from the state the loop has reached; a negative bound would make the
    range of the draw empty. *)
Lemma plain_noise_pixel_cases (k y x : Z) (img : image rgb) (g : rng) :
  plain_noise_pixel k y x img g =
  if - k <=? k
  then Ok (putpixel img x y
             (plain_jitter (fst (randint (- k) k g)) (px img x y)),
           snd (randint (- k) k g))
  else Raise ValueError.
Proof.
  unfold plain_noise_pixel, getpixel, plain_jitter.
  destruct (px img x y) as [[r gr] b]. unfold bind, random_randint, ret.
  destruct (- k <=? k); [|reflexivity].
  destruct (randint (- k) k g). reflexivity.
Qed.

Lemma plain_noise_pixel_eq (k y x : Z) (img : image rgb) (g : rng) :
  0 <= k ->
  plain_noise_pixel k y x img g =
  Ok (putpixel img x y (plain_jitter (fst (randint (- k) k g)) (px img x y)),
      snd (randint (- k) k g)).
Proof.
  intros Hk. rewrite plain_noise_pixel_cases.
  destruct (Z.leb_spec (- k) k); [reflexivity|lia].
Qed.

Lemma damped_noise_pixel_cases (k : Z) (damp : Q) (y x : Z)
    (img : image rgb) (g : rng) :
  damped_noise_pixel k damp y x img g =
  if - k <=? k
  then Ok (putpixel img x y
             (damped_jitter damp (fst (randint (- k) k g)) (px img x y)),
           snd (randint (- k) k g))
  else Raise ValueError.
Proof.
  unfold damped_noise_pixel, getpixel, damped_jitter.
  unfold bind, random_randint, ret.
  destruct (- k <=? k); [|reflexivity].
  destruct (randint (- k) k g) as [v g1].
  destruct (px img x y) as [[r gr] b]. reflexivity.
Qed.

Lemma damped_noise_pixel_eq (k : Z) (damp : Q) (y x : Z) (img : image rgb)
    (g : rng) :
  0 <= k ->
  damped_noise_pixel k damp y x img g =
  Ok (putpixel img x y
        (damped_jitter damp (fst (randint (- k) k g)) (px img x y)),
      snd (randint (- k) k g)).
Proof.
  intros Hk. rewrite damped_noise_pixel_cases.
  destruct (Z.leb_spec (- k) k); [reflexivity|lia].
Qed.

Lemma green_noise_pixel_eq (y x : Z) (img : image rgb) (g : rng) :
  let g1 := snd (randint (-25) 25 g) in
  green_noise_pixel y x img g =
  Ok (putpixel img x y
        (green_jitter (fst (randint (-25) 25 g)) (fst (randint (-5) 5 g1))
           (px img x y)),
      snd (randint (-5) 5 g1)).
Proof.
  unfold green_noise_pixel, getpixel, green_jitter.
  unfold bind, random_randint, ret.
  change (-25 <=? 25) with true. change (-5 <=? 5) with true. cbv iota.
  destruct (randint (-25) 25 g) as [v g1]. cbn [fst snd].
  destruct (px img x y) as [[r gr] b].
  destruct (randint (-5) 5 g1). reflexivity.
Qed.

(** What the two re-seeding bodies do: the new pixel is a function of the
    position and the old colour. *)
Lemma brick_noise_pixel_eq (y x : Z) (img : image rgb) (g : rng) :
  exists g',
    brick_noise_pixel 16 32 (60, 40, 25) y x img g =
    Ok (putpixel img x y (brick_jitter x y (px img x y)), g') \/
    (brick_noise_pixel 16 32 (60, 40, 25) y x img g = Ok (img, g) /\
     brick_jitter x y (px img x y) = px img x y /\ g' = g).
Proof.
  unfold brick_noise_pixel, getpixel, brick_jitter.
  destruct (px img x y) as [[r gr] b].
  destruct (negb (rgb_eqb (r, gr, b) (60, 40, 25))).
  - unfold bind, random_seed, random_randint, ret, brick_coarse, brick_fine.
    change (-20 <=? 20) with true. change (-8 <=? 8) with true. cbv iota.
    destruct (randint (-20) 20 _) as [bv g1]. cbn [fst].
    destruct (randint (-8) 8 _) as [pv g2]. cbn [fst].
    exists g2. left. reflexivity.
  - exists g. right. repeat split; reflexivity.
Qed.

Lemma tile_noise_pixel_eq (y x : Z) (img : image rgb) (g : rng) :
  exists g',
    tile_noise_pixel 32 (65, 68, 70) y x img g =
    Ok (putpixel img x y (tile_jitter x y (px img x y)), g') \/
    (tile_noise_pixel 32 (65, 68, 70) y x img g = Ok (img, g) /\
     tile_jitter x y (px img x y) = px img x y /\ g' = g).
Proof.
  unfold tile_noise_pixel, getpixel, tile_jitter.
  destruct (px img x y) as [[r gr] b]. cbn [fst].
  destruct (Z.abs (r - 65) >? 5).
  - unfold bind, random_seed, random_randint, ret, tile_coarse, tile_fine.
    change (-8 <=? 8) with true. change (-10 <=? 10) with true. cbv iota.
    destruct (randint (-8) 8 _) as [tv g1]. cbn [fst].
    destruct (randint (-10) 10 _) as [v g2]. cbn [fst].
    exists g2. left. reflexivity.
  - exists g. right. repeat split; reflexivity.
Qed.

Lemma jitter_step (jitter : Z -> Z -> rgb -> rgb)
    (body : Z -> Z -> image rgb -> M (image rgb)) (y x : Z) :
  (forall img g, exists g',
     body y x img g = Ok (putpixel img x y (jitter x y (px img x y)), g') \/
     (body y x img g = Ok (img, g) /\
      jitter x y (px img x y) = px img x y /\ g' = g)) ->
  step_owned (fun x x' y' => (x, y) = (x', y'))
    (fun x y p p' => p' = jitter x y p) (body y) x.
Proof.
  intros Hb img g. destruct (Hb img g) as [g' [H|(H & Hj & ->)]].
  - eexists _, g'. split; [exact H|].
    split; [reflexivity|]. split; [reflexivity|]. split.
    + intros x' y' [= <- <-]. apply px_putpixel_eq.
    + intros x' y' Hne. apply px_putpixel_ne. exact Hne.
  - exists img, g. split; [exact H|].
    split; [reflexivity|]. split; [reflexivity|]. split.
    + intros x' y' [= <- <-]. symmetry. exact Hj.
    + reflexivity.
Qed.

(** A re-seeding noise pass over the whole canvas: every pixel of the
    result is the jitter of its position applied to its old colour. *)
Lemma jitter_pass (jitter : Z -> Z -> rgb -> rgb)
    (body : Z -> Z -> image rgb -> M (image rgb)) (img : image rgb)
    (g : rng) :
  (forall y x img g, exists g',
     body y x img g = Ok (putpixel img x y (jitter x y (px img x y)), g') \/
     (body y x img g = Ok (img, g) /\
      jitter x y (px img x y) = px img x y /\ g' = g)) ->
  exists img' g',
    for2 0 SIZE 0 SIZE body img g = Ok (img', g') /\
    width img' = width img /\ height img' = height img /\
    (forall x y, 0 <= x < SIZE -> 0 <= y < SIZE ->
       px img' x y = jitter x y (px img x y)).
Proof.
  intros Hb.
  destruct (for2_owned (fun y x => (x, y))
              (fun x y p p' => p' = jitter x y p) body 0 SIZE 0 SIZE img g)
    as (img' & g' & Hrun & Hw & Hh & Hown & _).
  - intros a b a' b' [= -> ->]. auto.
  - intros y Hy x Hx. apply jitter_step. apply Hb.
  - exists img', g'. split; [exact Hrun|].
    split; [exact Hw|]. split; [exact Hh|].
    intros x y Hx Hy. apply (Hown y x Hy Hx).
Qed.





End TextureNoise.

(** ** The concrete rasteriser is a [Pillow] *)

Lemma raster_ellipse_fill_inside (b : box) (x y : Z) :
  raster_ellipse_fill b x y = true -> in_box b x y = true.
Proof.
  destruct b as [[[x0 y0] x1] y1]. unfold raster_ellipse_fill.
  intros H. apply andb_true_iff in H. tauto.
Qed.

Lemma raster_ellipse_outline_inside (b : box) (x y : Z) :
  raster_ellipse_outline b x y = true -> in_box b x y = true.
Proof.
  unfold raster_ellipse_outline. intros H. apply andb_true_iff in H.
  apply raster_ellipse_fill_inside. tauto.
Qed.

Lemma raster_ellipse_fill_centre (x0 y0 x1 y1 : Z) :
  x0 <= x1 -> y0 <= y1 ->
  Z.even (x1 - x0) = true -> Z.even (y1 - y0) = true ->
  raster_ellipse_fill (x0, y0, x1, y1) ((x0 + x1) / 2) ((y0 + y1) / 2)
  = true.
Proof.
  intros Hx Hy Ex Ey.
  apply Z.even_spec in Ex. destruct Ex as [kx Ex].
  apply Z.even_spec in Ey. destruct Ey as [ky Ey].
  assert (Hcx : (x0 + x1) / 2 = x0 + kx).
  { replace (x0 + x1) with ((x0 + kx) * 2) by lia. apply Z.div_mul. lia. }
  assert (Hcy : (y0 + y1) / 2 = y0 + ky).
  { replace (y0 + y1) with ((y0 + ky) * 2) by lia. apply Z.div_mul. lia. }
  rewrite Hcx, Hcy. unfold raster_ellipse_fill.
  apply andb_true_iff. split.
  - apply in_box_true. lia.
  - apply Z.leb_le.
    replace (2 * (x0 + kx) - x0 - x1) with 0 by lia.
    replace (2 * (y0 + ky) - y0 - y1) with 0 by lia. nia.
Qed.

Lemma raster_line_inside (x0 y0 x1 y1 x y : Z) :
  raster_line (x0, y0) (x1, y1) 1 x y = true ->
  Z.min x0 x1 <= x <= Z.max x0 x1 /\ Z.min y0 y1 <= y <= Z.max y0 y1.
Proof.
  unfold raster_line. intros H. apply andb_true_iff in H.
  destruct H as [H _]. apply in_box_true in H. lia.
Qed.

Definition raster_pillow : Pillow := {|
  ellipse_fill := raster_ellipse_fill;
  ellipse_outline := raster_ellipse_outline;
  line_cover := raster_line;
  polygon_fill := raster_polygon_fill;
  polygon_outline := raster_polygon_fill;
  rectangle_outline := raster_rectangle_outline;
  smooth := fun img => img;
  smooth_more := fun img => img;
  ellipse_fill_inside := raster_ellipse_fill_inside;
  ellipse_outline_inside := raster_ellipse_outline_inside;
  ellipse_fill_centre := raster_ellipse_fill_centre;
  line_inside := raster_line_inside;
  smooth_ok := fun img H => H;
  smooth_more_ok := fun img H => H
|}.

(** ** Channel ranges of the textures *)

Ltac drawn_ok :=
  repeat (cbv beta zeta;
    first
      [ assumption
      | apply paint_ok; [colour_ok|]
      | apply fold_left_ok; [intros ? ? ?|]
      | match goal with
        | |- context [if ?c then _ else _] => destruct c
        end
      | progress unfold rectangle, line, ellipse, polygon, polygon_outlined,
          rectangle_outlined, ellipse_outlined, grid_lines
      | (intros; colour_ok) ]).

Section TextureRanges.
Context {R : Random} {D : Pillow}.

Lemma all_rgb_ok_putpixel (img : image rgb) (x y : Z) (c : rgb) :
  rgb_ok c -> all_rgb_ok img -> all_rgb_ok (putpixel img x y c).
Proof. intros Hc Hi x' y'. apply putpixel_ok; assumption. Qed.

Lemma all_rgb_ok_paint (mask : Z -> Z -> bool) (c : rgb) (img : image rgb) :
  rgb_ok c -> all_rgb_ok img -> all_rgb_ok (paint mask c img).
Proof. intros Hc Hi x' y'. apply paint_ok; assumption. Qed.

Lemma plain_jitter_ok (v : Z) (p : rgb) : rgb_ok (plain_jitter v p).
Proof. destruct p as [[r g] b]. unfold plain_jitter. colour_ok. Qed.

Lemma damped_jitter_ok (d : Q) (v : Z) (p : rgb) : rgb_ok (damped_jitter d v p).
Proof. destruct p as [[r g] b]. unfold damped_jitter. colour_ok. Qed.

Lemma green_jitter_ok (v w : Z) (p : rgb) : rgb_ok (green_jitter v w p).
Proof. destruct p as [[r g] b]. unfold green_jitter. colour_ok. Qed.

Lemma brick_jitter_ok (x y : Z) (p : rgb) :
  rgb_ok p -> rgb_ok (brick_jitter x y p).
Proof.
  destruct p as [[r g] b]. unfold brick_jitter.
  destruct (negb (rgb_eqb (r, g, b) (60, 40, 25))); [|auto].
  intros _. colour_ok.
Qed.

Lemma tile_jitter_ok (x y : Z) (p : rgb) :
  rgb_ok p -> rgb_ok (tile_jitter x y p).
Proof.
  destruct p as [[r g] b]. unfold tile_jitter.
  destruct (Z.abs (r - 65) >? 5); [|auto]. intros _. colour_ok.
Qed.

(** Every noise pass keeps the channels in range and does not raise. *)
Lemma noise_pass_ok (body : Z -> Z -> image rgb -> M (image rgb))
    (img : image rgb) (g : rng) :
  (forall y x cur g1, all_rgb_ok cur ->
     exists cur' g2, body y x cur g1 = Ok (cur', g2) /\ all_rgb_ok cur') ->
  all_rgb_ok img ->
  exists img' g',
    for2 0 SIZE 0 SIZE body img g = Ok (img', g') /\ all_rgb_ok img'.
Proof.
  intros Hb Hi. apply (for2_inv all_rgb_ok); [exact Hi|].
  intros y x cur g1 _ _. apply Hb.
Qed.

Lemma plain_noise_ok (k y x : Z) (cur : image rgb) (g1 : rng) :
  0 <= k -> all_rgb_ok cur ->
  exists cur' g2,
    plain_noise_pixel k y x cur g1 = Ok (cur', g2) /\ all_rgb_ok cur'.
Proof.
  intros Hk Hc. rewrite plain_noise_pixel_eq by exact Hk. eexists _, _.
  split; [reflexivity|]. apply all_rgb_ok_putpixel; [apply plain_jitter_ok|exact Hc].
Qed.

Lemma damped_noise_ok (k : Z) (d : Q) (y x : Z) (cur : image rgb)
    (g1 : rng) :
  0 <= k -> all_rgb_ok cur ->
  exists cur' g2,
    damped_noise_pixel k d y x cur g1 = Ok (cur', g2) /\ all_rgb_ok cur'.
Proof.
  intros Hk Hc. rewrite damped_noise_pixel_eq by exact Hk. eexists _, _.
  split; [reflexivity|].
  apply all_rgb_ok_putpixel; [apply damped_jitter_ok|exact Hc].
Qed.

Lemma green_noise_ok (y x : Z) (cur : image rgb) (g1 : rng) :
  all_rgb_ok cur ->
  exists cur' g2,
    green_noise_pixel y x cur g1 = Ok (cur', g2) /\ all_rgb_ok cur'.
Proof.
  intros Hc. rewrite green_noise_pixel_eq. eexists _, _.
  split; [reflexivity|].
  apply all_rgb_ok_putpixel; [apply green_jitter_ok|exact Hc].
Qed.

Lemma brick_noise_ok (y x : Z) (cur : image rgb) (g1 : rng) :
  all_rgb_ok cur ->
  exists cur' g2,
    brick_noise_pixel 16 32 (60, 40, 25) y x cur g1 = Ok (cur', g2) /\
    all_rgb_ok cur'.
Proof.
  intros Hc.
  destruct (brick_noise_pixel_eq y x cur g1) as [g2 [H|(H & _ & _)]].
  - eexists _, g2. split; [exact H|].
    apply all_rgb_ok_putpixel; [apply brick_jitter_ok, Hc|exact Hc].
  - exists cur, g1. split; [exact H|exact Hc].
Qed.

Lemma tile_noise_ok (y x : Z) (cur : image rgb) (g1 : rng) :
  all_rgb_ok cur ->
  exists cur' g2,
    tile_noise_pixel 32 (65, 68, 70) y x cur g1 = Ok (cur', g2) /\
    all_rgb_ok cur'.
Proof.
  intros Hc.
  destruct (tile_noise_pixel_eq y x cur g1) as [g2 [H|(H & _ & _)]].
  - eexists _, g2. split; [exact H|].
    apply all_rgb_ok_putpixel; [apply tile_jitter_ok, Hc|exact Hc].
  - exists cur, g1. split; [exact H|exact Hc].
Qed.

Lemma crack_walk_ok (steps lo hi : Z) (start : Z * Z) (c : rgb)
    (img : image rgb) (g : rng) :
  lo <= hi -> rgb_ok c -> all_rgb_ok img ->
  exists img' g',
    crack_walk steps lo hi start c img g = Ok (img', g') /\ all_rgb_ok img'.
Proof.
  intros Hlh Hc Hi. unfold crack_walk, bind at 1.
  destruct (Z.le_gt_cases 0 steps) as [Hs|Hs].
  2:{ rewrite for_range_empty by lia. eexists _, _.
      split; [reflexivity|exact Hi]. }
  match goal with
  | |- context [for_ _ ?body ?s0 _] =>
      destruct (for_range_inv
        (fun (_ : Z) (st : image rgb * Z * Z) (_ : rng) =>
           all_rgb_ok (fst (fst st)))
        body 0 steps s0 g Hs Hi) as (st & g' & Hrun & Hst)
  end.
  - intros i [[cur cx] cy] g1 _ Hcur. cbn [fst] in Hcur.
    unfold bind at 1. rewrite random_randint_ok by exact Hlh.
    destruct (randint lo hi g1) as [dx g2].
    unfold bind at 1. rewrite random_randint_ok by lia.
    destruct (randint 1 3 g2) as [dy g3].
    eexists _, g3. split; [reflexivity|]. cbn [fst].
    unfold line. apply all_rgb_ok_paint; assumption.
  - rewrite Hrun. exists (fst (fst st)), g'. split; [reflexivity|exact Hst].
Qed.

End TextureRanges.

Section TextureImages.
Context {R : Random} {D : Pillow}.

Lemma brown_brick_drawn_ok : all_rgb_ok brown_brick_drawn.
Proof. unfold all_rgb_ok, brown_brick_drawn. drawn_ok. Qed.

Lemma gray_tile_floor_drawn_ok : all_rgb_ok gray_tile_floor_drawn.
Proof. unfold all_rgb_ok, gray_tile_floor_drawn. drawn_ok. Qed.

Lemma brown_brick_image_ok (g : rng) :
  exists img g', brown_brick_image g = Ok (img, g') /\ all_rgb_ok img.
Proof.
  unfold brown_brick_image. cbv zeta.
  apply noise_pass_ok; [intros; now apply brick_noise_ok|].
  apply brown_brick_drawn_ok.
Qed.

Lemma gray_tile_floor_image_ok (g : rng) :
  exists img g', gray_tile_floor_image g = Ok (img, g') /\ all_rgb_ok img.
Proof.
  unfold gray_tile_floor_image. cbv zeta.
  apply noise_pass_ok; [intros; now apply tile_noise_ok|].
  apply gray_tile_floor_drawn_ok.
Qed.

Lemma brown_stone_floor_image_ok (g : rng) :
  exists img g', brown_stone_floor_image g = Ok (img, g') /\ all_rgb_ok img.
Proof.
  unfold brown_stone_floor_image. cbv zeta. unfold bind at 1, random_seed.
  match goal with
  | |- context [for2 _ _ _ _ ?body ?img0] =>
      destruct (noise_pass_ok body img0 (seed 202))
        as (img1 & g1 & Hrun & H1)
  end.
  { intros; apply damped_noise_ok; [lia|assumption]. }
  { unfold all_rgb_ok. drawn_ok. }
  unfold bind at 1. rewrite Hrun. eexists _, g1. split; [reflexivity|].
  unfold all_rgb_ok in H1. intros x y. apply smooth_ok. drawn_ok.
Qed.

Lemma gray_concrete_image_ok (g : rng) :
  exists img g', gray_concrete_image g = Ok (img, g') /\ all_rgb_ok img.
Proof.
  unfold gray_concrete_image. cbv zeta. unfold bind at 1, random_seed.
  match goal with
  | |- context [for2 _ _ _ _ ?body ?img0] =>
      destruct (noise_pass_ok body img0 (seed 303))
        as (img1 & g1 & Hrun & H1)
  end.
  { intros; apply plain_noise_ok; [lia|assumption]. }
  { unfold all_rgb_ok. drawn_ok. }
  unfold bind at 1. rewrite Hrun. unfold bind at 1.
  destruct (crack_walk_ok 60 (-1) 2 (20, 0) (75, 75, 72) img1 (seed 304))
    as (img2 & g2 & Hr2 & H2); [lia|colour_ok|exact H1|].
  unfold bind at 1. rewrite Hr2.
  destruct (crack_walk_ok 40 (-2) 1 (90, 30) (75, 75, 72) img2 g2)
    as (img3 & g3 & Hr3 & H3); [lia|colour_ok|exact H2|].
  unfold bind at 1. rewrite Hr3. eexists _, g3. split; [reflexivity|].
  intros x y. apply smooth_more_ok. exact H3.
Qed.

Lemma green_stone_image_ok (g : rng) :
  exists img g', green_stone_image g = Ok (img, g') /\ all_rgb_ok img.
Proof.
  unfold green_stone_image. cbv zeta. unfold bind at 1, random_seed.
  match goal with
  | |- context [for2 _ _ _ _ ?body ?img0] =>
      destruct (noise_pass_ok body img0 (seed 909))
        as (img1 & g1 & Hrun & H1)
  end.
  { intros; now apply green_noise_ok. }
  { unfold all_rgb_ok. drawn_ok. }
  unfold bind at 1. rewrite Hrun. eexists _, g1. split; [reflexivity|].
  unfold all_rgb_ok in H1. intros x y. apply smooth_ok. drawn_ok.
Qed.

Lemma dark_teal_metal_image_ok (g : rng) :
  exists img g', dark_teal_metal_image g = Ok (img, g') /\ all_rgb_ok img.
Proof.
  unfold dark_teal_metal_image. cbv zeta. unfold bind at 1, random_seed.
  apply noise_pass_ok; [intros; apply plain_noise_ok; [lia|assumption]|].
  unfold all_rgb_ok. drawn_ok.
Qed.

Lemma tan_walkway_image_ok (g : rng) :
  exists img g', tan_walkway_image g = Ok (img, g') /\ all_rgb_ok img.
Proof.
  unfold tan_walkway_image. cbv zeta. unfold bind at 1, random_seed.
  apply noise_pass_ok; [intros; apply damped_noise_ok; [lia|assumption]|].
  unfold all_rgb_ok. drawn_ok.
Qed.

Lemma blue_tech_panel_image_ok (g : rng) :
  exists img g', blue_tech_panel_image g = Ok (img, g') /\ all_rgb_ok img.
Proof.
  unfold blue_tech_panel_image. cbv zeta. unfold bind at 1, random_seed.
  apply noise_pass_ok; [intros; apply plain_noise_ok; [lia|assumption]|].
  unfold all_rgb_ok. drawn_ok.
Qed.

Lemma tech_floor_image_ok (g : rng) :
  exists img g', tech_floor_image g = Ok (img, g') /\ all_rgb_ok img.
Proof.
  unfold tech_floor_image. cbv zeta. unfold bind at 1, random_seed.
  apply noise_pass_ok; [intros; apply plain_noise_ok; [lia|assumption]|].
  unfold all_rgb_ok. drawn_ok.
Qed.

Lemma ceiling_panel_image_ok (g : rng) :
  exists img g', ceiling_panel_image g = Ok (img, g') /\ all_rgb_ok img.
Proof.
  unfold ceiling_panel_image. cbv zeta. unfold bind at 1, random_seed.
  apply noise_pass_ok; [intros; apply plain_noise_ok; [lia|assumption]|].
  unfold all_rgb_ok. drawn_ok.
Qed.

(** A generator that saves an image with 8-bit channels writes a buffer
    with 8-bit channels. *)
Lemma saved_ok {P} (Q : P -> Prop) (m : M (image P)) (g : rng) :
  (exists img g', m g = Ok (img, g') /\ forall x y, Q (px img x y)) ->
  exists out g',
    bind m (fun img => ret (image_data img)) g = Ok (out, g') /\
    Forall Q out.
Proof.
  intros (img & g' & Hm & Hq). exists (image_data img), g'. split.
  - unfold bind. rewrite Hm. reflexivity.
  - apply image_data_Forall, Hq.
Qed.

End TextureImages.
(** ** write_wav *)

Lemma unpack_pack (v : Z) :
  -32768 <= v <= 32767 ->
  unpack_h (v mod 256) ((v / 256) mod 256) = v /\
  0 <= v mod 256 <= 255 /\ 0 <= (v / 256) mod 256 <= 255.
Proof.
  intros Hv. unfold unpack_h.
  pose proof (Z.mod_pos_bound v 256 ltac:(lia)).
  pose proof (Z.mod_pos_bound (v / 256) 256 ltac:(lia)).
  pose proof (Z.div_mod v 256 ltac:(lia)).
  pose proof (Z.div_mod (v / 256) 256 ltac:(lia)).
  assert (-128 <= v / 256 <= 127) by lia.
  assert (Hq : v / 256 / 256 = 0 \/ v / 256 / 256 = -1) by lia.
  cbv zeta.
  destruct (Z.ltb_spec (v mod 256 + 256 * ((v / 256) mod 256)) 32768);
    destruct Hq; lia.
Qed.



(** ** The quantiser *)

Lemma int_opp (q : Q) : int (- q) = - int q.
Proof. destruct q as [n d]. unfold int. cbn. apply Z.quot_opp_l. lia. Qed.

Lemma div_le_cross (a b c d : Z) :
  0 <= a -> 0 < b -> 0 < d -> a * d <= c * b -> a / b <= c / d.
Proof.
  intros Ha Hb Hd H. apply Z.div_le_lower_bound; [exact Hd|].
  pose proof (Z.mul_div_le a b Hb) as Hq.
  assert (0 <= a / b) by (apply Z.div_pos; lia).
  apply (Z.mul_le_mono_pos_l _ _ b Hb). nia.
Qed.

Lemma int_mono (p q : Q) : (p <= q)%Q -> int p <= int q.
Proof.
  destruct p as [a b], q as [c d]. unfold Qle, int. cbn. intros H.
  destruct (Z.le_gt_cases 0 a) as [Hs|Hs];
    destruct (Z.le_gt_cases 0 c) as [Hs'|Hs'].
  - rewrite !Z.quot_div_nonneg by lia. apply div_le_cross; lia.
  - nia.
  - assert (Z.quot a (Z.pos b) <= 0) by (apply Z.quot_le_upper_bound; lia).
    assert (0 <= Z.quot c (Z.pos d)) by (apply Z.quot_pos; lia).
    lia.
  - replace a with (- - a) by lia. replace c with (- - c) by lia.
    rewrite !(Z.quot_opp_l (- _)) by lia.
    rewrite !Z.quot_div_nonneg by lia.
    apply Z.opp_le_mono. rewrite !Z.opp_involutive.
    apply div_le_cross; lia.
Qed.

Lemma int_Qeq (p q : Q) : (p == q)%Q -> int p = int q.
Proof.
  intros H. apply Z.le_antisymm; apply int_mono; rewrite H; apply Qle_refl.
Qed.

Lemma clamp_sample_cases (s : Q) :
  (clamp_sample s = (-1.0)%Q /\ (s <= -1)%Q) \/
  (clamp_sample s = 1.0%Q /\ (1 <= s)%Q) \/
  (clamp_sample s = s /\ (-1 < s)%Q /\ (s < 1)%Q).
Proof.
  unfold clamp_sample.
  destruct (fmin_cases 1.0 s) as [[E H]|[E H]]; rewrite E.
  - right. left. split; [reflexivity|lra].
  - destruct (fmax_cases (-1.0) s) as [[E' H']|[E' H']]; rewrite E'.
    + left. split; [reflexivity|lra].
    + right. right. split; [reflexivity|lra].
Qed.

Lemma clamp_sample_mono (s t : Q) :
  (s <= t)%Q -> (clamp_sample s <= clamp_sample t)%Q.
Proof.
  intros H.
  destruct (clamp_sample_cases s) as [[-> ?]|[[-> ?]|[-> ?]]];
    destruct (clamp_sample_cases t) as [[-> ?]|[[-> ?]|[-> ?]]]; lra.
Qed.

(** ** The first sample of the hum *)

Lemma quantize_mono (s t : Q) : (s <= t)%Q -> quantize s <= quantize t.
Proof.
  intros Hst. unfold quantize. apply int_mono.
  pose proof (clamp_sample_mono s t Hst). lra.
Qed.

Lemma read_frames_write_wav (samples : list Q) :
  exists frames,
    write_wav samples = Ok frames /\
    read_frames frames = map quantize samples.
Proof.
  rewrite write_wav_ok. eexists. split; [reflexivity|].
  induction samples as [|s rest IH]; [reflexivity|].
  cbn [flat_map app map read_frames].
  destruct (unpack_pack (quantize s)) as (Hu & _).
  { pose proof (quantize_range s). lia. }
  rewrite Hu, IH. reflexivity.
Qed.

Section HumFirstSample.
Context {R : Random} {L : MathLib}.

Lemma hum_stream_draws (n : nat) :
  forall (i : Z) (g : rng),
    snd (hum_stream i n g) = gauss_state 0 0.005 n g /\
    forall k, (k < n)%nat ->
      fst (hum_stream i n g) !! k =
      Some (hum_wave (i + Z.of_nat k) + gauss_draw 0 0.005 g k)%Q.
Proof.
  induction n as [|n IH]; intros i g.
  - split; [reflexivity|]. intros k Hk. lia.
  - assert (Hst : forall m g0,
              gauss_state 0 0.005 (S m) g0 =
              gauss_state 0 0.005 m (snd (gauss 0 0.005 g0))).
    { induction m as [|m IHm]; intros g0; [reflexivity|].
      cbn [gauss_state]. f_equal. f_equal. apply IHm. }
    cbn [hum_stream].
    destruct (gauss 0 0.005 g) as [d g1] eqn:Hd.
    destruct (IH (i + 1) g1) as [Hs Hk].
    destruct (hum_stream (i + 1) n g1) as [rest g2]. cbn [fst snd] in *.
    split.
    + rewrite Hst, Hd. exact Hs.
    + intros [|k] Hlt.
      * unfold gauss_draw. cbn [gauss_state]. rewrite Hd.
        replace (i + Z.of_nat 0) with i by lia. reflexivity.
      * change ((hum_wave i + d)%Q :: rest) with ([(hum_wave i + d)%Q] ++ rest).
        rewrite lookup_app_r by (cbn; lia).
        replace (S k - length [(hum_wave i + d)%Q])%nat with k by (cbn; lia).
        rewrite (Hk k) by lia.
        unfold gauss_draw. rewrite Hst, Hd. cbn [snd].
        replace (i + 1 + Z.of_nat k) with (i + Z.of_nat (S k)) by lia.
        reflexivity.
Qed.

(** The raw buffer of the hum: the state it leaves, its length and its
    samples. *)
Lemma hum_raw_samples (g : rng) :
  exists raw,
    hum_raw g = Ok (raw, gauss_state 0 0.005 (Z.to_nat 44100) g) /\
    Z.of_nat (length raw) = 44100 /\
    forall i, 0 <= i < 44100 ->
      raw !! Z.to_nat i =
      Some (hum_wave i + gauss_draw 0 0.005 g (Z.to_nat i))%Q.
Proof.
  destruct (hum_stream_draws (Z.to_nat 44100) 0 g) as [Hs Hk].
  exists (fst (hum_stream 0 (Z.to_nat 44100) g)). split.
  - rewrite hum_raw_stream, <- Hs.
    destruct (hum_stream 0 (Z.to_nat 44100) g). reflexivity.
  - split; [rewrite hum_stream_length; lia|].
    intros i Hi. rewrite Hk by lia.
    replace (0 + Z.of_nat (Z.to_nat i)) with i by lia. reflexivity.
Qed.

(** The sign of the first frame of the hum is the sign of its first raw
    sample, [hum_wave 0] plus the first draw: a raw sample that is not
    positive is written as a frame that is not positive, and one that is at
    least [B / (0.6 * 32767)], [B] bounding the raw buffer, as a frame that
    is at least 1. *)
Lemma hum_first_frame (g : rng) (B : Q) :
  (forall i, 0 <= i < 44100 ->
     (Qabs (hum_wave i + gauss_draw 0 0.005 g (Z.to_nat i)) <= B)%Q) ->
  exists frames q rest,
    gen_computer_hum g =
      Ok (frames, gauss_state 0 0.005 (Z.to_nat 44100) g) /\
    read_frames frames = q :: rest /\
    ((hum_wave 0 + gauss_draw 0 0.005 g O <= 0)%Q -> q <= 0) /\
    ((B <= (hum_wave 0 + gauss_draw 0 0.005 g O) * (0.6 * 32767))%Q ->
     (0 < hum_wave 0 + gauss_draw 0 0.005 g O)%Q -> 1 <= q).
Proof.
  intros HB. set (r0 := (hum_wave 0 + gauss_draw 0 0.005 g O)%Q).
  destruct (hum_raw_samples g) as (raw & Hraw & Hlen & Hk).
  destruct (computer_hum_samples_correct g)
    as (pre & g1 & out & Hpre & Hs & (peak & Hp & Hpos & Hzero) & _).
  rewrite Hraw in Hpre.
  assert (E : pre = raw /\ g1 = gauss_state 0 0.005 (Z.to_nat 44100) g).
  { split.
    - exact (f_equal (fun r => match r with
                               | Ok (o, _) => o
                               | Raise _ => pre
                               end) (eq_sym Hpre)).
    - exact (f_equal (fun r => match r with
                               | Ok (_, s) => s
                               | Raise _ => g1
                               end) (eq_sym Hpre)). }
  destruct E as [-> ->]. clear Hpre.
  destruct Hp as [Hall (x & Hx & Hpx)].
  assert (Hp0 : (0 <= peak)%Q) by (rewrite <- Hpx; apply Qabs_nonneg).
  assert (H0 : raw !! O = Some r0) by (apply (Hk 0); lia).
  assert (Hr0 : (Qabs r0 <= peak)%Q).
  { apply Hall. apply list_elem_of_In. apply list_elem_of_lookup.
    exists O. exact H0. }
  assert (HpB : (peak <= B)%Q).
  { apply list_elem_of_In in Hx. apply list_elem_of_lookup in Hx.
    destruct Hx as [k Hxk].
    assert (Hkn : (k < length raw)%nat)
      by (apply lookup_lt_is_Some; eexists; exact Hxk).
    specialize (Hk (Z.of_nat k) ltac:(lia)). rewrite Nat2Z.id in Hk.
    rewrite Hxk in Hk. injection Hk as ->. rewrite <- Hpx.
    specialize (HB (Z.of_nat k) ltac:(lia)). rewrite Nat2Z.id in HB.
    exact HB. }
  destruct raw as [|r raw']; [discriminate H0|].
  injection H0 as ->.
  destruct (read_frames_write_wav out) as (frames & Hw & Hread).
  assert (Hgen : gen_computer_hum g =
                 Ok (frames, gauss_state 0 0.005 (Z.to_nat 44100) g)).
  { unfold gen_computer_hum, bind. rewrite Hs. unfold lift. rewrite Hw.
    reflexivity. }
  destruct (Qlt_le_dec 0 peak) as [Hlt|Hle].
  - destruct (Hpos ltac:(lra)) as [-> _]. cbn [map] in Hread.
    eexists frames, _, _. split; [exact Hgen|]. split; [exact Hread|].
    split.
    + intros Hneg. change 0 with (quantize 0). apply quantize_mono.
      assert (E : (r0 / peak * 0.6 == r0 * (0.6 / peak))%Q)
        by (field; lra).
      rewrite E.
      assert (0 <= 0.6 / peak)%Q
        by (apply Qle_shift_div_l; [exact Hlt|lra]).
      nra.
    + intros Hbig Hr. change 1 with (quantize (1 # 32767)).
      apply quantize_mono.
      assert (E : (r0 / peak * 0.6 == (r0 * 0.6) / peak)%Q)
        by (field; lra).
      rewrite E. apply Qle_shift_div_l; [exact Hlt|].
      nra.
  - rewrite (Hzero ltac:(lra)) in Hread. cbn [map] in Hread.
    eexists frames, _, _. split; [exact Hgen|]. split; [exact Hread|].
    split.
    + intros Hneg. change 0 with (quantize 0). apply quantize_mono.
      exact Hneg.
    + intros _ Hr. apply Qabs_Qle_condition in Hr0. lra.
Qed.

(** The deterministic part of the hum is bounded as soon as the sine is. *)
Lemma hum_wave_bound (i : Z) :
  (forall x, (-1 <= sin x)%Q /\ (sin x <= 1)%Q) ->
  (Qabs (hum_wave i) <= 0.9396)%Q.
Proof.
  intros Hsin. unfold hum_wave. cbv zeta.
  set (t := (inject_Z i / inject_Z SAMPLE_RATE)%Q).
  destruct (Hsin (2 * pi * 60 * t)%Q) as [A1 A2].
  destruct (Hsin (2 * pi * 120 * t)%Q) as [B1 B2].
  destruct (Hsin (2 * pi * 180 * t)%Q) as [C1 C2].
  destruct (Hsin (2 * pi * 0.5 * t)%Q) as [D1 D2].
  set (a := sin (2 * pi * 60 * t)%Q) in *.
  set (b := sin (2 * pi * 120 * t)%Q) in *.
  set (c := sin (2 * pi * 180 * t)%Q) in *.
  set (d := sin (2 * pi * 0.5 * t)%Q) in *.
  set (s := (a * 0.5 + b * 0.25 + c * 0.12)%Q).
  set (w := (1.0 + 0.08 * d)%Q).
  assert (Hs : (-0.87 <= s)%Q /\ (s <= 0.87)%Q) by (subst s; split; lra).
  assert (Hw : (0.92 <= w)%Q /\ (w <= 1.08)%Q) by (subst w; split; lra).
  apply Qabs_Qle_condition. destruct Hs, Hw. split; nra.
Qed.

End HumFirstSample.

(** ** The concrete instances *)

Lemma taylor_sin_bound (x : Q) :
  (-1 <= taylor_sin x)%Q /\ (taylor_sin x <= 1)%Q.
Proof.
  unfold taylor_sin.
  set (y := (x - x * x * x / 6)%Q).
  destruct (fmin_cases 1 y) as [[E H]|[E H]]; rewrite E.
  - destruct (fmax_cases (-1) 1) as [[E1 H1]|[E1 H1]]; rewrite E1;
      split; lra.
  - destruct (fmax_cases (-1) y) as [[E2 H2]|[E2 H2]]; rewrite E2;
      split; lra.
Qed.

Lemma lcg_gauss_bound (g : Z) :
  (Qabs (fst (lcg_gauss 0 0.005 g)) <= 0.01)%Q.
Proof.
  unfold lcg_gauss. cbn [fst].
  set (m := (lcg_next g / 65536) mod 2001).
  assert (Hm : 0 <= m < 2001) by (apply Z.mod_pos_bound; lia).
  assert (H1 : (inject_Z (-1000) <= inject_Z (m - 1000))%Q)
    by (rewrite <- Zle_Qle; lia).
  assert (H2 : (inject_Z (m - 1000) <= inject_Z 1000)%Q)
    by (rewrite <- Zle_Qle; lia).
  change (inject_Z (-1000)) with (-1000)%Q in H1.
  change (inject_Z 1000) with 1000%Q in H2.
  apply Qabs_Qle_condition.
  assert (E : (0 + inject_Z (m - 1000) / 500 * 0.005
               == inject_Z (m - 1000) * (1 # 100000))%Q) by field.
  rewrite E. split; lra.
Qed.

Lemma mod_affine (A C x : Z) :
  (A * (x mod 2147483648) + C) mod 2147483648 = (A * x + C) mod 2147483648.
Proof.
  rewrite <- Z.add_mod_idemp_l by lia.
  rewrite Z.mul_mod_idemp_r by lia.
  rewrite Z.add_mod_idemp_l by lia. reflexivity.
Qed.

Lemma mod_coeff (A C g : Z) :
  ((A mod 2147483648) * g + C mod 2147483648) mod 2147483648 =
  (A * g + C) mod 2147483648.
Proof.
  rewrite Z.add_mod_idemp_r by lia.
  rewrite <- Z.add_mod_idemp_l by lia.
  rewrite Z.mul_mod_idemp_l by lia.
  rewrite Z.add_mod_idemp_l by lia. reflexivity.
Qed.

(** [lcg_jump n] is [n] steps of the generator. *)
Lemma lcg_jump_ok (n : positive) :
  forall g,
    Nat.iter (Pos.to_nat n) lcg_next g =
    (fst (lcg_jump n) * g + snd (lcg_jump n)) mod 2147483648.
Proof.
  assert (Hdouble : forall (k : nat) A C,
            (forall g, Nat.iter k lcg_next g = (A * g + C) mod 2147483648) ->
            forall g,
              Nat.iter (k + k) lcg_next g =
              (((A * A) mod 2147483648) * g
               + (A * C + C) mod 2147483648) mod 2147483648).
  { intros k A C Hk g. rewrite Nat.iter_add, !Hk.
    rewrite mod_affine, mod_coeff. f_equal. ring. }
  induction n as [n IH|n IH|]; intros g.
  - rewrite Pos2Nat.inj_xI. cbn [lcg_jump].
    destruct (lcg_jump n) as [A C]. cbn [fst snd] in *.
    replace (S (2 * Pos.to_nat n))
      with (1 + (Pos.to_nat n + Pos.to_nat n))%nat by lia.
    rewrite Nat.iter_add, (Hdouble _ A C IH).
    change (Nat.iter 1 lcg_next ?x) with (lcg_next x). unfold lcg_next.
    rewrite (Z.mul_comm _ 1103515245), mod_affine, mod_coeff.
    f_equal. ring.
  - rewrite Pos2Nat.inj_xO. cbn [lcg_jump].
    destruct (lcg_jump n) as [A C]. cbn [fst snd] in *.
    replace (2 * Pos.to_nat n)%nat with (Pos.to_nat n + Pos.to_nat n)%nat
      by lia.
    apply (Hdouble _ A C IH).
  - change (Nat.iter (Pos.to_nat 1) lcg_next g) with (lcg_next g).
    unfold lcg_next. cbn [lcg_jump fst snd]. f_equal. ring.
Qed.

Lemma lcg_gauss_state (k : nat) (g : Z) :
  gauss_state (R := lcg_random) 0 0.005 k g = Nat.iter k lcg_next g.
Proof.
  induction k as [|k IH]; [reflexivity|].
  cbn [gauss_state Nat.iter]. rewrite IH. reflexivity.
Qed.

Lemma lcg_hum_bound (g : Z) (i : Z) :
  (Qabs (hum_wave (L := taylor_math) i
         + gauss_draw (R := lcg_random) 0 0.005 g (Z.to_nat i))
   <= 0.9496)%Q.
Proof.
  pose proof (hum_wave_bound (L := taylor_math) i taylor_sin_bound) as Hw.
  set (w := hum_wave (L := taylor_math) i) in *.
  set (d := gauss_draw (R := lcg_random) 0 0.005 g (Z.to_nat i)).
  assert (Hd : (Qabs d <= 0.01)%Q).
  { exact (lcg_gauss_bound
             (gauss_state (R := lcg_random) 0 0.005 (Z.to_nat i) g)). }
  apply Qabs_Qle_condition in Hw. apply Qabs_Qle_condition in Hd.
  apply Qabs_Qle_condition. split; lra.
Qed.

(** * The properties of the specification *)

(** ** Determinism *)

Lemma flat_map_ext_In {A B} (f g : A -> list B) (l : list A) :
  (forall a, In a l -> f a = g a) -> flat_map f l = flat_map g l.
Proof.
  induction l as [|a l IH]; intros H; [reflexivity|]. cbn [flat_map].
  rewrite (H a) by (left; reflexivity). rewrite IH; [reflexivity|].
  intros b Hb. apply H. right. exact Hb.
Qed.

Lemma image_data_ext {P} (a b : image P) :
  width a = width b -> height a = height b ->
  (forall x y, 0 <= x < width a -> 0 <= y < height a ->
     px a x y = px b x y) ->
  image_data a = image_data b.
Proof.
  intros Hw Hh Hpx. unfold image_data. rewrite <- Hw, <- Hh.
  apply flat_map_ext_In. intros y Hy. apply range_In in Hy.
  apply map_ext_in. intros x Hx. apply range_In in Hx.
  apply Hpx; lia.
Qed.

Ltac seeded :=
  apply blind_deterministic; cbv zeta;
  repeat first [ apply blind_seed | apply blind_bind; cbv zeta ].

Section Determinism.
Context {R : Random} {D : Pillow} {L : MathLib}.

Lemma jitter_generator_deterministic (jitter : Z -> Z -> rgb -> rgb)
    (body : Z -> Z -> image rgb -> M (image rgb)) (drawn : image rgb) :
  width drawn = SIZE -> height drawn = SIZE ->
  (forall y x img g, exists g',
     body y x img g = Ok (putpixel img x y (jitter x y (px img x y)), g') \/
     (body y x img g = Ok (img, g) /\
      jitter x y (px img x y) = px img x y /\ g' = g)) ->
  deterministic
    (bind (for2 0 SIZE 0 SIZE body drawn) (fun img => ret (image_data img))).
Proof.
  intros Hw Hh Hb g1 g2.
  destruct (jitter_pass jitter body drawn g1 Hb)
    as (i1 & s1 & Hr1 & Hw1 & Hh1 & Hp1).
  destruct (jitter_pass jitter body drawn g2 Hb)
    as (i2 & s2 & Hr2 & Hw2 & Hh2 & Hp2).
  unfold bind, ret. rewrite Hr1, Hr2. cbn [output]. f_equal.
  apply image_data_ext; [congruence|congruence|].
  intros x y Hx Hy. rewrite Hp1, Hp2 by lia. reflexivity.
Qed.

(** Every generator that seeds the random module before it draws writes
    the same buffer whatever state it is entered with. *)
Lemma seeded_generators_deterministic :
  deterministic gen_nukage_sizzle /\
  deterministic gen_barrel /\
  deterministic gen_computer_panel /\
  deterministic gen_tech_column /\
  deterministic gen_brown_brick /\
  deterministic gen_brown_stone_floor /\
  deterministic gen_gray_concrete /\
  deterministic gen_gray_tile_floor /\
  deterministic gen_dark_teal_metal /\
  deterministic gen_tan_walkway /\
  deterministic gen_blue_tech_panel /\
  deterministic gen_tech_floor /\
  deterministic gen_green_stone /\
  deterministic gen_ceiling_panel.
Proof.
  repeat apply conj.
  - unfold gen_nukage_sizzle, nukage_sizzle_samples, nukage_faded,
      nukage_layers. seeded.
  - unfold gen_barrel. apply blind_deterministic, blind_bind.
    unfold barrel_image.
    exact (blind_pure_seed barrel_drawn 111
             (fun img _ => for2 0 48 0 32 (sprite_noise_pixel 8) img)
             pure_barrel_drawn).
  - unfold gen_computer_panel, computer_panel_image, panel_text. seeded.
  - unfold gen_tech_column. apply blind_deterministic, blind_bind.
    unfold tech_column_image.
    exact (blind_pure_seed tech_column_drawn 333
             (fun img _ => for2 0 64 0 24 (sprite_noise_pixel 5) img)
             pure_tech_column_drawn).
  - unfold gen_brown_brick, brown_brick_image. cbv zeta.
    apply (jitter_generator_deterministic brick_jitter (brick_noise_pixel 16 32 (60, 40, 25)) brown_brick_drawn);
      [reflexivity|reflexivity|]. intros. apply brick_noise_pixel_eq.
  - unfold gen_brown_stone_floor, brown_stone_floor_image. seeded.
  - unfold gen_gray_concrete, gray_concrete_image. seeded.
  - unfold gen_gray_tile_floor, gray_tile_floor_image. cbv zeta.
    apply (jitter_generator_deterministic tile_jitter (tile_noise_pixel 32 (65, 68, 70)) gray_tile_floor_drawn);
      [reflexivity|reflexivity|]. intros. apply tile_noise_pixel_eq.
  - unfold gen_dark_teal_metal, dark_teal_metal_image. seeded.
  - unfold gen_tan_walkway, tan_walkway_image. seeded.
  - unfold gen_blue_tech_panel, blue_tech_panel_image. seeded.
  - unfold gen_tech_floor, tech_floor_image. seeded.
  - unfold gen_green_stone, green_stone_image. seeded.
  - unfold gen_ceiling_panel, ceiling_panel_image. seeded.
Qed.

End Determinism.

(** C1 (the part that fails). [gen_computer_hum] never seeds the random
    module, so it is not deterministic: run twice in a row on the concrete
    generator, from the state [random.seed(1234)] leaves, it returns two
    buffers that differ already in their first frame, which is positive in
    the first run and not in the second. *)
Theorem computer_hum_not_repeatable :
  exists o1 o2 g' q1 q2,
    run_twice (gen_computer_hum (R := lcg_random) (L := taylor_math))
      (seed (Random := lcg_random) 1234)
    = Ok ((o1, o2), g') /\
    head (read_frames o1) = Some q1 /\
    head (read_frames o2) = Some q2 /\
    q2 <= 0 < q1 /\
    o1 <> o2.
Proof.
  change (seed (Random := lcg_random) 1234) with 1234.
  destruct (hum_first_frame (R := lcg_random) (L := taylor_math) 1234 0.9496)
    as (o1 & q1 & rest1 & Hrun1 & Hread1 & _ & Hq1).
  { intros i _. apply lcg_hum_bound. }
  assert (Hstate : gauss_state (R := lcg_random) 0 0.005 (Z.to_nat 44100) 1234
                   = 1227324126).
  { rewrite lcg_gauss_state.
    replace (Z.to_nat 44100) with (Pos.to_nat 44100) by reflexivity.
    rewrite lcg_jump_ok. vm_compute. reflexivity. }
  rewrite Hstate in Hrun1.
  destruct (hum_first_frame (R := lcg_random) (L := taylor_math)
              1227324126 0.9496)
    as (o2 & q2 & rest2 & Hrun2 & Hread2 & Hq2 & _).
  { intros i _. apply lcg_hum_bound. }
  exists o1, o2,
    (gauss_state (R := lcg_random) 0 0.005 (Z.to_nat 44100) 1227324126),
    q1, q2.
  split.
  { unfold run_twice, bind. rewrite Hrun1, Hrun2. reflexivity. }
  rewrite Hread1, Hread2. split; [reflexivity|]. split; [reflexivity|].
  assert (H1 : 1 <= q1).
  { apply Hq1; vm_compute; [discriminate|reflexivity]. }
  assert (H2 : q2 <= 0).
  { apply Hq2. vm_compute. discriminate. }
  split; [lia|].
  intros ->. rewrite Hread1 in Hread2. injection Hread2 as -> _. lia.
Qed.

(** ** The audio clips *)

Section AudioTheorems.
Context {R : Random} {L : MathLib}.

(** C3 (amended). The brown-noise layer of [gen_nukage_sizzle] keeps a
    running value that starts at 0 and is updated per sample by
    [value = (value + gaussian(0, 0.02)) * 0.998]: the draw is added first
    and the decay is applied to the sum.  Sample [k] receives 0.4 times the
    value after pass [k]. *)
Theorem brown_noise_recurrence :
  let n := Z.to_nat 66150 in
  let init := replicate n 0%Q in
  exists out,
    brown_noise 66150 init (seed 1234)
    = Ok (out, gauss_state 0 0.02 n (seed 1234)) /\
    brown_layer_follows brown_step n init (seed 1234) out /\
    (forall value d, brown_step value d = ((value + d) * 0.998)%Q).
Proof.
  intros n init.
  destruct (brown_noise_correct n init (seed 1234)) as (out & Hrun & Hf).
  { apply length_replicate. }
  exists out. split; [|split; [exact Hf|reflexivity]].
  replace 66150 with (Z.of_nat n) by (subst n; lia). exact Hrun.
Qed.

(** C6. In [gen_nukage_sizzle] the first [fade_len = int(0.05 * 22050)]
    samples are crossfaded with the last [fade_len] ones,
    [out[i] = in[i]*f + in[N - fade_len + i]*(1 - f)] with
    [f = i / fade_len], the tail is cut, and the buffer that remains has
    [int(22050 * 3.0) - fade_len] samples. *)
Theorem nukage_crossfade_and_trim (g : rng) :
  let n_samples := int (inject_Z SAMPLE_RATE * 3.0) in
  let fade_len := int (0.05 * inject_Z SAMPLE_RATE) in
  exists layered g1 out,
    nukage_layers 3.0 n_samples g = Ok (layered, g1) /\
    nukage_faded g = Ok (out, g1) /\
    Z.of_nat (length out) = n_samples - fade_len /\
    (forall i, 0 <= i < fade_len ->
       exists a b,
         layered !! Z.to_nat i = Some a /\
         layered !! Z.to_nat (n_samples - fade_len + i) = Some b /\
         out !! Z.to_nat i =
           Some (a * (inject_Z i / inject_Z fade_len)
                 + b * (1 - inject_Z i / inject_Z fade_len))%Q) /\
    (forall i, fade_len <= i < n_samples - fade_len ->
       out !! Z.to_nat i = layered !! Z.to_nat i).
Proof.
  change (int (inject_Z SAMPLE_RATE * 3.0)) with 66150.
  change (int (0.05 * inject_Z SAMPLE_RATE)) with 1102.
  cbv zeta.
  destruct (nukage_faded_correct g)
    as (layered & g1 & out & Hlay & _ & Hf & Hlen & Hlo & Hhi).
  exists layered, g1, out.
  split; [exact Hlay|]. split; [exact Hf|]. split; [exact Hlen|].
  split; [exact Hlo|exact Hhi].
Qed.

(** C7. For both audio generators the buffer handed to [write_wav] is the
    raw buffer normalised to the target peak (0.7 for the sizzle, 0.6 for
    the hum).  With [peak] the maximum absolute sample value of the raw
    buffer (no sample exceeds it, one attains it): when [peak] is not
    zero, every sample is scaled by target / peak and the maximum absolute
    sample value of the result is exactly the target; when [peak] is zero
    the buffer is passed on unchanged. *)
Theorem audio_normalized_to_target (g : rng) :
  (exists pre g1 out,
     nukage_faded g = Ok (pre, g1) /\
     nukage_sizzle_samples g = Ok (out, g1) /\
     normalized_to 0.7 pre out) /\
  (exists pre g1 out,
     hum_raw g = Ok (pre, g1) /\
     computer_hum_samples g = Ok (out, g1) /\
     normalized_to 0.6 pre out).
Proof.
  split.
  - destruct (nukage_sizzle_samples_correct g)
      as (pre & g1 & out & H1 & H2 & H3 & _).
    exists pre, g1, out. auto.
  - destruct (computer_hum_samples_correct g)
      as (pre & g1 & out & H1 & H2 & H3 & _).
    exists pre, g1, out. auto.
Qed.

Lemma small_sample_unclamped (t s : Q) :
  (t < 1)%Q -> (Qabs s <= t)%Q -> (Qabs s <= t)%Q /\ clamp_sample s = s.
Proof.
  intros Ht Hs. split; [exact Hs|].
  apply Qabs_Qle_condition in Hs. apply clamp_sample_id; lra.
Qed.

(** C10. For both audio generators every sample of the buffer passed to
    [write_wav] has absolute value at most 0.7, so the clamp inside
    [write_wav] returns it unchanged. *)
Theorem write_wav_clamp_is_identity (g : rng) :
  (exists samples g1 frames,
     nukage_sizzle_samples g = Ok (samples, g1) /\
     gen_nukage_sizzle g = Ok (frames, g1) /\
     Forall (fun s => (Qabs s <= 0.7)%Q /\ clamp_sample s = s) samples) /\
  (exists samples g1 frames,
     computer_hum_samples g = Ok (samples, g1) /\
     gen_computer_hum g = Ok (frames, g1) /\
     Forall (fun s => (Qabs s <= 0.7)%Q /\ clamp_sample s = s) samples).
Proof.
  split.
  - destruct (nukage_sizzle_samples_correct g)
      as (pre & g1 & out & _ & Hs & _ & Hb).
    eexists out, g1, _. split; [exact Hs|]. split.
    + unfold gen_nukage_sizzle, bind. rewrite Hs. unfold lift.
      rewrite write_wav_ok. reflexivity.
    + apply Forall_forall. intros s Hin. apply list_elem_of_In in Hin.
      apply (small_sample_unclamped 0.7); [reflexivity|apply Hb, Hin].
  - destruct (computer_hum_samples_correct g)
      as (pre & g1 & out & _ & Hs & _ & Hb).
    eexists out, g1, _. split; [exact Hs|]. split.
    + unfold gen_computer_hum, bind. rewrite Hs. unfold lift.
      rewrite write_wav_ok. reflexivity.
    + apply Forall_forall. intros s Hin. apply list_elem_of_In in Hin.
      apply (small_sample_unclamped 0.7); [reflexivity|].
      specialize (Hb s Hin). lra.
Qed.

End AudioTheorems.

(** C3 (as stated). With the recurrence [value = value*0.998 + draw] the
    layer would give another first sample than the code does: on the
    concrete generator the claim fails at sample 0. *)
Lemma brown_noise_not_spec_recurrence :
  ~ exists out g',
      brown_noise (R := lcg_random) 66150 (replicate (Z.to_nat 66150) 0%Q)
        (seed (Random := lcg_random) 1234) = Ok (out, g') /\
      brown_layer_follows (R := lcg_random) spec_brown_step (Z.to_nat 66150)
        (replicate (Z.to_nat 66150) 0%Q) (seed (Random := lcg_random) 1234)
        out.
Proof.
  intros (out & g' & Hrun & _ & Hspec).
  destruct (brown_noise_correct (R := lcg_random) (Z.to_nat 66150)
              (replicate (Z.to_nat 66150) 0%Q)
              (seed (Random := lcg_random) 1234))
    as (out' & Hrun' & _ & Hcode); [apply length_replicate|].
  replace (Z.of_nat (Z.to_nat 66150)) with 66150 in Hrun' by lia.
  assert (E : out' = out).
  { rewrite Hrun in Hrun'.
    exact (f_equal (fun r => match r with
                             | Ok (o, _) => o
                             | Raise _ => out
                             end) (eq_sym Hrun')). }
  subst out'.
  assert (H0 : (0 < Z.to_nat 66150)%nat) by lia.
  destruct (Hspec O H0) as (s & Hs & Ho).
  destruct (Hcode O H0) as (s' & Hs' & Ho').
  rewrite Hs in Hs'. injection Hs' as <-.
  apply lookup_replicate in Hs. destruct Hs as [-> _].
  rewrite Ho in Ho'.
  apply (f_equal (fun o => match o with
                           | Some q => Qnum q
                           | None => 0
                           end)) in Ho'.
  vm_compute in Ho'. discriminate Ho'.
Qed.

(** ** The sprites *)

(** What the noise pass makes of the three colours of the glow. *)
Lemma noised_glow_band (p p' : rgba) :
  noised 8 p p' ->
  (p = (80, 200, 50, 255) -> in_glow_band p') /\
  (p = (30, 120, 20, 255) \/ p = (60, 180, 40, 255) ->
   ~ in_glow_band p' /\ alpha p' = 255).
Proof.
  intros Hn. split.
  - intros ->. cbn in Hn.
    destruct Hn as [[Ha _]|[_ (v & Hv & ->)]]; [lia|].
    unfold in_glow_band. lia.
  - intros [-> | ->]; cbn in Hn;
      (destruct Hn as [[Ha _]|[_ (v & Hv & ->)]]; [lia|]);
      (split; [unfold in_glow_band; lia|reflexivity]).
Qed.

Section SpriteTheorems.
Context {R : Random} {D : Pillow}.

Lemma column_shade_pass (img : image rgba) (g : rng) :
  exists img' g',
    for2 2 62 4 20 (column_shade_pixel 4 19) img g = Ok (img', g') /\
    width img' = width img /\ height img' = height img /\
    (forall x y, 4 <= x < 20 -> 2 <= y < 62 ->
       shaded (column_shade 4 19 x) false (px img x y) (px img' x y)) /\
    (forall x y, ~ (4 <= x < 20 /\ 2 <= y < 62) ->
       px img' x y = px img x y).
Proof.
  destruct (for2_owned (fun y x => (x, y))
              (fun x _ => shaded (column_shade 4 19 x) false)
              (column_shade_pixel 4 19) 2 62 4 20 img g)
    as (img' & g' & Hrun & Hw & Hh & Hown & Hrest).
  - intros a b a' b' [= -> ->]. auto.
  - intros y Hy x Hx. apply column_shade_step.
  - exists img', g'. split; [exact Hrun|].
    split; [exact Hw|]. split; [exact Hh|]. split.
    + intros x y Hx Hy. apply (Hown y x Hy Hx).
    + intros x y Hout. apply Hrest. intros a' b' Ha' Hb' [= <- <-].
      apply Hout. lia.
Qed.

(** C5. The shading passes of [gen_barrel] and [gen_tech_column] and the
    noise pass they share never modify a pixel whose alpha is 0, whatever
    image they are run on; so every pixel the drawing steps of a sprite
    leave transparent is unchanged in the image that is saved, and the four
    corners (0,0), (31,0), (0,47), (31,47) of the barrel have alpha 0. *)
Theorem transparent_pixels_stay_transparent (img : image rgba) (g : rng) :
  (exists img' g',
     for2 4 28 6 45 (barrel_shade_pixel 4 27) img g = Ok (img', g') /\
     forall x y, alpha (px img x y) = 0 -> px img' x y = px img x y) /\
  (exists img' g',
     for2 2 62 4 20 (column_shade_pixel 4 19) img g = Ok (img', g') /\
     forall x y, alpha (px img x y) = 0 -> px img' x y = px img x y) /\
  (exists img' g',
     for2 0 48 0 32 (sprite_noise_pixel 8) img g = Ok (img', g') /\
     forall x y, alpha (px img x y) = 0 -> px img' x y = px img x y) /\
  (exists img' g',
     for2 0 64 0 24 (sprite_noise_pixel 5) img g = Ok (img', g') /\
     forall x y, alpha (px img x y) = 0 -> px img' x y = px img x y) /\
  (exists drawn final g',
     barrel_drawn g = Ok (drawn, g) /\
     barrel_image g = Ok (final, g') /\
     (forall x y, alpha (px drawn x y) = 0 -> px final x y = px drawn x y) /\
     alpha (px final 0 0) = 0 /\ alpha (px final 31 0) = 0 /\
     alpha (px final 0 47) = 0 /\ alpha (px final 31 47) = 0) /\
  (exists drawn final g',
     tech_column_drawn g = Ok (drawn, g) /\
     tech_column_image g = Ok (final, g') /\
     (forall x y, alpha (px drawn x y) = 0 -> px final x y = px drawn x y)).
Proof.
  assert (Hc : forall a b c d x y : Z,
            (a <= x < b /\ c <= y < d) \/ ~ (a <= x < b /\ c <= y < d))
    by (intros; lia).
  split; [|split; [|split; [|split; [|split]]]].
  - destruct (barrel_shade_pass img g) as (img' & Hrun & _ & _ & Hown & Hrest).
    exists img', g. split; [exact Hrun|]. intros x y Ha.
    destruct (Hc 4 28 6 45 x y) as [[Hx Hy]|Hout].
    + eapply shaded_transparent; [apply (Hown x y Hx Hy)|exact Ha].
    + apply Hrest, Hout.
  - destruct (column_shade_pass img g)
      as (img' & g' & Hrun & _ & _ & Hown & Hrest).
    exists img', g'. split; [exact Hrun|]. intros x y Ha.
    destruct (Hc 4 20 2 62 x y) as [[Hx Hy]|Hout].
    + eapply shaded_transparent; [apply (Hown x y Hx Hy)|exact Ha].
    + apply Hrest, Hout.
  - destruct (sprite_noise_pass_transparent 8 32 48 img g ltac:(lia))
      as (img' & g' & Hrun & _ & Hkeep).
    exists img', g'. split; [exact Hrun|exact Hkeep].
  - destruct (sprite_noise_pass_transparent 5 24 64 img g ltac:(lia))
      as (img' & g' & Hrun & _ & Hkeep).
    exists img', g'. split; [exact Hrun|exact Hkeep].
  - destruct (barrel_image_facts g)
      as (drawn & final & g' & Hd & Hf & _ & _ & _ & Hal & Hkeep & _).
    destruct (barrel_drawn_facts g)
      as (drawn' & Hd' & _ & _ & _ & (C1 & C2 & C3 & C4) & _).
    assert (E : drawn' = drawn).
    { rewrite Hd in Hd'.
      exact (f_equal (fun r => match r with
                               | Ok (i, _) => i
                               | Raise _ => drawn'
                               end) (eq_sym Hd')). }
    subst drawn'.
    exists drawn, final, g'. split; [exact Hd|]. split; [exact Hf|].
    split; [exact Hkeep|].
    rewrite !Hal, C1, C2, C3, C4. repeat apply conj; reflexivity.
  - destruct (tech_column_image_facts g)
      as (drawn & final & g' & Hd & Hf & _ & Hkeep & _).
    exists drawn, final, g'. split; [exact Hd|]. split; [exact Hf|exact Hkeep].
Qed.

(** The glow of the barrel before the noise pass: inside the inner
    rectangle, a pixel has the colour of the inner ellipse where that
    covers it, else the colour of the outer ellipse where that covers it,
    else the colour of the rectangle. *)
Lemma barrel_glow_pixel (g : rng) :
  exists drawn,
    barrel_drawn g = Ok (drawn, g) /\
    forall x y, 11 <= x <= 19 -> 22 <= y <= 28 ->
      px drawn x y =
      if ellipse_fill (14, 24, 16, 26) x y then (80, 200, 50, 255)
      else if ellipse_fill (12, 22, 18, 28) x y then (30, 120, 20, 255)
      else (60, 180, 40, 255).
Proof.
  unfold barrel_drawn. cbv zeta.
  match goal with
  | |- context [for2 _ _ _ _ _ ?img0] =>
      destruct (barrel_shade_pass img0 g)
        as (img1 & Hrun & Hw & Hh & _ & _)
  end.
  eexists. split.
  { unfold bind at 1. change (27 + 1) with 28. change (44 + 1) with 45.
    rewrite Hrun. reflexivity. }
  intros x y Hx Hy.
  cbn [fold_left]. unfold ellipse_outlined, ellipse, rectangle.
  change ((4 + 27) / 2) with 15. change ((6 + 44) / 2) with 25.
  change (15 - 1) with 14. change (25 - 1) with 24.
  change (15 + 1) with 16. change (25 + 1) with 26.
  change (15 - 3) with 12. change (25 - 3) with 22.
  change (15 + 3) with 18. change (25 + 3) with 28.
  assert (Hlid : in_box (4 + 1, 6 - 3, 27 - 1, 6 + 3) x y = false).
  { destruct (in_box (4 + 1, 6 - 3, 27 - 1, 6 + 3) x y) eqn:E;
      [|reflexivity].
    apply in_box_true in E. lia. }
  rewrite px_paint_out
    by (apply not_in_box; [apply ellipse_outline_inside|exact Hlid]).
  rewrite px_paint_out
    by (apply not_in_box; [apply ellipse_fill_inside|exact Hlid]).
  assert (Hcanvas : forall img : image rgba,
            width img = 32 -> height img = 48 -> in_canvas img x y = true).
  { intros img Hw' Hh'. apply (in_canvas_size img 32 48); [exact Hw'|exact Hh'|lia|lia]. }
  destruct (ellipse_fill (14, 24, 16, 26) x y) eqn:E1.
  { rewrite px_paint_in; [reflexivity| |exact E1].
    apply Hcanvas; cbn [width height paint]; assumption. }
  rewrite px_paint_out by exact E1.
  destruct (ellipse_fill (12, 22, 18, 28) x y) eqn:E2.
  { rewrite px_paint_in; [reflexivity| |exact E2].
    apply Hcanvas; cbn [width height paint]; assumption. }
  rewrite px_paint_out by exact E2.
  rewrite px_paint_in; [reflexivity| |].
  - apply Hcanvas; cbn [width height paint]; assumption.
  - apply in_box_true. lia.
Qed.

(** The pixels in the middle of the saved barrel. *)
Lemma barrel_centre_pixels (g : rng) :
  exists final g',
    barrel_image g = Ok (final, g') /\
    in_glow_band (px final 15 25) /\
    alpha (px final 16 24) = 255 /\
    (in_glow_band (px final 16 24) <->
     ellipse_fill (14, 24, 16, 26) 16 24 = true) /\
    (forall x, 15 <= x <= 16 -> ~ in_glow_band (px final x 23)).
Proof.
  destruct (barrel_image_facts g)
    as (drawn & final & g' & Hd & Hf & _ & _ & Hn & _).
  destruct (barrel_drawn_facts g) as (drawn' & Hd' & _ & _ & Hmid & _).
  destruct (barrel_glow_pixel g) as (drawn'' & Hd'' & Hglow).
  assert (E : drawn' = drawn).
  { rewrite Hd in Hd'.
    exact (f_equal (fun r => match r with
                             | Ok (i, _) => i
                             | Raise _ => drawn'
                             end) (eq_sym Hd')). }
  assert (E' : drawn'' = drawn).
  { rewrite Hd in Hd''.
    exact (f_equal (fun r => match r with
                             | Ok (i, _) => i
                             | Raise _ => drawn''
                             end) (eq_sym Hd'')). }
  subst drawn' drawn''.
  exists final, g'. split; [exact Hf|].
  assert (Hdark : forall x y, 11 <= x <= 19 -> 22 <= y <= 28 ->
            ellipse_fill (14, 24, 16, 26) x y = false ->
            ~ in_glow_band (px final x y) /\ alpha (px final x y) = 255).
  { intros x y Hx Hy E1.
    apply (noised_glow_band (px drawn x y)); [apply Hn; lia|].
    rewrite (Hglow x y Hx Hy), E1.
    destruct (ellipse_fill (12, 22, 18, 28) x y); auto. }
  assert (Hlit : forall x y, 11 <= x <= 19 -> 22 <= y <= 28 ->
            ellipse_fill (14, 24, 16, 26) x y = true ->
            in_glow_band (px final x y)).
  { intros x y Hx Hy E1.
    apply (noised_glow_band (px drawn x y)); [apply Hn; lia|].
    rewrite (Hglow x y Hx Hy), E1. reflexivity. }
  split; [|split; [|split]].
  - apply (noised_glow_band (px drawn 15 25)); [apply Hn; lia|exact Hmid].
  - destruct (ellipse_fill (14, 24, 16, 26) 16 24) eqn:E1.
    + pose proof (Hlit 16 24 ltac:(lia) ltac:(lia) E1) as Hb.
      unfold in_glow_band in Hb.
      destruct (px final 16 24) as [[[r gr] b] a]. cbn. tauto.
    + apply (Hdark 16 24); [lia|lia|exact E1].
  - split.
    + intros Hb. destruct (ellipse_fill (14, 24, 16, 26) 16 24) eqn:E1;
        [reflexivity|].
      exfalso. apply (Hdark 16 24 ltac:(lia) ltac:(lia) E1). exact Hb.
    + intros E1. apply Hlit; [lia|lia|exact E1].
  - intros x Hx. apply (Hdark x 23); [lia|lia|].
    apply not_in_box; [apply ellipse_fill_inside|].
    destruct (in_box (14, 24, 16, 26) x 23) eqn:E; [|reflexivity].
    apply in_box_true in E. lia.
Qed.

(** C9 (amended). The glow of the barrel is centred on the body, at
    [(mid_x, mid_y) = ((4 + 27) // 2, (6 + 44) // 2) = (15, 25)], not on
    the 32 by 48 canvas.  The saved pixel at [(mid_x, mid_y)] is opaque
    with colour channels within 8 of (80, 200, 50).  The pixel at the
    centre [(32 // 2, 48 // 2) = (16, 24)] of the canvas is opaque too, but
    it is a corner of the bounding box of the inner ellipse: it lies in
    the band exactly when the rasteriser fills that corner, and the two
    middle pixels of the row above it never do. *)
Theorem barrel_centre_in_glow_band (g : rng) :
  exists final g',
    barrel_image g = Ok (final, g') /\
    in_glow_band (px final ((4 + 27) / 2) ((6 + 44) / 2)) /\
    alpha (px final (32 / 2) (48 / 2)) = 255 /\
    (in_glow_band (px final (32 / 2) (48 / 2)) <->
     ellipse_fill (14, 24, 16, 26) (32 / 2) (48 / 2) = true) /\
    (forall x, 15 <= x <= 16 ->
       ~ in_glow_band (px final x (48 / 2 - 1))).
Proof. exact (barrel_centre_pixels g). Qed.

(** C4 (amended). The image [gen_computer_panel] saves is 48 by 48 and is
    opaque exactly on the casing rectangle [2 <= x <= 45], [2 <= y <= 45];
    the two-pixel border around it keeps the alpha 0 of the initial
    canvas. *)
Theorem computer_panel_opaque_on_casing (g : rng) :
  exists img g',
    computer_panel_image g = Ok (img, g') /\
    width img = 48 /\ height img = 48 /\
    forall x y,
      (2 <= x <= 45 /\ 2 <= y <= 45 -> alpha (px img x y) = 255) /\
      (~ (2 <= x <= 45 /\ 2 <= y <= 45) -> alpha (px img x y) = 0).
Proof.
  destruct (computer_panel_image_facts g)
    as (img & g' & Hrun & Hw & Hh & Ha & _).
  exists img, g'. split; [exact Hrun|]. split; [exact Hw|].
  split; [exact Hh|exact Ha].
Qed.

End SpriteTheorems.

(** C9 (as stated). On the concrete rasteriser, whose ellipse of three by
    three pixels is the cross of five pixels around its middle, the pixel
    at the centre (16, 24) of the canvas of the saved barrel is not in the
    band of the inner glow. *)
Lemma barrel_canvas_centre_not_in_glow_band :
  ~ exists final g',
      barrel_image (R := lcg_random) (D := raster_pillow)
        (seed (Random := lcg_random) 111) = Ok (final, g') /\
      in_glow_band (px final (32 / 2) (48 / 2)).
Proof.
  intros (final & g' & Hrun & Hband).
  destruct (barrel_centre_pixels (R := lcg_random) (D := raster_pillow)
              (seed (Random := lcg_random) 111))
    as (final' & g'' & Hrun' & _ & _ & Hiff & _).
  assert (E : final' = final).
  { rewrite Hrun in Hrun'.
    exact (f_equal (fun r => match r with
                             | Ok (i, _) => i
                             | Raise _ => final'
                             end) (eq_sym Hrun')). }
  subst final'. apply Hiff in Hband. discriminate Hband.
Qed.

(** C4 (as stated). On the concrete rasteriser and generator the corner
    pixel (0, 0) of the saved terminal is inside the 48 by 48 canvas and
    has alpha 0: the image is not fully opaque. *)
Lemma computer_panel_not_fully_opaque :
  ~ (forall img g',
       computer_panel_image (R := lcg_random) (D := raster_pillow)
         (seed (Random := lcg_random) 222) = Ok (img, g') ->
       forall x y, 0 <= x < 48 -> 0 <= y < 48 -> alpha (px img x y) = 255).
Proof.
  intros H.
  destruct (computer_panel_image_facts (R := lcg_random) (D := raster_pillow)
              (seed (Random := lcg_random) 222))
    as (img & g' & Hrun & _ & _ & Ha & _).
  specialize (H img g' Hrun 0 0 ltac:(lia) ltac:(lia)).
  destruct (Ha 0 0) as [_ H0]. rewrite H0 in H by lia. discriminate H.
Qed.

(** ** The textures *)

Section TextureTheorems.
Context {R : Random} {D : Pillow}.


(** C8. For every list of samples [write_wav] returns, and each frame it
    writes is the quantisation of a sample clamped to [-1, 1], an integer
    in [-32767, 32767]; and each of the thirteen image generators returns a
    pixel buffer whose channels all lie in [0, 255]. *)
Theorem quantized_samples_and_channels_in_range (g : rng) :
  (forall samples : list Q,
     write_wav samples =
     Ok (flat_map
           (fun s => [quantize s mod 256; (quantize s / 256) mod 256])
           samples) /\
     Forall (fun s => (-1 <= clamp_sample s <= 1)%Q /\
                      quantize s = int (clamp_sample s * 32767) /\
                      -32767 <= quantize s <= 32767) samples) /\
  (exists out g', gen_barrel g = Ok (out, g') /\ Forall rgba_ok out) /\
  (exists out g', gen_computer_panel g = Ok (out, g') /\ Forall rgba_ok out) /\
  (exists out g', gen_tech_column g = Ok (out, g') /\ Forall rgba_ok out) /\
  (exists out g', gen_brown_brick g = Ok (out, g') /\ Forall rgb_ok out) /\
  (exists out g', gen_brown_stone_floor g = Ok (out, g') /\ Forall rgb_ok out) /\
  (exists out g', gen_gray_concrete g = Ok (out, g') /\ Forall rgb_ok out) /\
  (exists out g', gen_gray_tile_floor g = Ok (out, g') /\ Forall rgb_ok out) /\
  (exists out g', gen_dark_teal_metal g = Ok (out, g') /\ Forall rgb_ok out) /\
  (exists out g', gen_tan_walkway g = Ok (out, g') /\ Forall rgb_ok out) /\
  (exists out g', gen_blue_tech_panel g = Ok (out, g') /\ Forall rgb_ok out) /\
  (exists out g', gen_tech_floor g = Ok (out, g') /\ Forall rgb_ok out) /\
  (exists out g', gen_green_stone g = Ok (out, g') /\ Forall rgb_ok out) /\
  (exists out g', gen_ceiling_panel g = Ok (out, g') /\ Forall rgb_ok out).
Proof.
  split.
  { intros samples. split; [apply write_wav_ok|].
    apply Forall_forall. intros s _.
    split; [apply clamp_sample_range|]. split; [reflexivity|].
    apply quantize_range. }
  repeat apply conj.
  - unfold gen_barrel. apply (saved_ok rgba_ok).
    destruct (barrel_image_facts g)
      as (drawn & final & g' & _ & Hf & _ & _ & _ & _ & _ & Hok).
    exists final, g'. split; [exact Hf|exact Hok].
  - unfold gen_computer_panel. apply (saved_ok rgba_ok).
    destruct (computer_panel_image_facts g)
      as (img & g' & Hrun & _ & _ & _ & Hok).
    exists img, g'. split; [exact Hrun|exact Hok].
  - unfold gen_tech_column. apply (saved_ok rgba_ok).
    destruct (tech_column_image_facts g)
      as (drawn & final & g' & _ & Hf & _ & _ & Hok).
    exists final, g'. split; [exact Hf|exact Hok].
  - unfold gen_brown_brick. apply (saved_ok rgb_ok), brown_brick_image_ok.
  - unfold gen_brown_stone_floor.
    apply (saved_ok rgb_ok), brown_stone_floor_image_ok.
  - unfold gen_gray_concrete. apply (saved_ok rgb_ok), gray_concrete_image_ok.
  - unfold gen_gray_tile_floor.
    apply (saved_ok rgb_ok), gray_tile_floor_image_ok.
  - unfold gen_dark_teal_metal.
    apply (saved_ok rgb_ok), dark_teal_metal_image_ok.
  - unfold gen_tan_walkway. apply (saved_ok rgb_ok), tan_walkway_image_ok.
  - unfold gen_blue_tech_panel.
    apply (saved_ok rgb_ok), blue_tech_panel_image_ok.
  - unfold gen_tech_floor. apply (saved_ok rgb_ok), tech_floor_image_ok.
  - unfold gen_green_stone. apply (saved_ok rgb_ok), green_stone_image_ok.
  - unfold gen_ceiling_panel. apply (saved_ok rgb_ok), ceiling_panel_image_ok.
Qed.

End TextureTheorems.


(** * Further properties of the code *)

(** ** write_wav and the quantiser *)

(** [write_wav] returns for every list of samples, whatever their values;
    it writes two bytes per sample, each in [0, 255], and a reader that
    decodes the frames as 16-bit little-endian integers gets back the
    quantised samples, in order. *)
Theorem write_wav_round_trip (samples : list Q) :
  exists frames,
    write_wav samples = Ok frames /\
    length frames = (2 * length samples)%nat /\
    Forall (fun b => 0 <= b <= 255) frames /\
    read_frames frames = map quantize samples.
Proof.
  rewrite write_wav_ok. eexists. split; [reflexivity|].
  induction samples as [|s rest (IHl & IHb & IHr)].
  - repeat split; constructor.
  - cbn [flat_map app length map read_frames].
    destruct (unpack_pack (quantize s)) as (Hu & Hlo & Hhi).
    { pose proof (quantize_range s). lia. }
    split; [rewrite IHl; lia|]. split.
    + constructor; [exact Hlo|]. constructor; [exact Hhi|exact IHb].
    + rewrite Hu, IHr. reflexivity.
Qed.

(** The quantiser of [write_wav] is odd (a sample and its negation give
    opposite integers, so -32768 is never written), saturates at
    32767 and -32767 outside [-1, 1], and preserves the order of the
    samples. *)
Theorem quantize_odd_saturating_monotone :
  (forall s, quantize (- s) = - quantize s) /\
  (forall s, (1 <= s)%Q -> quantize s = 32767) /\
  (forall s, (s <= -1)%Q -> quantize s = -32767) /\
  (forall s t, (s <= t)%Q -> quantize s <= quantize t).
Proof.
  split; [|split; [|split]].
  - intros s. unfold quantize.
    assert (E : (clamp_sample (- s) * 32767 == - (clamp_sample s * 32767))%Q).
    { destruct (clamp_sample_cases s) as [[-> ?]|[[-> ?]|[-> ?]]];
        destruct (clamp_sample_cases (- s)) as [[-> ?]|[[-> ?]|[-> ?]]];
        lra. }
    rewrite (int_Qeq _ _ E). apply int_opp.
  - intros s Hs. unfold quantize.
    destruct (clamp_sample_cases s) as [[-> ?]|[[-> ?]|[-> ?]]];
      [lra|reflexivity|lra].
  - intros s Hs. unfold quantize.
    destruct (clamp_sample_cases s) as [[-> ?]|[[-> ?]|[-> ?]]];
      [reflexivity|lra|lra].
  - intros s t Hst. unfold quantize. apply int_mono.
    pose proof (clamp_sample_mono s t Hst). lra.
Qed.

(** ** The layers of the sizzle *)

Section SizzleExtras.
Context {R : Random} {L : MathLib}.

(** The [while t < duration] loop of [gen_nukage_sizzle] ends: every pass
    advances [t] by a draw of [uniform(0.08, 0.3)], at least 0.08, so
    [fuel + 1] passes are enough when [duration - t <= 0.08 * fuel]; the
    loop returns a buffer of unchanged length and never indexes outside
    it. *)
Theorem bubble_loop_terminates (n : Z) (duration t : Q) (fuel : nat)
    (samples : list Q) (g : rng) :
  (0 <= t)%Q ->
  (duration - t <= 0.08 * inject_Z (Z.of_nat fuel))%Q ->
  Z.of_nat (length samples) = n ->
  exists out g',
    bubble_pops (S fuel) n duration t samples g = Ok (out, g') /\
    Z.of_nat (length out) = n.
Proof. intros Ht Hf Hn. now apply bubble_pops_total. Qed.

(** One bubble pop changes no sample outside the window
    [pop_start, pop_start + pop_len) and none at or after [n_samples]: a
    pop that would run past the end of the buffer is cut, not wrapped
    around; the random state is not touched. *)
Theorem pop_burst_window (n pop_start pop_len : Z) (freq vol : Q)
    (samples : list Q) (g : rng) :
  0 <= pop_start -> Z.of_nat (length samples) = n ->
  exists out,
    pop_burst n pop_start pop_len freq vol samples g = Ok (out, g) /\
    length out = length samples /\
    forall k : nat,
      ~ (pop_start <= Z.of_nat k < pop_start + pop_len) ->
      out !! k = samples !! k.
Proof.
  intros Hs Hlen. unfold pop_burst.
  destruct (Z.le_gt_cases 0 pop_len) as [Hp|Hp].
  2:{ exists samples. split; [apply for_range_empty; lia|]. auto. }
  match goal with
  | |- context [for_ _ ?body _ _] =>
      destruct (for_range_inv
        (fun (j : Z) (s : list Q) (g' : rng) =>
           g' = g /\ length s = length samples /\
           forall k : nat,
             ~ (pop_start <= Z.of_nat k < pop_start + j) ->
             s !! k = samples !! k)
        body 0 pop_len samples g) as (out & g' & Hrun & -> & Hl & Hk)
  end.
  - exact Hp.
  - split; [reflexivity|]. split; reflexivity.
  - intros j s g1 Hj (-> & Hl & Hk).
    destruct (Z.ltb_spec (pop_start + j) n) as [Hlt|Hge].
    + destruct (lookup_lt_is_Some_2 s (Z.to_nat (pop_start + j)))
        as [x Hx]; [lia|].
      eexists _, g. split.
      * unfold lift. rewrite (add_at_ok s _ x); [reflexivity|lia|exact Hx].
      * split; [reflexivity|]. split; [rewrite length_insert; exact Hl|].
        intros k Hout. rewrite list_lookup_insert_ne by lia.
        apply Hk. lia.
    + exists s, g. split; [reflexivity|]. split; [reflexivity|].
      split; [exact Hl|]. intros k Hout.
      destruct (Z.eq_dec (Z.of_nat k) (pop_start + j)) as [E|E].
      * rewrite !lookup_ge_None_2 by lia. reflexivity.
      * apply Hk. lia.
  - exists out. split; [exact Hrun|]. split; [exact Hl|exact Hk].
Qed.

(** The loop point of the sizzle is seamless: the buffer that is kept ends
    with sample [N - fade_len - 1] of the layered signal, unchanged, and
    starts with a sample equal to sample [N - fade_len] of the layered
    signal, the one that followed it. *)
Theorem sizzle_loop_point (g : rng) :
  exists layered g1 out,
    nukage_layers 3.0 66150 g = Ok (layered, g1) /\
    nukage_faded g = Ok (out, g1) /\
    exists first last next,
      out !! O = Some first /\
      out !! Z.to_nat (66150 - 1102 - 1) = Some last /\
      out !! Z.to_nat (66150 - 1102) = None /\
      layered !! Z.to_nat (66150 - 1102 - 1) = Some last /\
      layered !! Z.to_nat (66150 - 1102) = Some next /\
      (first == next)%Q.
Proof.
  destruct (nukage_faded_correct g)
    as (layered & g1 & out & Hlay & Hll & Hf & Hlen & Hlo & Hhi).
  exists layered, g1, out. split; [exact Hlay|]. split; [exact Hf|].
  destruct (Hlo 0 ltac:(lia)) as (a & b & Ha & Hb & Ho).
  specialize (Hhi (66150 - 1102 - 1) ltac:(lia)).
  destruct (lookup_lt_is_Some_2 layered (Z.to_nat (66150 - 1102 - 1)))
    as [last Hlast]; [lia|].
  exists (crossfade_value 1102 0 a b), last, b.
  split; [exact Ho|]. split; [congruence|].
  split; [apply lookup_ge_None_2; lia|]. split; [exact Hlast|].
  split; [exact Hb|]. unfold crossfade_value. cbv zeta.
  change (inject_Z 0 / inject_Z 1102)%Q with (0 / inject_Z 1102)%Q.
  field.
Qed.

Lemma normalized_to_length (target : Q) (pre out : list Q) :
  normalized_to target pre out -> length out = length pre.
Proof.
  intros (peak & _ & Hpos & Hzero).
  destruct (Qeq_dec peak 0) as [H|H].
  - rewrite Hzero; [reflexivity|exact H].
  - destruct (Hpos H) as [-> _]. apply length_map.
Qed.

(** The size of the two clips: [gen_nukage_sizzle] writes
    [66150 - 1102 = 65048] frames (2.95 s) and [gen_computer_hum] writes
    [44100] frames (2.0 s), two bytes each, whatever the random draws. *)
Theorem audio_clip_sizes (g : rng) :
  (exists frames g',
     gen_nukage_sizzle g = Ok (frames, g') /\
     Z.of_nat (length frames) = 2 * 65048) /\
  (exists frames g',
     gen_computer_hum g = Ok (frames, g') /\
     Z.of_nat (length frames) = 2 * 44100).
Proof.
  assert (Hw : forall samples : list Q,
            exists frames, write_wav samples = Ok frames /\
              length frames = (2 * length samples)%nat).
  { intros samples. rewrite write_wav_ok. eexists. split; [reflexivity|].
    induction samples as [|s rest IH]; [reflexivity|].
    cbn [flat_map app length]. rewrite IH. lia. }
  split.
  - destruct (nukage_sizzle_samples_correct g)
      as (pre & g1 & out & Hpre & Hs & Hn & _).
    destruct (nukage_faded_correct g)
      as (_ & g2 & pre' & _ & _ & Hpre' & Hlen & _).
    assert (E : pre' = pre).
    { rewrite Hpre in Hpre'.
      exact (f_equal (fun r => match r with
                               | Ok (o, _) => o
                               | Raise _ => pre'
                               end) (eq_sym Hpre')). }
    subst pre'. apply normalized_to_length in Hn.
    destruct (Hw out) as (frames & Hf & Hl).
    exists frames, g1. split.
    + unfold gen_nukage_sizzle, bind. rewrite Hs. unfold lift.
      rewrite Hf. reflexivity.
    + rewrite Hl, Hn. lia.
  - destruct (computer_hum_samples_correct g)
      as (pre & g1 & out & Hpre & Hs & Hn & _).
    rewrite hum_raw_stream in Hpre.
    assert (E : pre = fst (hum_stream 0 (Z.to_nat 44100) g)).
    { exact (f_equal (fun r => match r with
                               | Ok (o, _) => o
                               | Raise _ => pre
                               end) (eq_sym Hpre)). }
    apply normalized_to_length in Hn.
    destruct (Hw out) as (frames & Hf & Hl).
    exists frames, g1. split.
    + unfold gen_computer_hum, bind. rewrite Hs. unfold lift.
      rewrite Hf. reflexivity.
    + rewrite Hl, Hn, E, hum_stream_length. lia.
Qed.

End SizzleExtras.

Lemma bubble_loop_terminates_witness :
  exists out g',
    bubble_pops (R := lcg_random) (L := taylor_math) 39 66150 3.0 0
      (replicate (Z.to_nat 66150) 0%Q) (seed (Random := lcg_random) 1234)
    = Ok (out, g') /\
    Z.of_nat (length out) = 66150.
Proof.
  apply (bubble_loop_terminates (R := lcg_random) (L := taylor_math)
           66150 3.0 0 38).
  - apply Qle_refl.
  - vm_compute. discriminate.
  - rewrite length_replicate. lia.
Defined.

Lemma pop_burst_window_witness :
  exists out,
    pop_burst (R := lcg_random) (L := taylor_math) 8 6 5 440 0.1
      (replicate 8 0%Q) (seed (Random := lcg_random) 1234)
    = Ok (out, seed (Random := lcg_random) 1234) /\
    length out = length (replicate 8 0%Q) /\
    forall k : nat,
      ~ (6 <= Z.of_nat k < 6 + 5) -> out !! k = replicate 8 0%Q !! k.
Proof.
  apply (pop_burst_window (R := lcg_random) (L := taylor_math) 8 6 5).
  - lia.
  - reflexivity.
Defined.

(** ** Normalisation *)



(** ** The hum *)

Section HumExtras.
Context {R : Random} {L : MathLib}.

(** Before it is normalised, sample [i] of the hum is the sum of the three
    harmonics under the warble, [hum_wave i], plus the [i]-th Gaussian draw
    of the random state the function was entered with; the function makes
    [44100] draws, and none of them is preceded by a call of
    [random.seed]. *)
Theorem hum_samples_are_wave_plus_noise (g : rng) :
  exists raw,
    hum_raw g = Ok (raw, gauss_state 0 0.005 (Z.to_nat 44100) g) /\
    Z.of_nat (length raw) = 44100 /\
    forall i, 0 <= i < 44100 ->
      raw !! Z.to_nat i =
      Some (hum_wave i + gauss_draw 0 0.005 g (Z.to_nat i))%Q.
Proof. exact (hum_raw_samples g). Qed.

End HumExtras.

(** ** Determinism of the scripts *)

Section ScriptExtras.
Context {R : Random} {L : MathLib} {D : Pillow}.

Lemma deterministic_bind {A B} (m : M A) (k : A -> M B) :
  deterministic m -> (forall a, deterministic (k a)) ->
  deterministic (bind m k).
Proof.
  intros Hm Hk g1 g2. unfold bind. specialize (Hm g1 g2).
  destruct (m g1) as [[a1 s1]|e1]; destruct (m g2) as [[a2 s2]|e2];
    cbn [output] in Hm; try discriminate Hm.
  - injection Hm as <-. apply Hk.
  - injection Hm as ->. reflexivity.
Qed.

Lemma deterministic_ret {A} (a : A) : deterministic (ret a).
Proof. intros g1 g2. reflexivity. Qed.

Lemma repeatable_of {A} (m : M A) :
  deterministic m -> total m -> repeatable m.
Proof.
  intros Hd Ht g. destruct (Ht g) as (a & g1 & H1).
  destruct (Ht g1) as (a' & g2 & H2).
  specialize (Hd g g1). rewrite H1, H2 in Hd. cbn [output] in Hd.
  injection Hd as <-. exists a, g2. unfold run_twice, bind.
  rewrite H1, H2. reflexivity.
Qed.

Lemma total_saved {P} (I : image P -> Prop) (m : M (image P)) :
  (forall g, exists img g', m g = Ok (img, g') /\ I img) ->
  total (bind m (fun img => ret (image_data img))).
Proof.
  intros H g. destruct (H g) as (img & g' & Hm & _).
  exists (image_data img), g'. unfold bind. rewrite Hm. reflexivity.
Qed.

Lemma gen_nukage_sizzle_total : total gen_nukage_sizzle.
Proof.
  intros g.
  destruct (nukage_sizzle_samples_correct g) as (pre & g1 & out & _ & Hs & _).
  eexists _, g1. unfold gen_nukage_sizzle, bind. rewrite Hs. unfold lift.
  rewrite write_wav_ok. reflexivity.
Qed.

Lemma gen_computer_hum_total : total gen_computer_hum.
Proof.
  intros g.
  destruct (computer_hum_samples_correct g) as (pre & g1 & out & _ & Hs & _).
  eexists _, g1. unfold gen_computer_hum, bind. rewrite Hs. unfold lift.
  rewrite write_wav_ok. reflexivity.
Qed.

(** Each of the fourteen generators that call [random.seed] before they
    draw can be run twice in a row in one process: both runs return, and
    they write the same buffer. *)
Theorem seeded_generators_repeatable :
  repeatable gen_nukage_sizzle /\
  repeatable gen_barrel /\
  repeatable gen_computer_panel /\
  repeatable gen_tech_column /\
  repeatable gen_brown_brick /\
  repeatable gen_brown_stone_floor /\
  repeatable gen_gray_concrete /\
  repeatable gen_gray_tile_floor /\
  repeatable gen_dark_teal_metal /\
  repeatable gen_tan_walkway /\
  repeatable gen_blue_tech_panel /\
  repeatable gen_tech_floor /\
  repeatable gen_green_stone /\
  repeatable gen_ceiling_panel.
Proof.
  destruct seeded_generators_deterministic
    as (D1 & D2 & D3 & D4 & D5 & D6 & D7 & D8 & D9 & D10 & D11 & D12 & D13
        & D14).
  repeat apply conj.
  - apply repeatable_of; [exact D1|apply gen_nukage_sizzle_total].
  - apply repeatable_of; [exact D2|]. unfold gen_barrel.
    apply (total_saved (fun _ => True)). intros g.
    destruct (barrel_image_facts g) as (_ & final & g' & _ & Hf & _).
    exists final, g'. split; [exact Hf|exact I].
  - apply repeatable_of; [exact D3|]. unfold gen_computer_panel.
    apply (total_saved panel_inv), computer_panel_image_facts.
  - apply repeatable_of; [exact D4|]. unfold gen_tech_column.
    apply (total_saved (fun _ => True)). intros g.
    destruct (tech_column_image_facts g) as (_ & final & g' & _ & Hf & _).
    exists final, g'. split; [exact Hf|exact I].
  - apply repeatable_of; [exact D5|]. unfold gen_brown_brick.
    apply (total_saved all_rgb_ok), brown_brick_image_ok.
  - apply repeatable_of; [exact D6|]. unfold gen_brown_stone_floor.
    apply (total_saved all_rgb_ok), brown_stone_floor_image_ok.
  - apply repeatable_of; [exact D7|]. unfold gen_gray_concrete.
    apply (total_saved all_rgb_ok), gray_concrete_image_ok.
  - apply repeatable_of; [exact D8|]. unfold gen_gray_tile_floor.
    apply (total_saved all_rgb_ok), gray_tile_floor_image_ok.
  - apply repeatable_of; [exact D9|]. unfold gen_dark_teal_metal.
    apply (total_saved all_rgb_ok), dark_teal_metal_image_ok.
  - apply repeatable_of; [exact D10|]. unfold gen_tan_walkway.
    apply (total_saved all_rgb_ok), tan_walkway_image_ok.
  - apply repeatable_of; [exact D11|]. unfold gen_blue_tech_panel.
    apply (total_saved all_rgb_ok), blue_tech_panel_image_ok.
  - apply repeatable_of; [exact D12|]. unfold gen_tech_floor.
    apply (total_saved all_rgb_ok), tech_floor_image_ok.
  - apply repeatable_of; [exact D13|]. unfold gen_green_stone.
    apply (total_saved all_rgb_ok), green_stone_image_ok.
  - apply repeatable_of; [exact D14|]. unfold gen_ceiling_panel.
    apply (total_saved all_rgb_ok), ceiling_panel_image_ok.
Qed.

Lemma total_bind {A B} (m : M A) (k : A -> M B) :
  total m -> (forall a, total (k a)) -> total (bind m k).
Proof.
  intros Hm Hk g. destruct (Hm g) as (a & g1 & H1).
  destruct (Hk a g1) as (b & g2 & H2). exists b, g2.
  unfold bind. rewrite H1. exact H2.
Qed.

(** Run as scripts, the three files are deterministic: the buffers each
    script writes do not depend on the random state it starts in.  For
    [gen_audio.py] this holds although [gen_computer_hum] never seeds:
    the script runs it after [gen_nukage_sizzle], which seeds with 1234
    and always makes the same draws, so the hum always starts in the same
    state. *)
Theorem scripts_deterministic :
  state_blind main_audio /\
  deterministic main_sprites /\
  deterministic main_textures.
Proof.
  destruct seeded_generators_deterministic
    as (D1 & D2 & D3 & D4 & D5 & D6 & D7 & D8 & D9 & D10 & D11 & D12 & D13
        & D14).
  split; [|split].
  - unfold main_audio, gen_nukage_sizzle, nukage_sizzle_samples,
      nukage_faded, nukage_layers. cbv zeta.
    repeat first [ apply blind_seed | apply blind_bind; cbv zeta ].
  - unfold main_sprites.
    repeat (apply deterministic_bind; [assumption|intros ?]).
    apply deterministic_ret.
  - unfold main_textures.
    repeat (apply deterministic_bind; [assumption|intros ?]).
    apply deterministic_ret.
Qed.

End ScriptExtras.

(** ** The silhouettes of the sprites *)

Lemma alpha_map_paint (inside outside : Z -> Z -> Prop)
    (mask : Z -> Z -> bool) (c : rgba) (img : image rgba) :
  alpha_map inside outside img -> alpha c = 255 ->
  (forall x y, mask x y = true -> ~ outside x y) ->
  alpha_map inside outside (paint mask c img).
Proof.
  intros Hi Hc Hm x y. destruct (Hi x y) as (Hin & Hout & Hbin).
  cbn [px paint]. destruct (in_canvas img x y && mask x y) eqn:E.
  - apply andb_true_iff in E. destruct E as [_ E]. apply Hm in E.
    split; [intros _; exact Hc|]. split; [tauto|right; exact Hc].
  - split; [exact Hin|]. split; [exact Hout|exact Hbin].
Qed.

Lemma alpha_map_putpixel (inside outside : Z -> Z -> Prop)
    (x y : Z) (c : rgba) (img : image rgba) :
  alpha_map inside outside img -> alpha c = 255 -> ~ outside x y ->
  alpha_map inside outside (putpixel img x y c).
Proof.
  intros Hi Hc Hxy x' y'. destruct (Hi x' y') as (Hin & Hout & Hbin).
  cbn [px putpixel].
  destruct (Z.eqb_spec x' x) as [->|]; [|cbn; tauto].
  destruct (Z.eqb_spec y' y) as [->|]; [|cbn; tauto].
  cbn. split; [intros _; exact Hc|]. split; [tauto|right; exact Hc].
Qed.

Lemma alpha_map_same (inside outside : Z -> Z -> Prop)
    (img img' : image rgba) :
  (forall x y, alpha (px img' x y) = alpha (px img x y)) ->
  alpha_map inside outside img -> alpha_map inside outside img'.
Proof. intros He Hi x y. rewrite !He. apply Hi. Qed.

Lemma alpha_map_weaken (inside inside' outside : Z -> Z -> Prop)
    (img : image rgba) :
  (forall x y, inside' x y -> inside x y) ->
  alpha_map inside outside img -> alpha_map inside' outside img.
Proof.
  intros Hw Hi x y. destruct (Hi x y) as (Hin & Hout & Hbin).
  split; [intros H; apply Hin, Hw, H|]. split; assumption.
Qed.

Lemma alpha_map_new (outside : Z -> Z -> Prop) (w h : Z) :
  alpha_map (fun _ _ => False) outside (Image_new w h (0, 0, 0, 0)).
Proof.
  intros x y. split; [intros []|]. split; [reflexivity|left; reflexivity].
Qed.

(** A filled rectangle that lies on the canvas makes its box opaque. *)
Lemma alpha_map_rectangle (inside outside : Z -> Z -> Prop)
    (x0 y0 x1 y1 : Z) (c : rgba) (img : image rgba) :
  alpha_map inside outside img -> alpha c = 255 ->
  0 <= x0 -> x1 < width img -> 0 <= y0 -> y1 < height img ->
  (forall x y, x0 <= x <= x1 /\ y0 <= y <= y1 -> ~ outside x y) ->
  alpha_map (fun x y => inside x y \/ (x0 <= x <= x1 /\ y0 <= y <= y1))
    outside (rectangle (x0, y0, x1, y1) c img).
Proof.
  intros Hi Hc Hx0 Hx1 Hy0 Hy1 Hb x y.
  destruct (Hi x y) as (Hin & Hout & Hbin).
  unfold rectangle. cbn [px paint].
  destruct (in_canvas img x y && in_box (x0, y0, x1, y1) x y) eqn:E.
  - apply andb_true_iff in E. destruct E as [_ E]. apply in_box_true in E.
    split; [intros _; exact Hc|]. split; [|right; exact Hc].
    intros Ho. exfalso. exact (Hb x y E Ho).
  - split; [|split; assumption]. intros [H|H]; [exact (Hin H)|].
    exfalso. apply andb_false_iff in E. destruct E as [E|E].
    + assert (in_canvas img x y = true) by (apply in_canvas_true; lia).
      congruence.
    + assert (in_box (x0, y0, x1, y1) x y = true)
        by (apply in_box_true; exact H).
      congruence.
Qed.

Ltac mask_inside :=
  let Hm := fresh "Hm" in
  let Hout := fresh "Hout" in
  intros ?x ?y Hm Hout; apply Hout;
  first [ apply ellipse_fill_inside in Hm
        | apply ellipse_outline_inside in Hm
        | idtac ];
  first [ apply in_box_true in Hm | apply line_inside in Hm ];
  repeat match type of Hm with
         | context [(?a / ?b)] =>
             let v := eval cbv in (a / b) in change (a / b) with v in Hm
         end;
  cbv beta delta [barrel_hull column_shape]; lia.

Section SpriteShapes.
Context {R : Random} {D : Pillow}.

Lemma barrel_drawn_alpha (g : rng) :
  exists drawn,
    barrel_drawn g = Ok (drawn, g) /\
    alpha_map barrel_body (fun x y => ~ barrel_hull x y) drawn.
Proof.
  unfold barrel_drawn. cbv zeta.
  match goal with
  | |- context [for2 _ _ _ _ _ ?img0] =>
      destruct (barrel_shade_pass img0 g)
        as (img1 & Hrun & Hw & Hh & Hown & Hrest);
      assert (H0 : alpha_map barrel_body (fun x y => ~ barrel_hull x y) img0)
  end.
  { eapply alpha_map_weaken;
      [|apply (alpha_map_rectangle (fun _ _ => False)
                 (fun x y => ~ barrel_hull x y) 4 6 27 44);
        [apply alpha_map_new|reflexivity|cbn; lia|cbn; lia|cbn; lia|cbn; lia|]].
    - intros x y H. right. exact H.
    - intros x y H Hout. apply Hout. unfold barrel_hull. lia. }
  assert (H1 : alpha_map barrel_body (fun x y => ~ barrel_hull x y) img1).
  { eapply alpha_map_same; [|exact H0]. intros x y.
    assert (Hc : (4 <= x < 28 /\ 6 <= y < 45) \/
                 ~ (4 <= x < 28 /\ 6 <= y < 45)) by lia.
    destruct Hc as [[Hx Hy]|Hc].
    - eapply shaded_alpha. apply (Hown x y Hx Hy).
    - rewrite (Hrest x y Hc). reflexivity. }
  eexists. split.
  { unfold bind at 1. change (27 + 1) with 28. change (44 + 1) with 45.
    rewrite Hrun. reflexivity. }
  cbn [fold_left]. unfold ellipse_outlined, ellipse, rectangle.
  repeat (apply alpha_map_paint; [|reflexivity|mask_inside]).
  exact H1.
Qed.

(** The barrel that is saved is opaque on its body, the rectangle
    [4..27] x [6..44], transparent outside the box [4..27] x [3..44] that
    also holds the lid, and has no partly transparent pixel. *)
Theorem barrel_silhouette (g : rng) :
  exists final g',
    barrel_image g = Ok (final, g') /\
    forall x y,
      (4 <= x <= 27 /\ 6 <= y <= 44 -> alpha (px final x y) = 255) /\
      (~ (4 <= x <= 27 /\ 3 <= y <= 44) -> alpha (px final x y) = 0) /\
      (alpha (px final x y) = 0 \/ alpha (px final x y) = 255).
Proof.
  destruct (barrel_drawn_alpha g) as (drawn & Hd & Ha).
  destruct (barrel_image_facts g)
    as (drawn' & final & g' & Hd' & Hf & _ & _ & _ & Hal & _).
  assert (E : drawn' = drawn).
  { rewrite Hd in Hd'.
    exact (f_equal (fun r => match r with
                             | Ok (i, _) => i
                             | Raise _ => drawn'
                             end) (eq_sym Hd')). }
  subst drawn'. exists final, g'. split; [exact Hf|].
  intros x y. rewrite Hal. exact (Ha x y).
Qed.

Lemma tech_column_drawn_alpha (g : rng) :
  exists drawn,
    tech_column_drawn g = Ok (drawn, g) /\
    alpha_map column_shape (fun x y => ~ column_shape x y) drawn.
Proof.
  destruct pure_tech_column_drawn as [drawn Hpure].
  exists drawn. split; [apply Hpure|].
  specialize (Hpure g). revert Hpure.
  unfold tech_column_drawn. cbv zeta.
  set (shaft := fun x y : Z => 4 <= x <= 19 /\ 2 <= y <= 61).
  set (out := fun x y : Z => ~ column_shape x y).
  match goal with
  | |- context [for2 2 62 _ _ _ ?img0] =>
      assert (H0 : alpha_map shaft out img0 /\
                   width img0 = 24 /\ height img0 = 64);
      [|destruct (for2_inv
                    (fun img => alpha_map shaft out img /\
                                width img = 24 /\ height img = 64)
                    (column_shade_pixel 4 19) 2 62 4 (19 + 1) img0 g H0)
          as (img1 & g1 & Hrun & H1 & Hw1 & Hh1)]
  end.
  { split; [|split; reflexivity].
    eapply alpha_map_weaken;
      [|apply (alpha_map_rectangle (fun _ _ => False) out 4 2 19 61);
        [apply alpha_map_new|reflexivity|cbn; lia|cbn; lia|cbn; lia|cbn; lia|]].
    - intros x y H. right. exact H.
    - intros x y H Hout. apply Hout. unfold column_shape. lia. }
  { intros y x cur g2 Hy Hx (Hc & Hw & Hh).
    unfold column_shade_pixel, getpixel.
    destruct (px cur x y) as [[[cr cg] cb] ca] eqn:Hp.
    destruct (Z.gtb_spec ca 0) as [Hpos|Hneg].
    - eexists _, g2. split; [reflexivity|]. split; [|split; assumption].
      destruct (Hc x y) as (_ & _ & Hbin). rewrite Hp in Hbin. cbn in Hbin.
      apply alpha_map_putpixel; [exact Hc|cbn; lia|].
      intros Hout. apply Hout. unfold column_shape. lia.
    - exists cur, g2. split; [reflexivity|]. split; [exact Hc|].
      split; assumption. }
  unfold bind at 1. rewrite Hrun.
  match goal with
  | |- context [for2 0 4 _ _ _ ?img2] =>
      assert (H2 : alpha_map column_shape out img2);
      [|destruct (for2_inv (alpha_map column_shape out)
                    column_stripe_pixel 0 4 (4 + 1) 19 img2 g1 H2)
          as (img3 & g3 & Hrun3 & H3)]
  end.
  { cbn [fold_left].
    apply (alpha_map_weaken
             (fun x y => (shaft x y \/ (4 - 2 <= x <= 19 + 2 /\ 0 <= y <= 4))
                         \/ (4 - 2 <= x <= 19 + 2 /\ 60 <= y <= 63))).
    { intros x y Hs. unfold column_shape in Hs. unfold shaft. lia. }
    assert (H2 : alpha_map shaft out
                   (line (4, 59 + 3) (19, 59 + 3) (120, 120, 125, 255) 1
                      (rectangle (4, 59, 19, 59 + 2) (75, 75, 80, 255)
                   (line (4, 45 + 3) (19, 45 + 3) (120, 120, 125, 255) 1
                      (rectangle (4, 45, 19, 45 + 2) (75, 75, 80, 255)
                   (line (4, 30 + 3) (19, 30 + 3) (120, 120, 125, 255) 1
                      (rectangle (4, 30, 19, 30 + 2) (75, 75, 80, 255)
                   (line (4, 15 + 3) (19, 15 + 3) (120, 120, 125, 255) 1
                      (rectangle (4, 15, 19, 15 + 2) (75, 75, 80, 255)
                   (line (4, 4 + 3) (19, 4 + 3) (120, 120, 125, 255) 1
                      (rectangle (4, 4, 19, 4 + 2) (75, 75, 80, 255)
                         img1))))))))))).
    { unfold line, rectangle.
      repeat (apply alpha_map_paint; [|reflexivity|subst out; mask_inside]).
      exact H1. }
    apply alpha_map_rectangle;
      [apply alpha_map_rectangle; [exact H2|reflexivity|..]|reflexivity|..].
    - lia.
    - change (19 + 2 < width img1). lia.
    - lia.
    - change (4 < height img1). lia.
    - intros x y H Hout. apply Hout. unfold column_shape. lia.
    - lia.
    - change (19 + 2 < width img1). lia.
    - lia.
    - change (63 < height img1). lia.
    - intros x y H Hout. apply Hout. unfold column_shape. lia. }
  { intros i x cur g2 Hi Hx Hc. unfold column_stripe_pixel.
    destruct ((x + i) mod 4 <? 2); eexists _, g2;
      (split; [reflexivity|]);
      (apply alpha_map_putpixel; [exact Hc|reflexivity|]);
      intros Hout; apply Hout; unfold column_shape; lia. }
  rewrite Hrun3. intros [= <- _]. exact H3.
Qed.

(** The column that is saved is opaque exactly on its shaft
    [4..19] x [2..61] and its two caps [2..21] x [0..4] and
    [2..21] x [60..63], and transparent everywhere else. *)
Theorem tech_column_silhouette (g : rng) :
  exists final g',
    tech_column_image g = Ok (final, g') /\
    forall x y,
      (column_shape x y -> alpha (px final x y) = 255) /\
      (~ column_shape x y -> alpha (px final x y) = 0).
Proof.
  destruct (tech_column_drawn_alpha g) as (drawn & Hd & Ha).
  destruct (tech_column_image_facts g)
    as (drawn' & final & g' & Hd' & Hf & Hal & _).
  assert (E : drawn' = drawn).
  { rewrite Hd in Hd'.
    exact (f_equal (fun r => match r with
                             | Ok (i, _) => i
                             | Raise _ => drawn'
                             end) (eq_sym Hd')). }
  subst drawn'. exists final, g'. split; [exact Hf|].
  intros x y. rewrite Hal. destruct (Ha x y) as (Hin & Hout & _).
  split; assumption.
Qed.

End SpriteShapes.

(** ** Shading, text and stripes *)

(** The curve shading of the barrel and the cylinder shading of the column
    are symmetric about the middle of the body, never darken (the shade is
    between 0 and 20, respectively 25) and vanish on the two edge
    columns. *)
Theorem shading_symmetric_and_bounded :
  (forall x, 4 <= x <= 27 ->
     0 <= barrel_shade 4 27 x <= 20 /\
     barrel_shade 4 27 (4 + 27 - x) = barrel_shade 4 27 x) /\
  barrel_shade 4 27 4 = 0 /\ barrel_shade 4 27 27 = 0 /\
  (forall x, 4 <= x <= 19 ->
     0 <= column_shade 4 19 x <= 25 /\
     column_shade 4 19 (4 + 19 - x) = column_shade 4 19 x) /\
  column_shade 4 19 4 = 0 /\ column_shade 4 19 19 = 0.
Proof.
  split; [|split; [reflexivity|split; [reflexivity|
    split; [|split; reflexivity]]]].
  - intros x Hx.
    pose proof (forallb_range
      (fun x => (0 <=? barrel_shade 4 27 x) && (barrel_shade 4 27 x <=? 20)
                && (barrel_shade 4 27 (4 + 27 - x) =? barrel_shade 4 27 x))
      4 28 eq_refl x ltac:(lia)) as H.
    cbv beta in H. rewrite !andb_true_iff in H. lia.
  - intros x Hx.
    pose proof (forallb_range
      (fun x => (0 <=? column_shade 4 19 x) && (column_shade 4 19 x <=? 25)
                && (column_shade 4 19 (4 + 19 - x) =? column_shade 4 19 x))
      4 20 eq_refl x ltac:(lia)) as H.
    cbv beta in H. rewrite !andb_true_iff in H. lia.
Qed.

Section SpriteDetails.
Context {R : Random} {D : Pillow}.

Lemma panel_text_keeps (img : image rgba) (g : rng) :
  exists img' g',
    panel_text img g = Ok (img', g') /\
    width img' = width img /\ height img' = height img /\
    forall x y,
      (~ text_area x y -> px img' x y = px img x y) /\
      (px img' x y = px img x y \/ px img' x y = (50, 200, 150, 255)).
Proof.
  pose (I := fun cur : image rgba =>
    width cur = width img /\ height cur = height img /\
    forall x y,
      (~ text_area x y -> px cur x y = px img x y) /\
      (px cur x y = px img x y \/ px cur x y = (50, 200, 150, 255))).
  assert (H0 : I img).
  { split; [reflexivity|]. split; [reflexivity|]. intros x y.
    split; [reflexivity|left; reflexivity]. }
  unfold panel_text, bind at 1, random_seed.
  apply (for_range_inv (fun _ s _ => I s)); [lia|exact H0|].
  intros row s g1 Hrow Hs.
  unfold bind at 1. rewrite random_randint_ok by lia.
  destruct (randint 8 28 g1) as [line_len g2].
  unfold bind at 1. rewrite random_randint_ok by lia.
  pose proof (randint_range 2 5 g2 ltac:(lia)) as Hsegs.
  destruct (randint 2 5 g2) as [segs g3]. cbn [fst] in Hsegs.
  apply (for_range_inv (fun _ s _ => I s)); [lia|exact Hs|].
  intros seg s' g4 Hseg (Hw & Hh & Hpx).
  unfold bind at 1. rewrite random_randint_ok by lia.
  pose proof (randint_range 0 20 g4 ltac:(lia)) as H1.
  destruct (randint 0 20 g4) as [r1 g5]. cbn [fst] in H1.
  unfold bind at 1. rewrite random_randint_ok by lia.
  pose proof (randint_range 3 10 g5 ltac:(lia)) as H2.
  destruct (randint 3 10 g5) as [r2 g6]. cbn [fst] in H2.
  eexists _, g6. split; [reflexivity|].
  split; [exact Hw|]. split; [exact Hh|].
  intros x y. destruct (Hpx x y) as [Hout Hcol].
  unfold rectangle.
  match goal with
  | |- context [@px ?T (@paint ?T' (in_box ?b) ?c s') x y] =>
      change (@px T (@paint T' (in_box b) c s') x y)
        with (@px T' (@paint T' (in_box b) c s') x y);
      pose proof (px_paint_cases (P := T') (in_box b) c s' x y) as Hcases;
      pose proof (px_paint_out (P := T') (in_box b) c s' x y) as Hbox;
      pose proof (proj1 (in_box_true _ _ _ _ x y) : in_box b x y = true -> _)
        as Hin;
      set (p := @px T' (@paint T' (in_box b) c s') x y) in *;
      destruct (in_box b x y)
  end.
  - specialize (Hin eq_refl). destruct Hcases as [Hp|Hp]; rewrite Hp.
    + split; [|right; reflexivity].
      intros Hn. exfalso. apply Hn. unfold text_area. lia.
    + split; assumption.
  - rewrite (Hbox eq_refl). split; assumption.
Qed.

(** The text rows of the terminal stay on the screen: whatever the draws,
    [panel_text] changes no pixel outside [9..39] x [10..32] (the segment
    ends are cut at column 39), and a pixel it changes gets the text
    colour. *)
Theorem panel_text_window (img : image rgba) (g : rng) :
  exists img' g',
    panel_text img g = Ok (img', g') /\
    width img' = width img /\ height img' = height img /\
    forall x y,
      (~ text_area x y -> px img' x y = px img x y) /\
      (px img' x y = px img x y \/ px img' x y = (50, 200, 150, 255)).
Proof. exact (panel_text_keeps img g). Qed.

(** The hazard stripe of the column, rows 32 to 35 and columns 5 to 18:
    before the noise pass the pixel [(x, 32 + i)] is yellow when
    [(x + i) mod 4 < 2] and dark otherwise, so the pattern moves one
    column to the left from each row to the next. *)
Theorem hazard_stripes (g : rng) :
  exists drawn,
    tech_column_drawn g = Ok (drawn, g) /\
    (forall x y, 5 <= x <= 18 -> 32 <= y <= 35 ->
       px drawn x y = stripe_colour x y) /\
    (forall x y, 5 <= x < 18 -> 32 <= y < 35 ->
       px drawn x (y + 1) = px drawn (x + 1) y).
Proof.
  destruct pure_tech_column_drawn as [drawn Hpure].
  exists drawn. split; [apply Hpure|].
  assert (Hs : forall x y, 5 <= x <= 18 -> 32 <= y <= 35 ->
            px drawn x y = stripe_colour x y).
  { specialize (Hpure g). revert Hpure.
    unfold tech_column_drawn. cbv zeta.
    match goal with
    | |- context [for2 2 62 _ _ _ ?img0] =>
        destruct (for2_inv (fun _ : image rgba => True)
                    (column_shade_pixel 4 19) 2 62 4 (19 + 1) img0 g I)
          as (img1 & g1 & E1 & _)
    end.
    { intros y x cur g2 _ _ _. unfold column_shade_pixel.
      destruct (getpixel cur x y) as [[[cr cg] cb] ca].
      destruct (ca >? 0); eexists _, g2; (split; [reflexivity|exact I]). }
    unfold bind at 1. rewrite E1.
    match goal with
    | |- context [for2 0 4 _ _ _ ?img2] =>
        destruct (for2_owned (fun i x => (x, 32 + i))
                    (fun x y (_ p' : rgba) => p' = stripe_colour x y)
                    column_stripe_pixel 0 4 (4 + 1) 19 img2 g1)
          as (img3 & g3 & Hrun & _ & _ & Hown & _)
    end.
    - intros a b a' b' [= -> Hb]. split; lia.
    - intros i Hi x Hx cur g2. unfold column_stripe_pixel.
      assert (Hcol : (if (x + i) mod 4 <? 2
                      then (180, 150, 30, 255) else (40, 40, 45, 255))
                     = stripe_colour x (32 + i)).
      { unfold stripe_colour.
        replace (x + (32 + i - 32)) with (x + i) by lia. reflexivity. }
      revert Hcol. destruct ((x + i) mod 4 <? 2); intros Hcol;
        eexists _, g2; (split; [reflexivity|]);
        (split; [reflexivity|]); (split; [reflexivity|]); split.
      1, 3: intros x' y' [= <- <-]; rewrite px_putpixel_eq; exact Hcol.
      all: intros x' y' Hne; apply px_putpixel_ne; congruence.
    - rewrite Hrun. intros [= <- _] x y Hx Hy.
      specialize (Hown (y - 32) x ltac:(lia) ltac:(lia)).
      cbn [fst snd] in Hown.
      replace (32 + (y - 32)) with y in Hown by lia. exact Hown. }
  split; [exact Hs|].
  intros x y Hx Hy. rewrite !Hs by lia. unfold stripe_colour.
  replace (x + (y + 1 - 32)) with (x + 1 + (y - 32)) by lia. reflexivity.
Qed.

(** The noise pass of a sprite moves each colour channel of a pixel by at
    most the bound of the draw (8 for the barrel, 5 for the column) and
    keeps its alpha, on every pixel of the image. *)
Theorem sprite_noise_within_bound (g : rng) :
  (exists drawn final g',
     barrel_drawn g = Ok (drawn, g) /\
     barrel_image g = Ok (final, g') /\
     forall x y,
       let '(r, gr, b, a) := px drawn x y in
       let '(r', gr', b', a') := px final x y in
       Z.abs (r' - r) <= 8 /\ Z.abs (gr' - gr) <= 8 /\
       Z.abs (b' - b) <= 8 /\ a' = a) /\
  (exists drawn final g',
     tech_column_drawn g = Ok (drawn, g) /\
     tech_column_image g = Ok (final, g') /\
     forall x y,
       let '(r, gr, b, a) := px drawn x y in
       let '(r', gr', b', a') := px final x y in
       Z.abs (r' - r) <= 5 /\ Z.abs (gr' - gr) <= 5 /\
       Z.abs (b' - b) <= 5 /\ a' = a).
Proof.
  assert (Hn : forall k p p', 0 <= k -> rgba_ok p -> noised k p p' ->
            let '(r, gr, b, a) := p in
            let '(r', gr', b', a') := p' in
            Z.abs (r' - r) <= k /\ Z.abs (gr' - gr) <= k /\
            Z.abs (b' - b) <= k /\ a' = a).
  { intros k [[[r gr] b] a] p' Hk (Hr & Hg & Hb & Ha).
    unfold channel_ok in *. cbn.
    intros [[_ ->]|[_ (v & Hv & ->)]]; lia. }
  assert (Hc : forall w h x y : Z,
            (0 <= x < w /\ 0 <= y < h) \/ ~ (0 <= x < w /\ 0 <= y < h))
    by (intros; lia).
  split.
  - destruct (barrel_drawn_facts g) as (drawn & Hd & _ & _ & _ & _ & Hok).
    destruct (sprite_noise_pass 8 32 48 drawn (seed 111))
      as (final & g' & Hrun & _ & _ & Hown & Hrest); [lia|].
    exists drawn, final, g'. split; [exact Hd|]. split.
    { unfold barrel_image, bind. rewrite Hd. cbn. exact Hrun. }
    intros x y. destruct (Hc 32 48 x y) as [[Hx Hy]|Hout].
    + apply (Hn 8); [lia|apply Hok|apply Hown; assumption].
    + rewrite (Hrest x y Hout). destruct (px drawn x y) as [[[r gr] b] a].
      lia.
  - destruct (tech_column_drawn_facts g) as (drawn & Hd & _ & _ & Hok).
    destruct (sprite_noise_pass 5 24 64 drawn (seed 333))
      as (final & g' & Hrun & _ & _ & Hown & Hrest); [lia|].
    exists drawn, final, g'. split; [exact Hd|]. split.
    { unfold tech_column_image, bind. rewrite Hd. cbn. exact Hrun. }
    intros x y. destruct (Hc 24 64 x y) as [[Hx Hy]|Hout].
    + apply (Hn 5); [lia|apply Hok|apply Hown; assumption].
    + rewrite (Hrest x y Hout). destruct (px drawn x y) as [[[r gr] b] a].
      lia.
Qed.

End SpriteDetails.

(** ** Fixed pixels of the terminal *)

Lemma in_box_false (x0 y0 x1 y1 x y : Z) :
  ~ (x0 <= x <= x1 /\ y0 <= y <= y1) -> in_box (x0, y0, x1, y1) x y = false.
Proof.
  intros H. destruct (in_box (x0, y0, x1, y1) x y) eqn:E; [|reflexivity].
  apply in_box_true in E. tauto.
Qed.

Ltac mask_false :=
  first
    [ apply in_box_false; lia
    | apply not_in_box;
      [ first [apply ellipse_fill_inside | apply ellipse_outline_inside]
      | apply in_box_false; lia ] ].

Section PanelPixels.
Context {R : Random} {D : Pillow}.

Lemma line_false (x0 y0 x1 y1 x y : Z) :
  ~ (Z.min x0 x1 <= x <= Z.max x0 x1 /\ Z.min y0 y1 <= y <= Z.max y0 y1) ->
  line_cover (x0, y0) (x1, y1) 1 x y = false.
Proof.
  intros H. destruct (line_cover (x0, y0) (x1, y1) 1 x y) eqn:E;
    [|reflexivity].
  apply line_inside in E. tauto.
Qed.

(** Two parts of the terminal that nothing drawn later touches: the outer
    ring of the casing, one pixel wide, keeps the casing colour
    (50, 50, 55, 255), and the cursor block [9..12] x [33..35] has the
    cursor colour (100, 255, 200, 255), whatever the text rows are. *)
Theorem panel_border_and_cursor (g : rng) :
  exists img g',
    computer_panel_image g = Ok (img, g') /\
    (forall x y, 2 <= x <= 45 -> 2 <= y <= 45 ->
       x = 2 \/ x = 45 \/ y = 2 \/ y = 45 ->
       px img x y = (50, 50, 55, 255)) /\
    (forall x y, 9 <= x <= 12 -> 33 <= y <= 35 ->
       px img x y = (100, 255, 200, 255)).
Proof.
  unfold computer_panel_image. cbv zeta.
  match goal with
  | |- context [panel_text ?img0] =>
      destruct (panel_text_keeps img0 g)
        as (img1 & g1 & Hrun & Hw & Hh & Hpx);
      assert (Hsize : width img0 = 48 /\ height img0 = 48);
      [|set (base := img0) in *]
  end.
  { split.
    - apply (fold_left_inv (fun img : image rgba => width img = 48));
        [intros s y _ Hs; exact Hs|reflexivity].
    - apply (fold_left_inv (fun img : image rgba => height img = 48));
        [intros s y _ Hs; exact Hs|reflexivity]. }
  destruct Hsize as [Hw0 Hh0].
  eexists _, g1. split.
  { unfold bind at 1. rewrite Hrun. reflexivity. }
  unfold ellipse, rectangle. split.
  - intros x y Hx Hy Hring.
    rewrite !px_paint_out by mask_false.
    destruct (Hpx x y) as [Hout _].
    rewrite Hout by (unfold text_area; lia).
    subst base.
    apply (fold_left_inv
             (fun img : image rgba => px img x y = (50, 50, 55, 255))).
    + intros s ly Hly Hs. apply range_step_In in Hly; [|lia].
      unfold line. rewrite px_paint_out; [exact Hs|].
      apply line_false. lia.
    + unfold rectangle. rewrite !px_paint_out by mask_false.
      apply px_paint_in; [|apply in_box_true; lia].
      apply in_canvas_true. cbn. lia.
  - intros x y Hx Hy.
    rewrite !px_paint_out by mask_false.
    apply px_paint_in; [|apply in_box_true; lia].
    apply (in_canvas_size img1 48 48);
      [rewrite Hw; exact Hw0|rewrite Hh; exact Hh0|lia|lia].
Qed.

End PanelPixels.

(** ** The textures *)

Lemma fold_left_establish {St A} (J P : St -> Prop) (f : St -> A -> St)
    (l : list A) (a : A) :
  In a l ->
  (forall s b, J s -> J (f s b)) ->
  (forall s, J s -> P (f s a)) ->
  (forall s b, J s -> P s -> P (f s b)) ->
  forall s, J s -> P (fold_left f l s).
Proof.
  intros Ha HJ He Hk. induction l as [|b l IH]; [destruct Ha|].
  intros s Hs. cbn [fold_left]. destruct Ha as [->|Ha].
  - assert (H : J (f s a) /\ P (f s a)) by (split; [apply HJ|apply He]; exact Hs).
    revert H. generalize (f s a). clear -HJ Hk.
    induction l as [|b l IH]; intros s [Hs Hp]; [exact Hp|].
    cbn [fold_left]. apply IH. split; [apply HJ|apply Hk]; assumption.
  - apply IH; [exact Ha|apply HJ, Hs].
Qed.

Lemma two_coloured_paint (a b : rgb) (mask : Z -> Z -> bool)
    (img : image rgb) :
  (forall x y, px img x y = a \/ px img x y = b) ->
  forall x y, px (paint mask a img) x y = a \/ px (paint mask a img) x y = b.
Proof.
  intros H x y. destruct (px_paint_cases mask a img x y) as [E|E];
    rewrite E; [left; reflexivity|apply H].
Qed.

Lemma painted_stays (a : rgb) (mask : Z -> Z -> bool) (img : image rgb)
    (x y : Z) :
  px img x y = a -> px (paint mask a img) x y = a.
Proof.
  intros H. destruct (px_paint_cases mask a img x y) as [E|E];
    rewrite E; [reflexivity|exact H].
Qed.

Lemma length_range (a b : Z) : length (range a b) = Z.to_nat (b - a).
Proof.
  unfold range. generalize (Z.to_nat (b - a)). intros n. revert a.
  induction n as [|n IH]; intros a; [reflexivity|].
  cbn [range_from length]. now rewrite IH.
Qed.

Lemma length_image_data {P} (img : image P) :
  length (image_data img)
  = (Z.to_nat (height img) * Z.to_nat (width img))%nat.
Proof.
  unfold image_data.
  assert (H : forall l : list Z,
            length (flat_map
                      (fun y => map (fun x => px img x y)
                                  (range 0 (width img))) l)
            = (length l * Z.to_nat (width img))%nat).
  { induction l as [|y l IH]; [reflexivity|].
    cbn [flat_map]. rewrite length_app, length_map, length_range, IH.
    cbn [length]. replace (width img - 0) with (width img) by lia. lia. }
  rewrite H, length_range. f_equal. f_equal. lia.
Qed.

Section TextureExtras.
Context {R : Random} {D : Pillow}.

(** The noise of [gen_brown_brick] spares the mortar.  Before the noise
    pass every pixel is mortar or brick coloured, and rows 0 and 1 of each
    course of 16 are mortar; the pass leaves a mortar pixel as it is and
    moves a brick pixel by the coarse offset [bv] of its cell (halved on
    green, a third on blue) plus the fine offset [pv] of the pixel, with
    no clamping. *)
Theorem brick_noise_spares_mortar (g : rng) :
  (forall x y,
     px brown_brick_drawn x y = (60, 40, 25) \/
     px brown_brick_drawn x y = (120, 70, 40)) /\
  (forall x y, 0 <= x < SIZE -> 0 <= y < SIZE ->
     y mod 16 = 0 \/ y mod 16 = 1 ->
     px brown_brick_drawn x y = (60, 40, 25)) /\
  exists img g',
    brown_brick_image g = Ok (img, g') /\
    forall x y, 0 <= x < SIZE -> 0 <= y < SIZE ->
      (px brown_brick_drawn x y = (60, 40, 25) ->
       px img x y = (60, 40, 25)) /\
      (px brown_brick_drawn x y = (120, 70, 40) ->
       exists bv pv,
         bv = brick_coarse x y /\ pv = brick_fine x y /\
         -20 <= bv <= 20 /\ -8 <= pv <= 8 /\
         px img x y = (120 + bv + pv, 70 + bv / 2 + pv, 40 + bv / 3 + pv)).
Proof.
  split; [|split].
  - unfold brown_brick_drawn. cbv zeta.
    apply (fold_left_inv
             (fun img : image rgb =>
                forall x y, px img x y = (60, 40, 25) \/
                            px img x y = (120, 70, 40))).
    + intros s row _ Hs.
      apply (fold_left_inv
               (fun img : image rgb =>
                  forall x y, px img x y = (60, 40, 25) \/
                              px img x y = (120, 70, 40))).
      * intros s' col _ Hs'. unfold rectangle.
        apply two_coloured_paint, Hs'.
      * unfold rectangle. apply two_coloured_paint, Hs.
    + intros x y. right. reflexivity.
  - intros x y Hx Hy Hrow. unfold SIZE in Hx, Hy.
    unfold brown_brick_drawn. cbv zeta.
    set (J := fun img : image rgb => width img = 128 /\ height img = 128).
    assert (HJ : forall (s : image rgb) (row : Z), J s ->
              J (fold_left
                   (fun img col =>
                      rectangle
                        (col * 32 + (if row mod 2 =? 1 then 32 / 2 else 0),
                         row * 16,
                         col * 32 + (if row mod 2 =? 1 then 32 / 2 else 0) + 1,
                         row * 16 + 16) (60, 40, 25) img)
                   (range (-1) (SIZE / 32 + 2))
                   (rectangle (0, row * 16, SIZE, row * 16 + 1) (60, 40, 25)
                      s))).
    { intros s row Hs. apply fold_left_inv; [|exact Hs].
      intros s' col _ Hs'. exact Hs'. }
    apply (fold_left_establish J
             (fun img : image rgb => px img x y = (60, 40, 25)) _ _ (y / 16)).
    + apply range_In. unfold SIZE.
      change (128 / 16 + 1) with 9.
      pose proof (Z.div_pos y 16 ltac:(lia) ltac:(lia)).
      assert (y / 16 < 8) by (apply Z.div_lt_upper_bound; lia). lia.
    + exact HJ.
    + intros s [Hw Hh].
      apply (fold_left_inv
               (fun img : image rgb => px img x y = (60, 40, 25))).
      * intros s' col _ Hs'. unfold rectangle. apply painted_stays, Hs'.
      * unfold rectangle. apply px_paint_in.
        -- apply in_canvas_true. lia.
        -- apply in_box_true. pose proof (Z.div_mod y 16 ltac:(lia)).
           unfold SIZE. lia.
    + intros s b _ Hs.
      apply (fold_left_inv
               (fun img : image rgb => px img x y = (60, 40, 25))).
      * intros s' col _ Hs'. unfold rectangle. apply painted_stays, Hs'.
      * unfold rectangle. apply painted_stays, Hs.
    + split; reflexivity.
  - unfold brown_brick_image. cbv zeta.
    destruct (jitter_pass brick_jitter (brick_noise_pixel 16 32 (60, 40, 25))
                brown_brick_drawn g)
      as (img & g' & Hrun & _ & _ & Hpx).
    { intros. apply brick_noise_pixel_eq. }
    exists img, g'. split; [exact Hrun|].
    intros x y Hx Hy. rewrite (Hpx x y Hx Hy). split; intros ->.
    + reflexivity.
    + exists (brick_coarse x y), (brick_fine x y).
      split; [reflexivity|]. split; [reflexivity|].
      pose proof (randint_range (-20) 20
                    (seed ((y / 16) * 10 + (x / 32) + 101)) ltac:(lia)) as Hb.
      pose proof (randint_range (-8) 8
                    (seed (y * SIZE + x + 42)) ltac:(lia)) as Hp.
      fold (brick_coarse x y) in Hb. fold (brick_fine x y) in Hp.
      split; [exact Hb|]. split; [exact Hp|].
      unfold brick_jitter. cbn [rgb_eqb negb Z.eqb andb].
      change (negb ((120 =? 60) && (70 =? 40) && (40 =? 25))) with true.
      cbv iota zeta.
      set (bv := brick_coarse x y) in *. set (pv := brick_fine x y) in *.
      assert (-10 <= bv / 2 <= 10).
      { split; [apply Z.div_le_lower_bound|apply Z.div_le_upper_bound]; lia. }
      assert (-7 <= bv / 3 <= 6).
      { split; [apply Z.div_le_lower_bound; lia|].
        assert (bv / 3 < 7) by (apply Z.div_lt_upper_bound; lia). lia. }
      f_equal; [f_equal|]; lia.
Qed.

(** The noise of [gen_gray_tile_floor] spares the grooves.  Before the
    noise pass every pixel is groove or tile coloured; the pass leaves a
    groove pixel as it is ([abs(r - groove[0]) > 5] fails) and moves the
    three channels of a tile pixel by the same amount, the offset [tv] of
    its tile plus the fine offset [v] of the pixel, so that a tile pixel
    never takes the groove colour. *)
Theorem tile_noise_spares_grooves (g : rng) :
  (forall x y,
     px gray_tile_floor_drawn x y = (65, 68, 70) \/
     px gray_tile_floor_drawn x y = (95, 100, 100)) /\
  exists img g',
    gray_tile_floor_image g = Ok (img, g') /\
    forall x y, 0 <= x < SIZE -> 0 <= y < SIZE ->
      (px gray_tile_floor_drawn x y = (65, 68, 70) ->
       px img x y = (65, 68, 70)) /\
      (px gray_tile_floor_drawn x y = (95, 100, 100) ->
       exists tv v,
         tv = tile_coarse x y /\ v = tile_fine x y /\
         -8 <= tv <= 8 /\ -10 <= v <= 10 /\
         px img x y = (95 + v + tv, 100 + v + tv, 100 + v + tv) /\
         px img x y <> (65, 68, 70)).
Proof.
  split.
  - unfold gray_tile_floor_drawn, grid_lines. cbv zeta.
    apply (fold_left_inv
             (fun img : image rgb =>
                forall x y, px img x y = (65, 68, 70) \/
                            px img x y = (95, 100, 100))).
    + intros s i _ Hs. unfold line.
      apply two_coloured_paint, two_coloured_paint, Hs.
    + intros x y. right. reflexivity.
  - unfold gray_tile_floor_image. cbv zeta.
    destruct (jitter_pass tile_jitter (tile_noise_pixel 32 (65, 68, 70))
                gray_tile_floor_drawn g)
      as (img & g' & Hrun & _ & _ & Hpx).
    { intros. apply tile_noise_pixel_eq. }
    exists img, g'. split; [exact Hrun|].
    intros x y Hx Hy. rewrite (Hpx x y Hx Hy). split; intros ->.
    + reflexivity.
    + exists (tile_coarse x y), (tile_fine x y).
      split; [reflexivity|]. split; [reflexivity|].
      pose proof (randint_range (-8) 8
                    (seed ((y / 32) * 4 + (x / 32) + 404)) ltac:(lia)) as Ht.
      pose proof (randint_range (-10) 10
                    (seed (y * SIZE + x + 405)) ltac:(lia)) as Hv.
      fold (tile_coarse x y) in Ht. fold (tile_fine x y) in Hv.
      split; [exact Ht|]. split; [exact Hv|].
      unfold tile_jitter.
      change (Z.abs (95 - 65) >? 5) with true. cbv iota zeta.
      set (tv := tile_coarse x y) in *. set (v := tile_fine x y) in *.
      assert (E : (Z.max 0 (Z.min 255 (95 + v + tv)),
                   Z.max 0 (Z.min 255 (100 + v + tv)),
                   Z.max 0 (Z.min 255 (100 + v + tv)))
                  = (95 + v + tv, 100 + v + tv, 100 + v + tv)).
      { f_equal; [f_equal|]; lia. }
      rewrite E. split; [reflexivity|]. intros [= H1 _ _]. lia.
Qed.

Lemma plain_noise_step (k y x : Z) :
  0 <= k ->
  step_owned (fun x x' y' => (x, y) = (x', y'))
    (fun _ _ (p p' : rgb) => exists v, - k <= v <= k /\ p' = plain_jitter v p)
    (plain_noise_pixel k y) x.
Proof.
  intros Hk img g. rewrite plain_noise_pixel_eq by exact Hk.
  pose proof (randint_range (- k) k g ltac:(lia)) as Hv.
  eexists _, _. split; [reflexivity|].
  split; [reflexivity|]. split; [reflexivity|]. split.
  - intros x' y' [= <- <-]. rewrite px_putpixel_eq. eexists.
    split; [exact Hv|reflexivity].
  - intros x' y' Hne. apply px_putpixel_ne. exact Hne.
Qed.

Lemma damped_noise_step (k : Z) (damp : Q) (y x : Z) :
  0 <= k ->
  step_owned (fun x x' y' => (x, y) = (x', y'))
    (fun _ _ (p p' : rgb) =>
       exists v, - k <= v <= k /\ p' = damped_jitter damp v p)
    (damped_noise_pixel k damp y) x.
Proof.
  intros Hk img g. rewrite damped_noise_pixel_eq by exact Hk.
  pose proof (randint_range (- k) k g ltac:(lia)) as Hv.
  eexists _, _. split; [reflexivity|].
  split; [reflexivity|]. split; [reflexivity|]. split.
  - intros x' y' [= <- <-]. rewrite px_putpixel_eq. eexists.
    split; [exact Hv|reflexivity].
  - intros x' y' Hne. apply px_putpixel_ne. exact Hne.
Qed.

Lemma green_noise_step (y x : Z) :
  step_owned (fun x x' y' => (x, y) = (x', y'))
    (fun _ _ (p p' : rgb) =>
       exists v w, -25 <= v <= 25 /\ -5 <= w <= 5 /\
                   p' = green_jitter v w p)
    (green_noise_pixel y) x.
Proof.
  intros img g. rewrite green_noise_pixel_eq.
  pose proof (randint_range (-25) 25 g ltac:(lia)) as Hv.
  pose proof (randint_range (-5) 5 (snd (randint (-25) 25 g)) ltac:(lia))
    as Hw.
  eexists _, _. split; [reflexivity|].
  split; [reflexivity|]. split; [reflexivity|]. split.
  - intros x' y' [= <- <-]. rewrite px_putpixel_eq. eexists _, _.
    split; [exact Hv|]. split; [exact Hw|reflexivity].
  - intros x' y' Hne. apply px_putpixel_ne. exact Hne.
Qed.

Lemma owned_pass {P} (U : Z -> Z -> P -> P -> Prop)
    (body : Z -> Z -> image P -> M (image P)) (img : image P) (g : rng) :
  (forall y x, step_owned (fun x x' y' => (x, y) = (x', y')) U (body y) x) ->
  exists img' g',
    for2 0 SIZE 0 SIZE body img g = Ok (img', g') /\
    width img' = width img /\ height img' = height img /\
    (forall x y, 0 <= x < SIZE -> 0 <= y < SIZE ->
       U x y (px img x y) (px img' x y)) /\
    (forall x y, ~ (0 <= x < SIZE /\ 0 <= y < SIZE) ->
       px img' x y = px img x y).
Proof.
  intros Hb.
  destruct (for2_owned (fun y x => (x, y)) U body 0 SIZE 0 SIZE img g)
    as (img' & g' & Hrun & Hw & Hh & Hown & Hrest).
  - intros a b a' b' [= -> ->]. auto.
  - intros y Hy x Hx. apply Hb.
  - exists img', g'. split; [exact Hrun|].
    split; [exact Hw|]. split; [exact Hh|]. split.
    + intros x y Hx Hy. apply (Hown y x Hy Hx).
    + intros x y Hout. apply Hrest. intros a b Ha Hb' [= <- <-].
      apply Hout. lia.
Qed.

(** The noise loops of the eight single-pass textures change every pixel
    of the canvas exactly once and nothing else: the new colour is the old
    one moved by one draw [v] within the bound, the same on the three
    channels (damped on blue in [gen_brown_stone_floor] and
    [gen_tan_walkway]; with a second draw [w] on green in
    [gen_green_stone]), each channel clamped to [0, 255]. *)
Theorem single_pass_noise_pointwise (k : Z) (damp : Q) (img : image rgb)
    (g : rng) :
  0 <= k ->
  (exists img' g',
     for2 0 SIZE 0 SIZE (plain_noise_pixel k) img g = Ok (img', g') /\
     (forall x y, 0 <= x < SIZE -> 0 <= y < SIZE ->
        exists v, - k <= v <= k /\
                  px img' x y = plain_jitter v (px img x y)) /\
     (forall x y, ~ (0 <= x < SIZE /\ 0 <= y < SIZE) ->
        px img' x y = px img x y)) /\
  (exists img' g',
     for2 0 SIZE 0 SIZE (damped_noise_pixel k damp) img g = Ok (img', g') /\
     (forall x y, 0 <= x < SIZE -> 0 <= y < SIZE ->
        exists v, - k <= v <= k /\
                  px img' x y = damped_jitter damp v (px img x y)) /\
     (forall x y, ~ (0 <= x < SIZE /\ 0 <= y < SIZE) ->
        px img' x y = px img x y)) /\
  (exists img' g',
     for2 0 SIZE 0 SIZE green_noise_pixel img g = Ok (img', g') /\
     (forall x y, 0 <= x < SIZE -> 0 <= y < SIZE ->
        exists v w, -25 <= v <= 25 /\ -5 <= w <= 5 /\
                    px img' x y = green_jitter v w (px img x y)) /\
     (forall x y, ~ (0 <= x < SIZE /\ 0 <= y < SIZE) ->
        px img' x y = px img x y)).
Proof.
  intros Hk. split; [|split].
  - destruct (owned_pass _ (plain_noise_pixel k) img g
                (fun y x => plain_noise_step k y x Hk))
      as (img' & g' & Hrun & _ & _ & Hown & Hrest).
    exists img', g'. split; [exact Hrun|]. split; [exact Hown|exact Hrest].
  - destruct (owned_pass _ (damped_noise_pixel k damp) img g
                (fun y x => damped_noise_step k damp y x Hk))
      as (img' & g' & Hrun & _ & _ & Hown & Hrest).
    exists img', g'. split; [exact Hrun|]. split; [exact Hown|exact Hrest].
  - destruct (owned_pass _ green_noise_pixel img g green_noise_step)
      as (img' & g' & Hrun & _ & _ & Hown & Hrest).
    exists img', g'. split; [exact Hrun|]. split; [exact Hown|exact Hrest].
Qed.

End TextureExtras.

Lemma single_pass_noise_pointwise_witness :
  (exists img' g',
     for2 (R := lcg_random) 0 SIZE 0 SIZE (plain_noise_pixel 6)
       (Image_new 128 128 (35, 75, 65)) (seed (Random := lcg_random) 505)
     = Ok (img', g') /\
     (forall x y, 0 <= x < SIZE -> 0 <= y < SIZE ->
        exists v, - 6 <= v <= 6 /\
                  px img' x y
                  = plain_jitter v (px (Image_new 128 128 (35, 75, 65)) x y)) /\
     (forall x y, ~ (0 <= x < SIZE /\ 0 <= y < SIZE) ->
        px img' x y = px (Image_new 128 128 (35, 75, 65)) x y)) /\
  (exists img' g',
     for2 (R := lcg_random) 0 SIZE 0 SIZE (damped_noise_pixel 6 0.5)
       (Image_new 128 128 (35, 75, 65)) (seed (Random := lcg_random) 505)
     = Ok (img', g') /\
     (forall x y, 0 <= x < SIZE -> 0 <= y < SIZE ->
        exists v, - 6 <= v <= 6 /\
                  px img' x y
                  = damped_jitter 0.5 v
                      (px (Image_new 128 128 (35, 75, 65)) x y)) /\
     (forall x y, ~ (0 <= x < SIZE /\ 0 <= y < SIZE) ->
        px img' x y = px (Image_new 128 128 (35, 75, 65)) x y)) /\
  (exists img' g',
     for2 (R := lcg_random) 0 SIZE 0 SIZE green_noise_pixel
       (Image_new 128 128 (35, 75, 65)) (seed (Random := lcg_random) 505)
     = Ok (img', g') /\
     (forall x y, 0 <= x < SIZE -> 0 <= y < SIZE ->
        exists v w, -25 <= v <= 25 /\ -5 <= w <= 5 /\
                    px img' x y
                    = green_jitter v w
                        (px (Image_new 128 128 (35, 75, 65)) x y)) /\
     (forall x y, ~ (0 <= x < SIZE /\ 0 <= y < SIZE) ->
        px img' x y = px (Image_new 128 128 (35, 75, 65)) x y)).
Proof.
  apply (single_pass_noise_pointwise (R := lcg_random) 6 0.5
           (Image_new 128 128 (35, 75, 65))
           (seed (Random := lcg_random) 505)).
  lia.
Defined.

(** ** The size of the images *)

Section ImageSizes.
Context {R : Random} {D : Pillow}.

Lemma saved_size {P} (m : M (image P)) (w h : Z) (g : rng) :
  0 <= w -> 0 <= h ->
  (exists img g', m g = Ok (img, g') /\ width img = w /\ height img = h) ->
  exists out g',
    bind m (fun img => ret (image_data img)) g = Ok (out, g') /\
    Z.of_nat (length out) = w * h.
Proof.
  intros Hw Hh (img & g' & Hm & <- & <-). exists (image_data img), g'. split.
  - unfold bind. rewrite Hm. reflexivity.
  - rewrite length_image_data. lia.
Qed.

Lemma plain_noise_size (k n : Z) (drawn : image rgb) (g : rng) :
  0 <= k -> width drawn = SIZE -> height drawn = SIZE ->
  exists img g',
    bind (random_seed n)
      (fun _ => for2 0 SIZE 0 SIZE (plain_noise_pixel k) drawn) g
    = Ok (img, g') /\
    width img = 128 /\ height img = 128.
Proof.
  intros Hk Hw Hh. unfold bind at 1, random_seed.
  destruct (owned_pass _ (plain_noise_pixel k) drawn (seed n)
              (fun y x => plain_noise_step k y x Hk))
    as (img & g' & Hrun & Hw' & Hh' & _).
  exists img, g'. split; [exact Hrun|]. unfold SIZE in *. lia.
Qed.

Lemma damped_noise_size (k n : Z) (damp : Q) (drawn : image rgb) (g : rng) :
  0 <= k -> width drawn = SIZE -> height drawn = SIZE ->
  exists img g',
    bind (random_seed n)
      (fun _ => for2 0 SIZE 0 SIZE (damped_noise_pixel k damp) drawn) g
    = Ok (img, g') /\
    width img = 128 /\ height img = 128.
Proof.
  intros Hk Hw Hh. unfold bind at 1, random_seed.
  destruct (owned_pass _ (damped_noise_pixel k damp) drawn (seed n)
              (fun y x => damped_noise_step k damp y x Hk))
    as (img & g' & Hrun & Hw' & Hh' & _).
  exists img, g'. split; [exact Hrun|]. unfold SIZE in *. lia.
Qed.

(** The three sprites and the seven textures that are saved without a
    filter have the size their docstrings give: the pixel buffer that is
    written holds [W * H] pixels, 32 x 48 for the barrel, 48 x 48 for the
    terminal, 24 x 64 for the column and 128 x 128 for a texture. *)
Theorem image_buffer_sizes (g : rng) :
  (exists out g', gen_barrel g = Ok (out, g') /\
     Z.of_nat (length out) = 32 * 48) /\
  (exists out g', gen_computer_panel g = Ok (out, g') /\
     Z.of_nat (length out) = 48 * 48) /\
  (exists out g', gen_tech_column g = Ok (out, g') /\
     Z.of_nat (length out) = 24 * 64) /\
  (exists out g', gen_brown_brick g = Ok (out, g') /\
     Z.of_nat (length out) = 128 * 128) /\
  (exists out g', gen_gray_tile_floor g = Ok (out, g') /\
     Z.of_nat (length out) = 128 * 128) /\
  (exists out g', gen_dark_teal_metal g = Ok (out, g') /\
     Z.of_nat (length out) = 128 * 128) /\
  (exists out g', gen_tan_walkway g = Ok (out, g') /\
     Z.of_nat (length out) = 128 * 128) /\
  (exists out g', gen_blue_tech_panel g = Ok (out, g') /\
     Z.of_nat (length out) = 128 * 128) /\
  (exists out g', gen_tech_floor g = Ok (out, g') /\
     Z.of_nat (length out) = 128 * 128) /\
  (exists out g', gen_ceiling_panel g = Ok (out, g') /\
     Z.of_nat (length out) = 128 * 128).
Proof.
  repeat apply conj.
  - unfold gen_barrel. apply saved_size; [lia|lia|].
    destruct (barrel_image_facts g)
      as (_ & final & g' & _ & Hf & Hw & Hh & _).
    exists final, g'. auto.
  - unfold gen_computer_panel. apply saved_size; [lia|lia|].
    destruct (computer_panel_image_facts g) as (img & g' & Hf & Hw & Hh & _).
    exists img, g'. auto.
  - unfold gen_tech_column. apply saved_size; [lia|lia|].
    destruct (tech_column_drawn_facts g) as (drawn & Hd & Hw & Hh & _).
    destruct (sprite_noise_pass 5 24 64 drawn (seed 333))
      as (final & g' & Hrun & Hw' & Hh' & _); [lia|].
    exists final, g'. split.
    { unfold tech_column_image, bind. rewrite Hd. cbn. exact Hrun. }
    split; congruence.
  - unfold gen_brown_brick. apply saved_size; [lia|lia|].
    unfold brown_brick_image. cbv zeta.
    destruct (jitter_pass brick_jitter (brick_noise_pixel 16 32 (60, 40, 25))
                brown_brick_drawn g)
      as (img & g' & Hrun & Hw & Hh & _).
    { intros. apply brick_noise_pixel_eq. }
    exists img, g'. split; [exact Hrun|]. rewrite Hw, Hh.
    split; reflexivity.
  - unfold gen_gray_tile_floor. apply saved_size; [lia|lia|].
    unfold gray_tile_floor_image. cbv zeta.
    destruct (jitter_pass tile_jitter (tile_noise_pixel 32 (65, 68, 70))
                gray_tile_floor_drawn g)
      as (img & g' & Hrun & Hw & Hh & _).
    { intros. apply tile_noise_pixel_eq. }
    exists img, g'. split; [exact Hrun|]. rewrite Hw, Hh.
    split; reflexivity.
  - unfold gen_dark_teal_metal. apply saved_size; [lia|lia|].
    unfold dark_teal_metal_image. cbv zeta.
    apply plain_noise_size; [lia|reflexivity|reflexivity].
  - unfold gen_tan_walkway. apply saved_size; [lia|lia|].
    unfold tan_walkway_image. cbv zeta.
    apply damped_noise_size; [lia|reflexivity|reflexivity].
  - unfold gen_blue_tech_panel. apply saved_size; [lia|lia|].
    unfold blue_tech_panel_image. cbv zeta.
    apply plain_noise_size; [lia|reflexivity|reflexivity].
  - unfold gen_tech_floor. apply saved_size; [lia|lia|].
    unfold tech_floor_image. cbv zeta.
    apply plain_noise_size; [lia|reflexivity|reflexivity].
  - unfold gen_ceiling_panel. apply saved_size; [lia|lia|].
    unfold ceiling_panel_image. cbv zeta.
    apply plain_noise_size; [lia|reflexivity|reflexivity].
Qed.

End ImageSizes.

(** ** The cracks of gen_gray_concrete *)

Section CrackExtras.
Context {R : Random} {D : Pillow}.

(** A random-walk crack of [gen_gray_concrete] whose step range
    [lo .. hi] is not empty (the two walks of the code draw from
    [-1 .. 2] and [-2 .. 1]) does not raise, keeps the size of the image,
    and only ever paints the crack colour: every pixel of the result has
    its old colour or the crack colour.  With an empty step range the
    first [random.randint] raises [ValueError], unless there is no step to
    take, and then the image is returned as it is. *)
Theorem crack_walk_paints_only_cracks (steps lo hi : Z) (start : Z * Z)
    (c : rgb) (img : image rgb) (g : rng) :
  (lo <= hi ->
   exists img' g',
     crack_walk steps lo hi start c img g = Ok (img', g') /\
     width img' = width img /\ height img' = height img /\
     forall x y, px img' x y = px img x y \/ px img' x y = c) /\
  (hi < lo -> 0 < steps ->
   crack_walk steps lo hi start c img g = Raise ValueError) /\
  (steps <= 0 -> crack_walk steps lo hi start c img g = Ok (img, g)).
Proof.
  split; [|split].
  2:{ intros Hlh Hs. unfold crack_walk, bind at 1.
      destruct (range 0 steps) as [|i l] eqn:E.
      - assert (Hin : In 0 (range 0 steps)) by (apply range_In; lia).
        rewrite E in Hin. destruct Hin.
      - cbn [for_]. unfold bind at 1.
        destruct start as [cx cy]. cbn [fst snd].
        unfold bind at 1. rewrite random_randint_empty by exact Hlh.
        reflexivity. }
  2:{ intros Hs. unfold crack_walk, bind at 1.
      rewrite for_range_empty by lia. reflexivity. }
  intros Hlh.
  unfold crack_walk, bind at 1.
  destruct (Z.le_gt_cases 0 steps) as [Hs|Hs].
  2:{ rewrite for_range_empty by lia. exists img, g.
      split; [reflexivity|]. split; [reflexivity|]. split; [reflexivity|].
      intros x y. left. reflexivity. }
  match goal with
  | |- context [for_ _ ?body ?s0 g] =>
      destruct (for_range_inv
        (fun (_ : Z) (st : image rgb * Z * Z) (_ : rng) =>
           width (fst (fst st)) = width img /\
           height (fst (fst st)) = height img /\
           forall x y, px (fst (fst st)) x y = px img x y \/
                       px (fst (fst st)) x y = c)
        body 0 steps s0 g Hs) as (st & g' & Hrun & Hw & Hh & Hpx)
  end.
  - split; [reflexivity|]. split; [reflexivity|].
    intros x y. left. reflexivity.
  - intros i [[cur cx] cy] g1 Hi (Hw & Hh & Hpx). cbn [fst] in *.
    unfold bind at 1. rewrite random_randint_ok by exact Hlh.
    destruct (randint lo hi g1) as [dx g2].
    unfold bind at 1. rewrite random_randint_ok by lia.
    destruct (randint 1 3 g2) as [dy g3].
    eexists _, g3. split; [reflexivity|]. cbn [fst].
    split; [exact Hw|]. split; [exact Hh|].
    intros x y. unfold line.
    match goal with
    | |- context [@paint ?T ?m c cur] =>
        destruct (px_paint_cases (P := T) m c cur x y) as [E|E]
    end.
    + right. exact E.
    + destruct (Hpx x y) as [H|H]; [left|right]; congruence.
  - rewrite Hrun. exists (fst (fst st)), g'.
    split; [reflexivity|]. split; [exact Hw|]. split; [exact Hh|exact Hpx].
Qed.

End CrackExtras.

Lemma crack_walk_paints_only_cracks_witness :
  -1 <= 2 /\
  exists img' g',
    crack_walk (R := lcg_random) (D := raster_pillow) 60 (-1) 2 (20, 0)
      (75, 75, 72) (Image_new 128 128 (110, 110, 105))
      (seed (Random := lcg_random) 304) = Ok (img', g') /\
    width img' = 128 /\ height img' = 128 /\
    forall x y,
      px img' x y = (110, 110, 105) \/ px img' x y = (75, 75, 72).
Proof.
  split; [lia|].
  apply (proj1 (crack_walk_paints_only_cracks (R := lcg_random)
                  (D := raster_pillow) 60 (-1) 2 (20, 0) (75, 75, 72)
                  (Image_new 128 128 (110, 110, 105))
                  (seed (Random := lcg_random) 304))).
  lia.
Defined.
